(** * chuid: parallel ownership rewrite -- shallow embedding and verification

    The development follows the C sources:
    - [hash.c]   the expandable (ino, dev) hash table behind the hardlink test;
    - [queue.c]  the double ended queues;
    - [config.c] the uid/gid mapping lists;
    - [chuid.c]  [process_tile], [handle_subtree] and [main].

    Conventions.  C unsigned integers are [Z] with the wrap-around written
    out; pointers into an array are indices ([nat]); [double] values are
    idealised as exact rationals ([Q]), with the two operations that leave the
    rationals (division by zero, conversion of a non-representable value to
    [long]) made explicit as an undefined outcome ([None]).  Memory
    allocation is assumed to succeed (the code exits with ENOMEM otherwise). *)

From Stdlib Require Import ZArith QArith Qround Lia.
From stdpp Require Import base list gmap strings.

Local Open Scope Z_scope.

(** ** Part I: definitions *)

(** *** hash.c *)

(** [unsigned int] arithmetic wraps modulo 2^32, [size_t] modulo 2^64. *)
Definition u32 (z : Z) : Z := z `mod` 2 ^ 32.
Definition u64 (z : Z) : Z := z `mod` 2 ^ 64.

(** [struct h_ent]: [c_link] points to another entry of the arena
    [het_tab]; the pointer is represented by the index of its target. *)
Record h_ent := H_ent { ino : Z; dev : Z; c_link : option nat }.

(** [struct htab]: the field [mod] is called [h_mod] here; the bucket array
    [hash] holds, per bucket, the index of the head of its chain. *)
Record htab := Htab {
  h_mod : Z;
  het_tab_size : Z;
  first_free : Z;
  het_tab : list h_ent;
  hash : list (option nat)
}.

(** Content of freshly allocated arena slots; no function reads a slot
    before writing it. *)
Definition h_ent_fresh : h_ent := H_ent 0 0 None.

(** [h_reset]: [first_free = 0] and every bucket set to NULL. *)
Definition h_reset (ht : htab) : htab :=
  Htab (h_mod ht) (het_tab_size ht) 0 (het_tab ht)
       (replicate (Z.to_nat (h_mod ht)) None).

(** [h_init]: allocates [mod] buckets and [het_tab_size] arena slots. *)
Definition h_init (mod_ het_tab_size_ : Z) : htab :=
  h_reset (Htab mod_ het_tab_size_ 0
                (replicate (Z.to_nat het_tab_size_) h_ent_fresh)
                (replicate (Z.to_nat mod_) None)).

Definition INIT_MODULE : Z := 100.
Definition INIT_TAB_SIZE : Z := 70.

(** The do-while loop of [h_ins] over one chain.  [fuel] bounds the number
    of entries visited; [None] stands for a walk that leaves the arena or
    does not end within [fuel] entries. *)
Fixpoint chain_find (fuel : nat) (tab : list h_ent) (ep : option nat)
    (i d : Z) : option bool :=
  match ep with
  | None => Some false
  | Some p =>
      match fuel with
      | O => None
      | S fuel' =>
          match tab !! p with
          | None => None
          | Some e =>
              if decide (ino e = i ∧ dev e = d) then Some true
              else chain_find fuel' tab (c_link e) i d
          end
      end
  end.

(** [h_ins]: returns 1 when the pair is already in its chain, else stores
    it in slot [first_free++], links it in front of the chain and returns 0.
    [None]: undefined behaviour (zero modulus, access outside an array). *)
Definition h_ins (ht : htab) (i d : Z) : option (htab * Z) :=
  if decide (h_mod ht = 0) then None
  else
    let b := Z.to_nat (i `mod` h_mod ht) in
    match hash ht !! b with
    | None => None
    | Some ep2 =>
        match chain_find (length (het_tab ht)) (het_tab ht) ep2 i d with
        | None => None
        | Some true => Some (ht, 1)
        | Some false =>
            let k := Z.to_nat (first_free ht) in
            if decide (k < length (het_tab ht))%nat then
              Some (Htab (h_mod ht) (het_tab_size ht) (u32 (first_free ht + 1))
                         (<[k := H_ent i d ep2]> (het_tab ht))
                         (<[b := Some k]> (hash ht)), 0)
            else None
        end
    end.

(** The re-insertion loop of [h_mins]: [n] entries, read from slot [k] on. *)
Fixpoint rehash (n k : nat) (ht : htab) : option htab :=
  match n with
  | O => Some ht
  | S n' =>
      match het_tab ht !! k with
      | None => None
      | Some e =>
          match h_ins ht (ino e) (dev e) with
          | None => None
          | Some (ht', _) => rehash n' (S k) ht'
          end
      end
  end.

(** [h_mins]: when the arena is full, both sizes are doubled (in
    [unsigned int]), the arrays reallocated, the buckets reset and the
    stored pairs inserted again; then the new pair is inserted. *)
Definition h_mins (ht : htab) (i d : Z) : option (htab * Z) :=
  if decide (het_tab_size ht ≤ first_free ht) then
    let mod_ := u32 (2 * h_mod ht) in
    let het_tab_size_ := u32 (2 * het_tab_size ht) in
    let ht1 := Htab mod_ het_tab_size_ (first_free ht)
                    (resize (Z.to_nat het_tab_size_) h_ent_fresh (het_tab ht))
                    (hash ht) in
    match rehash (Z.to_nat (first_free ht1)) 0 (h_reset ht1) with
    | None => None
    | Some ht2 => h_ins ht2 i d
    end
  else h_ins ht i d.

(** A sequence of [h_mins] calls on the shared table (the calls are
    serialised by the mutex [thr_nlink]); the answers are collected. *)
Fixpoint h_mins_all (ht : htab) (l : list (Z * Z)) : option (htab * list Z) :=
  match l with
  | [] => Some (ht, [])
  | (i, d) :: l' =>
      match h_mins ht i d with
      | None => None
      | Some (ht', r) =>
          match h_mins_all ht' l' with
          | None => None
          | Some (ht'', rs) => Some (ht'', r :: rs)
          end
      end
  end.

(** The set view of the same sequence: 1 when the pair occurred before. *)
Fixpoint seen_before (seen : list (Z * Z)) (l : list (Z * Z)) : list Z :=
  match l with
  | [] => []
  | p :: l' => (if decide (p ∈ seen) then 1 else 0) :: seen_before (p :: seen) l'
  end.

(** The pairs stored in the live part of the arena. *)
Definition h_pairs (n : nat) (tab : list h_ent) : list (Z * Z) :=
  (λ e, (ino e, dev e)) <$> take n tab.

(** The set of pairs a table holds. *)
Definition h_set (ht : htab) : list (Z * Z) :=
  h_pairs (Z.to_nat (first_free ht)) (het_tab ht).

Definition h_bucket (m : Z) (e : h_ent) : nat := Z.to_nat (ino e `mod` m).

(** Index of the last entry before slot [n] that hashes to bucket [b]. *)
Fixpoint last_in (m : Z) (tab : list h_ent) (b : nat) (n : nat) : option nat :=
  match n with
  | O => None
  | S j =>
      match tab !! j with
      | Some e => if decide (h_bucket m e = b) then Some j else last_in m tab b j
      | None => last_in m tab b j
      end
  end.

(** Representation invariant of the table: sizes agree with the arrays,
    every bucket heads the chain of its entries, newest first. *)
Record h_wf (ht : htab) : Prop := {
  wf_mod : 0 < h_mod ht < 2 ^ 32;
  wf_size : 0 < het_tab_size ht < 2 ^ 32;
  wf_free : 0 ≤ first_free ht ≤ het_tab_size ht;
  wf_tab : length (het_tab ht) = Z.to_nat (het_tab_size ht);
  wf_hash : length (hash ht) = Z.to_nat (h_mod ht);
  wf_heads : ∀ b, (b < Z.to_nat (h_mod ht))%nat →
      hash ht !! b = Some (last_in (h_mod ht) (het_tab ht) b (Z.to_nat (first_free ht)));
  wf_links : ∀ j e, (j < Z.to_nat (first_free ht))%nat → het_tab ht !! j = Some e →
      c_link e = last_in (h_mod ht) (het_tab ht) (h_bucket (h_mod ht) e) j
}.

(** A bound on the number of calls under which no doubling wraps around:
    [n] calls on a table created with [m] buckets and [s] slots. *)
Definition h_calls_fit (m s : Z) (n : nat) : Prop :=
  0 < m < 2 ^ 32 ∧ 0 < s < 2 ^ 32 ∧
  Z.of_nat n ≤ 2 ^ 31 ∧ m * Z.of_nat n ≤ 2 ^ 31 * s.

(** The state invariant along a sequence of calls. *)
Definition h_inv (m s : Z) (n : nat) (seen : list (Z * Z)) (ht : htab) : Prop :=
  h_wf ht ∧ NoDup (h_set ht) ∧ (∀ p, p ∈ h_set ht ↔ p ∈ seen) ∧
  s * h_mod ht = m * het_tab_size ht ∧
  (length (h_set ht) + n ≤ Z.to_nat (2 ^ 31))%nat ∧
  m * (Z.of_nat (length (h_set ht)) + Z.of_nat n) ≤ 2 ^ 31 * s.

(** *** queue.c *)

(** [queue_element_t].  [dirpos] is the directory-stream position
    ([telldir]/[seekdir]), counted in entries: 0 is the start of the stream.
    The [parent] pointer, which the program only writes, is left out; [fs]
    is the root the element descends from. *)
Record queue_element := Queue_element {
  name : string;
  dirpos : nat;
  directsubdirs : Z;
  fs : string
}.

(** [queue_anchor_t].  The chain [first ... last] is the list [elems];
    [element_counter], which only the [deq_] functions write and which they
    keep equal to the length of the chain, is computed from it. *)
Record queue_anchor := Queue_anchor {
  speed : Q;
  elems : list queue_element
}.

Definition element_counter (anchor : queue_anchor) : Z :=
  Z.of_nat (length (elems anchor)).

Definition deq_init : queue_anchor := Queue_anchor 0 [].

(** [deq_put]: append (FIFO); a NULL element is ignored. *)
Definition deq_put (anchor : queue_anchor) (new : option queue_element) : queue_anchor :=
  match new with
  | Some e => Queue_anchor (speed anchor) (elems anchor ++ [e])
  | None => anchor
  end.

(** [deq_push]: prepend (LIFO); a NULL element is ignored. *)
Definition deq_push (anchor : queue_anchor) (new : option queue_element) : queue_anchor :=
  match new with
  | Some e => Queue_anchor (speed anchor) (e :: elems anchor)
  | None => anchor
  end.

(** [deq_append global local]: the new [global] and the emptied [local]. *)
Definition deq_append (global local : queue_anchor) : queue_anchor * queue_anchor :=
  (if decide (0 < element_counter local)
   then Queue_anchor (speed global) (elems global ++ elems local)
   else global,
   deq_init).

Definition deq_prepend (global local : queue_anchor) : queue_anchor * queue_anchor :=
  (if decide (0 < element_counter local)
   then Queue_anchor (speed global) (elems local ++ elems global)
   else global,
   deq_init).

(** [deq_get]: the first element, or NULL for an empty queue. *)
Definition deq_get (anchor : queue_anchor) : option queue_element * queue_anchor :=
  match elems anchor with
  | e :: rest => (Some e, Queue_anchor (speed anchor) rest)
  | [] => (None, anchor)
  end.

(** *** chuid.c: the scheduler state and [handle_subtree] *)

(** The globals guarded by the mutex [thr_queue].  [busy_count] is a
    [size_t], [fast_nodes_befor_next_slow_node] a [long]. *)
Record shared := Shared {
  fast_anchor : queue_anchor;
  slow_anchor : queue_anchor;
  fast_nodes_befor_next_slow_node : Z;
  busy_count : Z;
  notfinished : bool
}.

Definition set_fast (a : queue_anchor) (g : shared) : shared :=
  Shared a (slow_anchor g) (fast_nodes_befor_next_slow_node g) (busy_count g) (notfinished g).
Definition set_slow (a : queue_anchor) (g : shared) : shared :=
  Shared (fast_anchor g) a (fast_nodes_befor_next_slow_node g) (busy_count g) (notfinished g).
Definition set_credit (c : Z) (g : shared) : shared :=
  Shared (fast_anchor g) (slow_anchor g) c (busy_count g) (notfinished g).
Definition set_busy (b : Z) (g : shared) : shared :=
  Shared (fast_anchor g) (slow_anchor g) (fast_nodes_befor_next_slow_node g) b (notfinished g).
Definition set_notfinished (b : bool) (g : shared) : shared :=
  Shared (fast_anchor g) (slow_anchor g) (fast_nodes_befor_next_slow_node g) (busy_count g) b.
Definition set_speed (s : Q) (a : queue_anchor) : queue_anchor :=
  Queue_anchor s (elems a).

Definition LONG_MIN : Z := - 2 ^ 63.
Definition LONG_MAX : Z := 2 ^ 63 - 1.

(** [(long) ceil (fast_anchor->speed / slow_anchor->speed)].  With a zero
    divisor the quotient is an infinity or a NaN, and the conversion of such
    a value, or of one outside [long], is undefined: [None]. *)
Definition speed_ratio (fast_speed slow_speed : Q) : option Z :=
  if Qeq_bool slow_speed 0 then None
  else
    let c := Qceiling (fast_speed / slow_speed) in
    if decide (LONG_MIN ≤ c ≤ LONG_MAX) then Some c else None.


(** After an element was taken: the speed of an emptied queue follows the
    other queue's speed. *)
Definition decay_speeds (g : shared) : shared :=
  if decide (element_counter (fast_anchor g) = 0 ∧ element_counter (slow_anchor g) = 0) then
    set_slow (set_speed 0 (slow_anchor g)) (set_fast (set_speed 0 (fast_anchor g)) g)
  else if decide (element_counter (fast_anchor g) = 0) then
    set_fast (set_speed (speed (slow_anchor g)) (fast_anchor g)) g
  else if decide (element_counter (slow_anchor g) = 0) then
    set_slow (set_speed (speed (fast_anchor g)) (slow_anchor g)) g
  else g.

(** The choice of the queue in dual-queue mode, before [decay_speeds]. *)
Definition take_dual (g : shared) : option (option queue_element * shared) :=
  if decide (0 < fast_nodes_befor_next_slow_node g) then
    match deq_get (fast_anchor g) with
    | (Some qe, fa) =>
        Some (Some qe, set_credit (fast_nodes_befor_next_slow_node g - 1) (set_fast fa g))
    | (None, _) =>
        match deq_get (slow_anchor g) with
        | (Some qe, sa) =>
            match speed_ratio (speed (fast_anchor g)) (speed sa) with
            | Some c => Some (Some qe, set_credit c (set_slow sa g))
            | None => None
            end
        | (None, _) => Some (None, g)
        end
    end
  else
    match deq_get (slow_anchor g) with
    | (Some qe, sa) =>
        match speed_ratio (speed (fast_anchor g)) (speed sa) with
        | Some c => Some (Some qe, set_credit c (set_slow sa g))
        | None => None
        end
    | (None, _) =>
        let '(qe, fa) := deq_get (fast_anchor g) in Some (qe, set_fast fa g)
    end.

(** The element a worker takes once it holds the mutex and [notfinished]
    is set ([handle_subtree], the branch [if (notfinished)]). *)
Definition take_element (dual_queue : bool) (g : shared) : option (option queue_element * shared) :=
  if dual_queue then
    match take_dual g with
    | Some (qe, g') => Some (qe, decay_speeds g')
    | None => None
    end
  else
    let '(qe, fa) := deq_get (fast_anchor g) in Some (qe, set_fast fa g).

(** What a take from the slow queue leaves behind. *)
Definition took_slow (g : shared) (qe : queue_element) (rest : list queue_element)
    (r : option (option queue_element * shared)) : Prop :=
  match speed_ratio (speed (fast_anchor g)) (speed (slow_anchor g)) with
  | Some c =>
      ∃ g', r = Some (Some qe, g') ∧ fast_nodes_befor_next_slow_node g' = c ∧
            elems (slow_anchor g') = rest ∧ elems (fast_anchor g') = elems (fast_anchor g)
  | None => r = None
  end.

(** [busy_count++] and [busy_count--] on a [size_t]. *)
Definition busy_incr (g : shared) : shared := set_busy (u64 (busy_count g + 1)) g.

(** The critical section after [process_tile]: the decrement and the test
    for the end of the scan.  The flag tells whether the condition variable
    is broadcast. *)
Definition release (g : shared) : shared * bool :=
  let g' := set_busy (u64 (busy_count g - 1)) g in
  if decide (busy_count g' = 0 ∧ element_counter (fast_anchor g') = 0
             ∧ element_counter (slow_anchor g') = 0)
  then (set_notfinished false g', true)
  else (g', false).

Definition Qltb (a b : Q) : bool := negb (Qle_bool b a).

(** The transfer of a private queue to the global queues ([process_tile],
    under [thr_queue]); the new shared state and the emptied private queue. *)
Definition hand_over (dual_queue stack : bool) (scanrate : Q)
    (p_anchor : queue_anchor) (g : shared) : shared * queue_anchor :=
  let splice := if stack then deq_prepend else deq_append in
  if dual_queue then
    if Qle_bool ((speed (fast_anchor g) + speed (slow_anchor g)) / 2) scanrate then
      let '(fa, p) := splice (fast_anchor g) p_anchor in
      (set_fast (set_speed scanrate fa) g, p)
    else
      let '(sa, p) := splice (slow_anchor g) p_anchor in
      (set_slow (set_speed scanrate sa) g, p)
  else
    let '(fa, p) := splice (fast_anchor g) p_anchor in (set_fast fa g, p).

(** [struct timeval] and the scan rate computed at a transfer:
    [delta] in seconds, and [directories_scanned / delta] when [delta > 0],
    else [directories_scanned] itself.  The program computes [delta] and the
    quotient in binary64; here they are exact rationals, so a rate of the
    model stands for the number the program rounds it to.  The sign of a
    rate and the case [delta = 0] are the same in both; the value of a
    quotient, and a comparison of two rates that are close, need not be. *)
Record timeval := Timeval { tv_sec : Z; tv_usec : Z }.

Definition time_delta (t1 t2 : timeval) : Q :=
  (inject_Z (tv_sec t2 - tv_sec t1) + inject_Z (tv_usec t2 - tv_usec t1) / 1000000)%Q.

Definition scan_rate (t1 t2 : timeval) (directories_scanned : Z) : Q :=
  if Qltb 0 (time_delta t1 t2)
  then (inject_Z directories_scanned / time_delta t1 t2)%Q
  else inject_Z directories_scanned.

(** *** config.c: the mapping and name lists *)

(** [uid_list] / [gid_list]: a pair is appended unless its old id is
    already listed (the duplicate is reported and dropped). *)
Definition uid_list (olduid newuid : Z) (begin_uidpair : list (Z * Z)) : list (Z * Z) :=
  if decide (olduid ∈ begin_uidpair.*1) then begin_uidpair
  else begin_uidpair ++ [(olduid, newuid)].

Definition gid_list (oldgid newgid : Z) (begin_gidpair : list (Z * Z)) : list (Z * Z) :=
  if decide (oldgid ∈ begin_gidpair.*1) then begin_gidpair
  else begin_gidpair ++ [(oldgid, newgid)].

(** [append] / [appendex]: a name is appended unless already listed. *)
Definition append (dirpath : string) (begin_fs_list : list string) : list string :=
  if decide (dirpath ∈ begin_fs_list) then begin_fs_list else begin_fs_list ++ [dirpath].

Definition appendex (filename : string) (begin_exclude_file : list string) : list string :=
  if decide (filename ∈ begin_exclude_file) then begin_exclude_file
  else begin_exclude_file ++ [filename].

Inductive id_dim := Uid | Gid.

(** [parseuidlist] on the well-formed data lines of the mapping file, each
    given by its tag and the two ids as [sscanf] stored them in [uid_t]
    variables: the uid and the gid list.  The ids of a line are values of a
    32-bit unsigned type; what the program stores for a number that does not
    fit is not modelled, so statements about the ids of a file assume
    [ids_in_range]. *)
Fixpoint parseuidlist (lines : list (id_dim * Z * Z)) (acc : list (Z * Z) * list (Z * Z))
    : list (Z * Z) * list (Z * Z) :=
  match lines with
  | [] => acc
  | (Uid, oldid, newid) :: rest => parseuidlist rest (uid_list oldid newid acc.1, acc.2)
  | (Gid, oldid, newid) :: rest => parseuidlist rest (acc.1, gid_list oldid newid acc.2)
  end.

(** The ids of the data lines are values of [uid_t]: 32-bit and unsigned. *)
Definition ids_in_range (lines : list (id_dim * Z * Z)) : Prop :=
  Forall (λ l, (0 ≤ l.1.2 < 2 ^ 32) ∧ (0 ≤ l.2 < 2 ^ 32)) lines.

Definition parsefilelist (lines : list string) : list string :=
  foldl (λ acc l, append l acc) [] lines.

Definition parseexfilelist (lines : list string) : list string :=
  foldl (λ acc l, appendex l acc) [] lines.

(** *** chuid.c: configuration, file system and effects *)

(** The option variables and parsed lists the scan reads. *)
Record config := Config {
  stack : bool;
  dryrun : bool;
  dual_queue : bool;
  numthr : Z;
  busythreshold : Q;
  begin_uidpair : list (Z * Z);
  begin_gidpair : list (Z * Z);
  begin_exclude_file : list string;
  begin_fs_list : list string
}.

Inductive file_kind := S_IFREG | S_IFLNK | S_IFDIR | S_IFOTHER.

(** The fields of [struct stat] the program reads. *)
Record stat := Stat {
  st_mode : file_kind;
  st_nlink : Z;
  st_ino : Z;
  st_dev : Z;
  st_uid : Z;
  st_gid : Z
}.

(** What a path names: type, link count and inode of the file. *)
Record dentry := Dentry {
  d_mode : file_kind;
  d_nlink : Z;
  d_ino : Z;
  d_dev : Z
}.

(** The file system and clock the program runs against.  [fs_dirs] gives
    the entries of a directory in the order of its stream, [.] and [..]
    included ([opendir] fails on other paths); [fs_lstat] gives what a path
    names ([lstat] fails on other paths); [chown] and [lchown] fail on the
    paths of [fs_denied]; [clock n] is the result of the [n]-th
    [gettimeofday]. *)
Record environment := Environment {
  fs_dirs : gmap string (list string);
  fs_lstat : gmap string dentry;
  fs_denied : gset string;
  clock : nat → timeval
}.

(** The owner (uid, gid) of every inode, keyed by (ino, dev): the part of
    the file system the program changes. *)
Definition owners : Type := Z * Z → Z * Z.

Definition lstat (env : environment) (o : owners) (path : string) : option stat :=
  match fs_lstat env !! path with
  | Some d =>
      let '(u, g) := o (d_ino d, d_dev d) in
      Some (Stat (d_mode d) (d_nlink d) (d_ino d) (d_dev d) u g)
  | None => None
  end.

(** [(uid_t) -1] and [(gid_t) -1]: the id is left as it is. *)
Definition ID_KEEP : Z := 2 ^ 32 - 1.

Definition set_owner (k : Z * Z) (v : Z * Z) (o : owners) : owners :=
  λ k', if decide (k' = k) then v else o k'.

(** [chown (path, uid, gid)] and [lchown]: the program calls [chown] on
    regular files and directories and [lchown] on symbolic links, so both act
    on the inode the path names. *)
Definition chown (env : environment) (path : string) (uid gid : Z) (o : owners)
    : bool * owners :=
  match fs_lstat env !! path with
  | Some d =>
      if decide (path ∈ fs_denied env) then (false, o)
      else
        let k := (d_ino d, d_dev d) in
        (true, set_owner k (if decide (uid = ID_KEEP) then (o k).1 else uid,
                            if decide (gid = ID_KEEP) then (o k).2 else gid) o)
  | None => (false, o)
  end.

Inductive syscall := Chown | Lchown.

Definition INFO : Z := 0.
Definition WARNING : Z := 1.
Definition ERROR : Z := 2.
Definition EXIT_SUCCESS : Z := 0.
Definition EXIT_FAILURE : Z := 1.

(** What the program does to the outside.  [EvChown call dim path id ok] is
    the call [chown (path, id, -1)] for [Uid] and [chown (path, -1, id)] for
    [Gid] (or [lchown]) with its success; [EvStdout] is a dry-run line and
    [EvLog] a record of the log file, both without the resolved names. *)
Inductive event :=
| EvChown (call : syscall) (dim : id_dim) (path : string) (id : Z) (ok : bool)
| EvStdout (path tag : string) (dim : id_dim) (old new : Z)
| EvLog (severity : Z) (msg : string) (path : option string)
| EvStderr (msg : string)
| EvCondSignal
| EvCondBroadcast
| EvThreadCreate (tid : nat)
| EvExit (code : Z).

(** The dry-run loop over one mapping list: the first entry whose old id
    is the file's id prints one line and ends the loop. *)
Fixpoint report_loop (tag path : string) (dim : id_dim) (id : Z) (pairs : list (Z * Z))
    : list event :=
  match pairs with
  | [] => []
  | (old, new) :: rest =>
      if decide (old = id) then [EvStdout path tag dim old new]
      else report_loop tag path dim id rest
  end.

Definition chown_dim (env : environment) (dim : id_dim) (path : string) (new : Z)
    (o : owners) : bool * owners :=
  match dim with
  | Uid => chown env path new ID_KEEP o
  | Gid => chown env path ID_KEEP new o
  end.

(** The heap, as far as [process_tile] misuses it.  [names_freed]: the
    pointers [oname] and [nname] of the call in progress hold the addresses
    of freed strings; they are NULL when the call starts, and every string
    [uidname] or [gidname] returns is freed right after its use.
    [undefined]: freed memory was freed again, or memory still in use was
    freed; from then on the C standard leaves open what the program does. *)
Record memory := Memory {
  names_freed : bool;
  undefined : bool
}.

Definition memory_init : memory := Memory false false.

(** The changing loop over one mapping list: an entry whose old id is the
    file's id calls [chown]; success is logged, with the two names that are
    then freed, and ends the loop; failure is logged and the loop goes on
    with the next entry.  [frees] marks the uid loop of the directory
    branch, whose failure case also runs [free (oname); free (nname)]: a
    second free of both strings when the pointers are not NULL. *)
Fixpoint chown_loop (env : environment) (call : syscall) (path : string)
    (dim : id_dim) (frees : bool) (id : Z) (pairs : list (Z * Z)) (m : memory) (o : owners)
    : owners * list event * memory :=
  match pairs with
  | [] => (o, [], m)
  | (old, new) :: rest =>
      if decide (old = id) then
        match chown_dim env dim path new o with
        | (true, o') =>
            (o', [EvChown call dim path new true; EvLog INFO "will be changed" (Some path)],
             Memory true (undefined m))
        | (false, o') =>
            let m' := if frees then Memory (names_freed m) (undefined m || names_freed m)
                      else m in
            let '(o'', es, m'') := chown_loop env call path dim frees id rest m' o' in
            (o'', EvChown call dim path new false :: EvLog WARNING "couldn't stat" (Some path) :: es,
             m'')
        end
      else chown_loop env call path dim frees id rest m o
  end.

(** The uid block followed by the gid block; both compare with the ids
    [lstat] returned.  The program repeats this code for regular files
    ([chown], tag FILE), symbolic links ([lchown], tag DIRECTORY) and
    directories ([chown], tag DIRECTORY); [dir] marks the copy for
    directories.  A dry-run line is printed with the two names, which are
    then freed. *)
Definition id_rewrite (cfg : config) (env : environment) (call : syscall)
    (tag : string) (dir : bool) (path : string) (uid gid : Z) (m : memory) (o : owners)
    : owners * list event * memory :=
  if dryrun cfg then
    let es := report_loop tag path Uid uid (begin_uidpair cfg)
              ++ report_loop tag path Gid gid (begin_gidpair cfg) in
    (o, es, Memory (names_freed m || bool_decide (es ≠ [])) (undefined m))
  else
    let '(o1, es1, m1) := chown_loop env call path Uid dir uid (begin_uidpair cfg) m o in
    let '(o2, es2, m2) := chown_loop env call path Gid false gid (begin_gidpair cfg) m1 o1 in
    (o2, es1 ++ es2, m2).

(** The state of a run: the scheduler globals, the hardlink table, the
    number of clock readings so far, the owners, the trace of effects and the
    state of the heap. *)
Record world := World {
  w_shared : shared;
  w_htab : htab;
  w_clock : nat;
  w_owners : owners;
  w_events : list event;
  w_memory : memory
}.

Definition set_shared (g : shared) (w : world) : world :=
  World g (w_htab w) (w_clock w) (w_owners w) (w_events w) (w_memory w).
Definition emit (es : list event) (w : world) : world :=
  World (w_shared w) (w_htab w) (w_clock w) (w_owners w) (w_events w ++ es) (w_memory w).
Definition tick (w : world) : world :=
  World (w_shared w) (w_htab w) (S (w_clock w)) (w_owners w) (w_events w) (w_memory w).
Definition set_memory (m : memory) (w : world) : world :=
  World (w_shared w) (w_htab w) (w_clock w) (w_owners w) (w_events w) m.

(** The id rewrite of one entry, applied to the world. *)
Definition rewrite_entry (cfg : config) (env : environment) (call : syscall)
    (tag : string) (dir : bool) (path : string) (sb : stat) (ht : htab) (w : world) : world :=
  let '(o, es, m) :=
    id_rewrite cfg env call tag dir path (st_uid sb) (st_gid sb) (w_memory w) (w_owners w) in
  World (w_shared w) ht (w_clock w) o (w_events w ++ es) m.

(** [process_tile], the body of the [readdir] loop for an entry that is
    neither [.], [..] nor excluded, up to the test for idle threads. *)
Definition visit_child (cfg : config) (env : environment) (w_element : queue_element)
    (d_name : string) (p_anchor : queue_anchor) (w : world)
    : option (queue_element * queue_anchor * world) :=
  let pathofchild := name w_element +:+ "/" +:+ d_name in
  match lstat env (w_owners w) pathofchild with
  | Some t_statbuf =>
      match st_mode t_statbuf with
      | S_IFREG =>
          match (if decide (1 < st_nlink t_statbuf)
                 then h_mins (w_htab w) (st_ino t_statbuf) (st_dev t_statbuf)
                 else Some (w_htab w, 0)) with
          | None => None
          | Some (ht, known_nlink_file) =>
              if decide (st_nlink t_statbuf = 1 ∨ known_nlink_file = 0) then
                Some (w_element, p_anchor,
                      rewrite_entry cfg env Chown "FILE" false pathofchild t_statbuf ht w)
              else
                Some (w_element, p_anchor,
                      World (w_shared w) ht (w_clock w) (w_owners w) (w_events w) (w_memory w))
          end
      | S_IFLNK =>
          Some (w_element, p_anchor,
                rewrite_entry cfg env Lchown "DIRECTORY" false pathofchild t_statbuf
                  (w_htab w) w)
      | S_IFDIR =>
          let w' := rewrite_entry cfg env Chown "DIRECTORY" true pathofchild t_statbuf
                      (w_htab w) w in
          let w_element' := Queue_element (name w_element) (dirpos w_element)
                              (directsubdirs w_element + 1) (fs w_element) in
          let p_element := Queue_element pathofchild 0 0 (fs w_element) in
          Some (w_element',
                (if stack cfg then deq_push p_anchor (Some p_element)
                 else deq_put p_anchor (Some p_element)),
                w')
      | S_IFOTHER => Some (w_element, p_anchor, w)
      end
  | None => Some (w_element, p_anchor, emit [EvLog WARNING "couldn't stat" (Some pathofchild)] w)
  end.

(** The test for idle threads: [(double) busy_count / (double) numthr <
    busythreshold], on the value of [busy_count] at that moment. *)
Definition too_few_busy (cfg : config) (g : shared) : bool :=
  Qltb (inject_Z (busy_count g) / inject_Z (numthr cfg)) (busythreshold cfg).

(** How the [readdir] loop of one directory ended. *)
Record scan_result := Scan_result {
  sr_element : queue_element;
  sr_anchor : queue_anchor;
  sr_world : world;
  too_many_idle_threads : bool;
  backtodeq : bool
}.

(** The [readdir] loop over the entries from stream position [pos] on.
    When too few threads are busy the loop stops: the position is stored in
    the element, and the element is put back on the private queue if the
    stream has a further entry. *)
Fixpoint scan_dir (cfg : config) (env : environment) (entries : list string) (pos : nat)
    (w_element : queue_element) (p_anchor : queue_anchor) (w : world)
    : option scan_result :=
  match entries with
  | [] => Some (Scan_result w_element p_anchor w false false)
  | d_name :: rest =>
      if decide (d_name = "." ∨ d_name = "..") then
        scan_dir cfg env rest (S pos) w_element p_anchor w
      else if decide (d_name ∈ begin_exclude_file cfg) then
        scan_dir cfg env rest (S pos) w_element p_anchor w
      else
        match visit_child cfg env w_element d_name p_anchor w with
        | None => None
        | Some (w_element', p_anchor', w') =>
            if too_few_busy cfg (w_shared w') then
              let w_element'' := Queue_element (name w_element') (S pos)
                                   (directsubdirs w_element') (fs w_element') in
              match rest with
              | _ :: _ =>
                  Some (Scan_result w_element'' (deq_put p_anchor' (Some w_element''))
                          w' true true)
              | [] => Some (Scan_result w_element'' p_anchor' w' true false)
              end
            else scan_dir cfg env rest (S pos) w_element' p_anchor' w'
        end
  end.

(** How a run of the model ends: at the end of the code, with the fuel
    used up, in a wait that never ends, or in undefined behaviour. *)
Inductive status := Finished | OutOfFuel | Blocked | Undefined.

(** The local variables of [process_tile] that live across iterations.
    [l_backtodeq] is the variable [backtodeq]: the element of the last
    iteration was put back on the private queue. *)
Record tile_locals := Tile_locals {
  directories_scanned : Z;
  first_deq_element : option queue_element;
  t1 : timeval;
  l_backtodeq : bool
}.

(** The transfer at the end of an iteration that found too many idle
    threads, with more than one element on the private queue.  In
    single-queue mode [first_deq_element] is never assigned, so the whole
    private queue goes to the fast queue, the element that was put back
    included. *)
Definition transfer (cfg : config) (env : environment) (loc : tile_locals)
    (p_anchor : queue_anchor) (w : world) : tile_locals * queue_anchor * world :=
  let t2 := clock env (w_clock w) in
  let w1 := emit [EvLog INFO "too many idle threads detected" None] (tick w) in
  let deq_count := element_counter p_anchor in
  let scanrate := scan_rate (t1 loc) t2 (directories_scanned loc) in
  let '(first, p1) :=
    if dual_queue cfg then deq_get p_anchor else (first_deq_element loc, p_anchor) in
  let '(g, p2) := hand_over (dual_queue cfg) (stack cfg) scanrate p1 (w_shared w1) in
  let w2 := emit (replicate (Z.to_nat (deq_count - 1)) EvCondSignal) (set_shared g w1) in
  (Tile_locals 0 first (t1 loc) (l_backtodeq loc), deq_put p2 first, w2).

(** [free (w_element)] after the loop: the element of the last iteration.
    When that iteration put it back on the private queue, the queue can only
    be empty because a transfer moved it to the fast queue: it is freed
    while it is linked there, and the dispatch that reaches it uses freed
    memory. *)
Definition free_w_element (loc : tile_locals) (w : world) : world :=
  if l_backtodeq loc then set_memory (Memory (names_freed (w_memory w)) true) w else w.

(** The [while] loop of [process_tile] and the [free] after it; [fuel]
    bounds the iterations. *)
Fixpoint tile_loop (fuel : nat) (cfg : config) (env : environment) (loc : tile_locals)
    (p_anchor : queue_anchor) (w : world) : world * status :=
  if decide (0 < element_counter p_anchor) then
    match fuel with
    | O => (w, OutOfFuel)
    | S fuel' =>
        let loc1 := Tile_locals
                      (if dual_queue cfg then directories_scanned loc + 1
                       else directories_scanned loc)
                      (first_deq_element loc) (t1 loc) false in
        match deq_get p_anchor with
        | (None, _) => (w, Undefined)
        | (Some w_element, p1) =>
            match fs_dirs env !! name w_element with
            | Some entries =>
                match scan_dir cfg env (drop (dirpos w_element) entries) (dirpos w_element)
                        w_element p1 w with
                | None => (w, Undefined)
                | Some r =>
                    let loc1' := Tile_locals (directories_scanned loc1)
                                   (first_deq_element loc1) (t1 loc1) (backtodeq r) in
                    if too_many_idle_threads r
                       && bool_decide (1 < element_counter (sr_anchor r)) then
                      let '(loc2, p2, w2) := transfer cfg env loc1' (sr_anchor r) (sr_world r) in
                      tile_loop fuel' cfg env loc2 p2 w2
                    else tile_loop fuel' cfg env loc1' (sr_anchor r) (sr_world r)
                end
            | None =>
                tile_loop fuel' cfg env loc1 p1
                  (emit [EvLog WARNING "couldn't open" (Some (name w_element))] w)
            end
        end
    end
  else (free_w_element loc w, Finished).

(** [process_tile]: the private queue starts with the element received,
    [oname] and [nname] are NULL, and the clock is read once. *)
Definition process_tile (fuel : nat) (cfg : config) (env : environment)
    (qe : queue_element) (w : world) : world * status :=
  let p_anchor := deq_push deq_init (Some qe) in
  let loc := Tile_locals 0 None (clock env (w_clock w)) false in
  tile_loop fuel cfg env loc p_anchor
    (set_memory (Memory false (undefined (w_memory w))) (tick w)).

(** [handle_subtree] for a worker that runs alone: it takes an element,
    processes it and releases, until [notfinished] is cleared.  Waiting on
    the condition variable with both queues empty would never end
    ([Blocked]). *)
Fixpoint handle_subtree (fuel : nat) (cfg : config) (env : environment) (w : world)
    : world * status :=
  if notfinished (w_shared w) then
    match fuel with
    | O => (w, OutOfFuel)
    | S fuel' =>
        let g := w_shared w in
        if decide (element_counter (fast_anchor g) = 0 ∧ element_counter (slow_anchor g) = 0)
        then (w, Blocked)
        else
          match take_element (dual_queue cfg) g with
          | None => (w, Undefined)
          | Some (None, g') => handle_subtree fuel' cfg env (set_shared g' w)
          | Some (Some qe, g') =>
              match process_tile fuel' cfg env qe (set_shared (busy_incr g') w) with
              | (w1, Finished) =>
                  let '(g1, broadcast) := release (w_shared w1) in
                  handle_subtree fuel' cfg env
                    (emit (if broadcast then [EvCondBroadcast] else []) (set_shared g1 w1))
              | (w1, s) => (w1, s)
              end
          end
    end
  else (w, Finished).

(** *** chuid.c: [main] *)

Definition PTHREAD_THREADS_MAX : Z := 256.
Definition OPENFILES_OFFSET : Z := 5.

(** The case ['t'] of the option loop.  [numthr] is the [size_t] read by
    [sscanf], [max_openfiles] an [unsigned int]: the difference
    [max_openfiles - numthr] is computed in [size_t], the new value
    [max_openfiles - OPENFILES_OFFSET] in [unsigned int].  [None] is
    [exit (EXIT_FAILURE)]. *)
Definition option_t (max_openfiles numthr_ : Z) : option Z :=
  if decide (PTHREAD_THREADS_MAX < numthr_) then None
  else if decide (u64 (max_openfiles - numthr_) < OPENFILES_OFFSET)
       then Some (u32 (max_openfiles - OPENFILES_OFFSET))
       else Some numthr_.

(** The command line and the data lines of the three input files. *)
Record arguments := Arguments {
  arg_t : option Z;
  arg_q : bool;
  arg_n : bool;
  arg_o : bool;
  arg_b : option Q;
  id_lines : list (id_dim * Z * Z);
  dir_lines : list string;
  ex_lines : list string
}.

(** The loop of [main] over the root list: a root that [lstat] accepts is
    appended to the fast queue, any other is reported in the log. *)
Fixpoint seed_roots (env : environment) (o : owners) (roots : list string)
    (fast : queue_anchor) : queue_anchor * list event :=
  match roots with
  | [] => (fast, [])
  | dirpath :: rest =>
      match lstat env o dirpath with
      | Some _ =>
          seed_roots env o rest (deq_put fast (Some (Queue_element dirpath 0 0 dirpath)))
      | None =>
          let '(fast', es) := seed_roots env o rest fast in
          (fast', EvLog WARNING "couldn't stat" (Some dirpath) :: es)
      end
  end.

Definition config_of (args : arguments) (numthr_ : Z) : config :=
  let '(uids, gids) := parseuidlist (id_lines args) ([], []) in
  Config (negb (arg_q args)) (arg_n args) (negb (arg_o args)) numthr_
         (default (9 # 10)%Q (arg_b args))
         uids gids (parseexfilelist (ex_lines args)) (parsefilelist (dir_lines args)).

Definition stopped (o : owners) (es : list event) : world * status :=
  (World (Shared deq_init deq_init 0 0 true) (h_init INIT_MODULE INIT_TAB_SIZE) 0 o es
         memory_init,
   Finished).

(** The end of [main], after the workers are joined: a run that has left
    defined behaviour ends as [Undefined]; a scan that came to its end is
    logged and the program exits with success. *)
Definition main_exit (r : world * status) : world * status :=
  if undefined (w_memory r.1) then (r.1, Undefined)
  else
    match r.2 with
    | Finished =>
        (emit [EvLog INFO "Scan successfully completed" None; EvExit EXIT_SUCCESS] r.1,
         Finished)
    | _ => r
    end.

(** [main], from the options to [exit], for the schedule in which the
    first worker thread does all the work: the other threads find
    [notfinished] cleared when they first run.  A run that has left defined
    behaviour ends as [Undefined]: nothing is said of what it did. *)
Definition chuid_main (fuel : nat) (args : arguments) (max_openfiles : Z)
    (env : environment) (o : owners) : world * status :=
  match (match arg_t args with Some n => option_t max_openfiles n | None => Some 20 end) with
  | None => stopped o [EvStderr "ERROR: Number of threads"; EvExit EXIT_FAILURE]
  | Some numthr_ =>
      let cfg := config_of args numthr_ in
      match begin_fs_list cfg with
      | [] => stopped o [EvStderr "ERROR: No files systems to work on!"; EvExit EXIT_FAILURE]
      | _ :: _ =>
          let '(fast, es) := seed_roots env o (begin_fs_list cfg) deq_init in
          match elems fast with
          | [] =>
              stopped o (es ++ [EvStderr "ERROR: No valid files systems to work on!";
                                EvExit EXIT_FAILURE])
          | _ :: _ =>
              let w0 := World (Shared fast deq_init 0 0 true)
                              (h_init INIT_MODULE INIT_TAB_SIZE) 0 o
                              (es ++ (EvThreadCreate <$> seq 0 (Z.to_nat numthr_)))
                              memory_init in
              main_exit (if decide (0 < numthr_) then handle_subtree fuel cfg env w0
                         else (w0, Finished))
          end
      end
  end.

(** *** The worker pool as a transition system *)

(** The critical sections of [handle_subtree] and [process_tile] under the
    mutex [thr_queue] are the atomic steps of the pool; the signal handler
    is a step of its own.  [handler] clears [notfinished] under the mutex
    [thr_handler], not under [thr_queue]: a worker that has passed the test
    of [notfinished] inside its critical section still takes an element when
    the signal arrives then.  A trace orders [LSignal] before or after a
    whole [LTake], so that interleaving is not among the runs of [pool_run];
    nothing is stated here about what the workers do after a signal. *)
Inductive wstatus := Waiting | Scanning | Exited.

Global Instance wstatus_eq_dec : EqDecision wstatus.
Proof. solve_decision. Defined.

Record pool := Pool {
  p_shared : shared;
  p_workers : list wstatus
}.

Inductive label :=
| LTake (tid : nat)
| LTransfer (tid : nat) (scanrate : Q) (p_anchor : queue_anchor)
| LRelease (tid : nat)
| LExit (tid : nat)
| LSignal.

Definition pool_step (dual_queue_ stack_ : bool) (l : label) (p : pool) : option pool :=
  let g := p_shared p in
  match l with
  | LTake tid =>
      match p_workers p !! tid with
      | Some Waiting =>
          if notfinished g
             && negb (bool_decide (element_counter (fast_anchor g) = 0
                                   ∧ element_counter (slow_anchor g) = 0)) then
            match take_element dual_queue_ g with
            | Some (Some _, g') => Some (Pool (busy_incr g') (<[tid := Scanning]> (p_workers p)))
            | Some (None, g') => Some (Pool g' (p_workers p))
            | None => None
            end
          else None
      | _ => None
      end
  | LTransfer tid scanrate p_anchor =>
      match p_workers p !! tid with
      | Some Scanning =>
          if decide (0 < element_counter p_anchor)
          then Some (Pool (hand_over dual_queue_ stack_ scanrate p_anchor g).1 (p_workers p))
          else None
      | _ => None
      end
  | LRelease tid =>
      match p_workers p !! tid with
      | Some Scanning => Some (Pool (release g).1 (<[tid := Waiting]> (p_workers p)))
      | _ => None
      end
  | LExit tid =>
      match p_workers p !! tid with
      | Some Waiting =>
          if notfinished g then None
          else Some (Pool g (<[tid := Exited]> (p_workers p)))
      | _ => None
      end
  | LSignal => Some (Pool (set_notfinished false g) (p_workers p))
  end.

(** The pool after a sequence of steps. *)
Fixpoint pool_run (dual_queue_ stack_ : bool) (tr : list label) (p : pool) : option pool :=
  match tr with
  | [] => Some p
  | l :: tr' =>
      match pool_step dual_queue_ stack_ l p with
      | Some p' => pool_run dual_queue_ stack_ tr' p'
      | None => None
      end
  end.

(** The pool when the workers start: the roots on the fast queue. *)
Definition pool_init (roots : list queue_element) (n : nat) : pool :=
  Pool (Shared (Queue_anchor 0 roots) deq_init 0 0 true) (replicate n Waiting).


Definition scanning (p : pool) : nat :=
  length (filter (λ s, s = Scanning) (p_workers p)).

(** The invariant of the pool: [busy_count] counts the workers that hold
    an element, and once [notfinished] is cleared nobody scans and both
    queues are empty. *)
Definition pool_inv (p : pool) : Prop :=
  Z.of_nat (length (p_workers p)) < 2 ^ 64 ∧
  busy_count (p_shared p) = Z.of_nat (scanning p) ∧
  (notfinished (p_shared p) = false →
   scanning p = 0%nat ∧ elems (fast_anchor (p_shared p)) = []
   ∧ elems (slow_anchor (p_shared p)) = []).

(** A slow queue that holds elements has a positive speed. *)
Definition slow_speed_pos (g : shared) : Prop :=
  elems (slow_anchor g) ≠ [] → (0 < speed (slow_anchor g))%Q.

(** What the scheduler keeps of its numbers: the credit and the speeds are
    never negative, and a slow queue that holds elements has a positive
    speed. *)
Definition sched_inv (g : shared) : Prop :=
  0 ≤ fast_nodes_befor_next_slow_node g ∧
  (0 <= speed (fast_anchor g))%Q ∧ (0 <= speed (slow_anchor g))%Q ∧
  slow_speed_pos g.

(** [busy_count] counts the workers that hold an element. *)
Definition busy_inv (p : pool) : Prop :=
  Z.of_nat (length (p_workers p)) < 2 ^ 64 ∧
  busy_count (p_shared p) = Z.of_nat (scanning p).

(** *** A run as a sequence of actions on the file system *)

(** The traversal never looks at the owners, at the trace or at the
    state of the heap: a run acts on them through the actions below, in
    order.  [ActRewrite] is the id rewrite of the entry [path] names,
    [ActEmit] adds events, [ActEnterTile] is the start of a [process_tile]
    call ([oname] and [nname] are NULL) and [ActFreeElement] the [free] of a
    queue element that is still on the fast queue. *)
Inductive action :=
| ActEmit (es : list event)
| ActRewrite (call : syscall) (tag path : string) (d : dentry)
| ActEnterTile
| ActFreeElement.

(** The owners and the events of the id rewrite of an entry; they do not
    depend on the state of the heap. *)
Definition rewrite_dentry (cfg : config) (env : environment) (call : syscall)
    (tag path : string) (d : dentry) (o : owners) : owners * list event :=
  let '(u, g) := o (d_ino d, d_dev d) in
  (id_rewrite cfg env call tag false path u g memory_init o).1.

Definition perform (cfg : config) (env : environment) (oe : owners * list event)
    (a : action) : owners * list event :=
  match a with
  | ActEmit es => (oe.1, oe.2 ++ es)
  | ActRewrite call tag path d =>
      let '(o', es) := rewrite_dentry cfg env call tag path d oe.1 in (o', oe.2 ++ es)
  | ActEnterTile | ActFreeElement => oe
  end.

Definition replay (cfg : config) (env : environment) (acts : list action)
    (oe : owners * list event) : owners * list event :=
  foldl (perform cfg env) oe acts.

(** What an action does to the heap, with the owners it meets. *)
Definition perform_memory (cfg : config) (env : environment) (o : owners) (m : memory)
    (a : action) : memory :=
  match a with
  | ActEmit _ => m
  | ActRewrite call tag path d =>
      let '(u, g) := o (d_ino d, d_dev d) in
      (id_rewrite cfg env call tag (match d_mode d with S_IFDIR => true | _ => false end)
         path u g m o).2
  | ActEnterTile => Memory false (undefined m)
  | ActFreeElement => Memory (names_freed m) true
  end.

Fixpoint replay_memory (cfg : config) (env : environment) (acts : list action)
    (o : owners) (m : memory) : memory :=
  match acts with
  | [] => m
  | a :: rest =>
      replay_memory cfg env rest (perform cfg env (o, []) a).1 (perform_memory cfg env o m a)
  end.


(** The world with other owners and another trace. *)
Definition put_oe (oe : owners * list event) (w : world) : world :=
  World (w_shared w) (w_htab w) (w_clock w) oe.1 oe.2 (w_memory w).

(** The world with other owners, another trace and another heap. *)
Definition put_oem (oe : owners * list event) (m : memory) (w : world) : world :=
  World (w_shared w) (w_htab w) (w_clock w) oe.1 oe.2 m.

Definition is_chown (e : event) : Prop :=
  match e with EvChown _ _ _ _ _ => True | _ => False end.

Global Instance is_chown_dec e : Decision (is_chown e).
Proof. destruct e; simpl; apply _. Defined.

Definition is_stdout (e : event) : Prop :=
  match e with EvStdout _ _ _ _ _ => True | _ => False end.

Global Instance is_stdout_dec e : Decision (is_stdout e).
Proof. destruct e; simpl; apply _. Defined.

(** Regular files with more than one link: the entries the hardlink
    table is consulted for. *)
Definition hardlinked (d : dentry) : Prop := d_mode d = S_IFREG ∧ 1 < d_nlink d.

Global Instance file_kind_eq_dec : EqDecision file_kind.
Proof. solve_decision. Defined.

Global Instance id_dim_eq_dec : EqDecision id_dim.
Proof. solve_decision. Defined.

Global Instance hardlinked_dec d : Decision (hardlinked d).
Proof. unfold hardlinked. apply _. Defined.

(** The (ino, dev) class of a path that names a hardlinked regular file. *)
Definition class_of (env : environment) (path : string) : option (Z * Z) :=
  match fs_lstat env !! path with
  | Some d => if decide (hardlinked d) then Some (d_ino d, d_dev d) else None
  | None => None
  end.

(** The [chown] calls of a trace that change the id [dim] of a file of
    the class [k]. *)
Definition class_chown (env : environment) (k : Z * Z) (dim : id_dim) (e : event) : Prop :=
  match e with
  | EvChown _ dim' path _ _ => dim' = dim ∧ class_of env path = Some k
  | _ => False
  end.

Global Instance class_chown_dec env k dim e : Decision (class_chown env k dim e).
Proof. destruct e; simpl; apply _. Defined.

(** The classes whose rewrite a sequence of actions contains. *)
Fixpoint hl_keys (acts : list action) : list (Z * Z) :=
  match acts with
  | [] => []
  | ActRewrite _ _ _ d :: rest =>
      if decide (hardlinked d) then (d_ino d, d_dev d) :: hl_keys rest else hl_keys rest
  | _ :: rest => hl_keys rest
  end.

(** Well-formed actions: a rewrite is of the entry its path names, and
    the events added beside the rewrites are neither [chown] calls nor lines
    on stdout. *)
Definition action_ok (env : environment) (a : action) : Prop :=
  match a with
  | ActEmit es => Forall (λ e, ¬ is_chown e ∧ ¬ is_stdout e) es
  | ActRewrite _ _ path d => fs_lstat env !! path = Some d
  | ActEnterTile | ActFreeElement => True
  end.

Definition h_ok (ht : htab) : Prop := h_wf ht ∧ NoDup (h_set ht).

(** The id a mapping list gives to a file with id [id]: the new id of the
    first pair whose old id is [id]; -1 keeps the id. *)
Fixpoint new_id (pairs : list (Z * Z)) (id : Z) : Z :=
  match pairs with
  | [] => id
  | (old, new) :: rest =>
      if decide (old = id) then (if decide (new = ID_KEEP) then id else new)
      else new_id rest id
  end.


(** No new id of a mapping list is an old id of the list. *)
Definition no_chain (pairs : list (Z * Z)) : Prop :=
  ∀ old new, (old, new) ∈ pairs → new ∉ pairs.*1.

(** A function on worlds, applied inside the results of [visit_child]
    and [scan_dir]. *)
Definition in_visit (f : world → world) (r : queue_element * queue_anchor * world)
    : queue_element * queue_anchor * world :=
  (r.1.1, r.1.2, f r.2).

Definition in_scan (f : world → world) (r : scan_result) : scan_result :=
  Scan_result (sr_element r) (sr_anchor r) (f (sr_world r))
              (too_many_idle_threads r) (backtodeq r).

(** One id of an owner pair. *)
Definition get_dim (dim : id_dim) (v : Z * Z) : Z :=
  match dim with Uid => v.1 | Gid => v.2 end.

Definition set_dim (dim : id_dim) (v : Z * Z) (x : Z) : Z * Z :=
  match dim with Uid => (x, v.2) | Gid => (v.1, x) end.

(** The uid and gid lists [main] builds from the mapping file. *)
Definition uid_map (args : arguments) : list (Z * Z) :=
  (parseuidlist (id_lines args) ([], [])).1.

Definition gid_map (args : arguments) : list (Z * Z) :=
  (parseuidlist (id_lines args) ([], [])).2.

(** Any [chown] call on a file of the class [k]. *)
Definition class_chown_any (env : environment) (k : Z * Z) (e : event) : Prop :=
  match e with
  | EvChown _ _ path _ _ => class_of env path = Some k
  | _ => False
  end.

Global Instance class_chown_any_dec env k e : Decision (class_chown_any env k e).
Proof. destruct e; simpl; apply _. Defined.

(** The owner pair the mapping lists give to an owner pair. *)
Definition new_owner (cfg : config) (v : Z * Z) : Z * Z :=
  (new_id (begin_uidpair cfg) v.1, new_id (begin_gidpair cfg) v.2).

(** The visits of all workers in the order in which they pass the
    hardlink mutex [thr_nlink]: each visit is of the entry [d_name] of the
    directory a worker is scanning.  The owners, the trace and the table do
    not depend on the state of the heap, which is passed on from visit to
    visit as for one worker. *)
Fixpoint visit_all (cfg : config) (env : environment)
    (visits : list (queue_element * string)) (w : world) : option world :=
  match visits with
  | [] => Some w
  | (w_element, d_name) :: rest =>
      match visit_child cfg env w_element d_name deq_init w with
      | Some (_, _, w') => visit_all cfg env rest w'
      | None => None
      end
  end.

(** A run from the world [w] splits into actions: with any owners, trace
    and heap put into [w], it ends in one same world and status up to the
    owners, the trace and the heap, which are those the actions [acts]
    leave; the hardlink table gains the classes the actions rewrite. *)
Definition run_splits (cfg : config) (env : environment) (w : world)
    (run : world → world * status) : Prop :=
  ∃ acts w0 s,
    Forall (action_ok env) acts ∧
    (∀ oe m, run (put_oem oe m w)
             = (put_oem (replay cfg env acts oe) (replay_memory cfg env acts oe.1 m) w0, s)) ∧
    (h_ok (w_htab w) →
       h_ok (w_htab w0) ∧ h_set (w_htab w0) = h_set (w_htab w) ++ hl_keys acts).

(** ** queue.c at the level of pointers *)

(** The queue functions as they are written: on a chain of
    [queue_element_t] cells linked by [next], under an anchor with
    [first], [last] and [element_counter].  The list model of the queues
    above is what these functions do to the chain. *)
Module QueueC.

(** What a call leaves: a result, [exit (code)] after a message on stderr,
    or undefined behaviour (a NULL or dangling pointer dereferenced, an
    overflow of the [long] counter). *)
Inductive outcome (A : Type) :=
| Ok (a : A)
| Exit (msg : string) (code : Z)
| Undef.
Arguments Ok {A} a.
Arguments Exit {A} msg code.
Arguments Undef {A}.

(** A [queue_element_t] in memory: the fields the list model keeps, and
    the [next] pointer.  A pointer is the address of a cell; NULL is [None]. *)
Record cell := Cell { c_elem : queue_element; c_next : option nat }.

Abbreviation heap := (gmap nat cell).

(** [queue_anchor_t]. *)
Record anchor := Anchor {
  element_counter : Z;
  speed : Q;
  last : option nat;
  first : option nat
}.

(** [p->next = nx]. *)
Definition set_next (h : heap) (p : nat) (nx : option nat) : option heap :=
  match h !! p with
  | Some c => Some (<[p := Cell (c_elem c) nx]> h)
  | None => None
  end.

Definition deq_init : anchor := Anchor 0 0 None None.

(** [deq_put]; the list holds what is printed on stdout. *)
Definition deq_put (verbose : bool) (h : heap) (a : anchor) (new : option nat)
    : outcome (heap * anchor * list string) :=
  match new with
  | Some n =>
      match (if decide (0 < element_counter a)
             then match last a with Some l => set_next h l (Some n) | None => None end
             else Some h) with
      | Some h' =>
          if decide (element_counter a < LONG_MAX) then
            Ok (h',
                Anchor (element_counter a + 1) (speed a) (Some n)
                       (if decide (0 < element_counter a) then first a else Some n),
                [])
          else Undef
      | None => Undef
      end
  | None => Ok (h, a, if verbose then ["INFO: New element = NULL!"] else [])
  end.

(** [deq_push]. *)
Definition deq_push (verbose : bool) (h : heap) (a : anchor) (new : option nat)
    : outcome (heap * anchor * list string) :=
  match new with
  | Some n =>
      match (if decide (0 < element_counter a) then set_next h n (first a) else Some h) with
      | Some h' =>
          if decide (element_counter a < LONG_MAX) then
            Ok (h',
                Anchor (element_counter a + 1) (speed a)
                       (if decide (0 < element_counter a) then last a else Some n)
                       (Some n),
                [])
          else Undef
      | None => Undef
      end
  | None => Ok (h, a, if verbose then ["INFO: New element = NULL!"] else [])
  end.

(** [deq_append (global, local)]: the heap, the new [*global] and the new
    [*local]; a NULL [local] is [None]. *)
Definition deq_append (h : heap) (global : anchor) (local : option anchor)
    : outcome (heap * anchor * option anchor) :=
  match local with
  | Some loc =>
      if decide (0 < element_counter loc) then
        match (if decide (0 < element_counter global)
               then match last global with
                    | Some l => set_next h l (first loc)
                    | None => None
                    end
               else Some h) with
        | Some h' =>
            if decide (element_counter global + element_counter loc ≤ LONG_MAX) then
              Ok (h',
                  Anchor (element_counter global + element_counter loc) (speed global)
                         (last loc)
                         (if decide (0 < element_counter global) then first global
                          else first loc),
                  Some deq_init)
            else Undef
        | None => Undef
        end
      else Ok (h, global, Some deq_init)
  | None => Ok (h, global, None)
  end.

(** [deq_prepend (global, local)]. *)
Definition deq_prepend (h : heap) (global : anchor) (local : option anchor)
    : outcome (heap * anchor * option anchor) :=
  match local with
  | Some loc =>
      if decide (0 < element_counter loc) then
        match (if decide (0 < element_counter global)
               then match last loc with
                    | Some l => set_next h l (first global)
                    | None => None
                    end
               else Some h) with
        | Some h' =>
            if decide (element_counter global + element_counter loc ≤ LONG_MAX) then
              Ok (h',
                  Anchor (element_counter global + element_counter loc) (speed global)
                         (if decide (0 < element_counter global) then last global
                          else last loc)
                         (first loc),
                  Some deq_init)
            else Undef
        | None => Undef
        end
      else Ok (h, global, Some deq_init)
  | None => Ok (h, global, None)
  end.

(** [deq_get]: the heap, the new [*anchor], the pointer returned and what
    is printed on stdout. *)
Definition deq_get (verbose : bool) (h : heap) (anchor_ : option anchor)
    : outcome (heap * anchor * option nat * list string) :=
  match anchor_ with
  | Some a =>
      if decide (0 < element_counter a) then
        match first a with
        | Some p =>
            match h !! p with
            | Some c =>
                Ok (<[p := Cell (c_elem c) None]> h,
                    Anchor (element_counter a - 1) (speed a)
                           (if decide (element_counter a - 1 = 0) then None else last a)
                           (c_next c),
                    Some p, [])
            | None => Undef
            end
        | None => Undef
        end
      else Ok (h, a, None, if verbose then ["INFO: No elements in queue!"] else [])
  | None => Exit "WARNING: No queue at all..." EXIT_FAILURE
  end.

(** The cells [ns], linked in this order from [p]; [q] is the [next] of
    the last one ([p] itself when there is none). *)
Fixpoint lseg (h : heap) (p : option nat) (ns : list nat) (q : option nat) : Prop :=
  match ns with
  | [] => p = q
  | n :: rest => p = Some n ∧ ∃ c, h !! n = Some c ∧ lseg h (c_next c) rest q
  end.

(** The anchor [a] heads the queue of the cells [ns], whose last cell has
    [q] as its [next]: the counter is their number, [first] leads through
    them, [last] is the last one. *)
Definition is_deq_to (h : heap) (a : anchor) (ns : list nat) (q : option nat) : Prop :=
  element_counter a = Z.of_nat (length ns) ∧ NoDup ns ∧
  lseg h (first a) ns q ∧
  (∀ ns' l, ns = ns' ++ [l] → last a = Some l).

(** A queue.  Nothing is said of [first] and [last] of an empty queue, nor
    of the [next] of the last cell: the functions do not keep them NULL. *)
Definition is_deq (h : heap) (a : anchor) (ns : list nat) : Prop :=
  ∃ q, is_deq_to h a ns q.

(** The stronger form the program keeps: the last cell ends the chain,
    and an empty queue has [first] and [last] NULL. *)
Definition is_tidy (h : heap) (a : anchor) (ns : list nat) : Prop :=
  is_deq_to h a ns None ∧ (ns = [] → last a = None).

(** The elements of the cells [ns]. *)
Definition contents (h : heap) (ns : list nat) : list queue_element :=
  omap (λ n, c_elem <$> h !! n) ns.

(** The queue of the list model that the anchor stands for. *)
Definition abstract (h : heap) (a : anchor) (ns : list nat) : queue_anchor :=
  Queue_anchor (speed a) (contents h ns).

End QueueC.

(** ** config.c: the text of the input files *)

(** The value of a [char] (signed, as on the platforms the program is
    built for). *)
Definition char_val (c : Ascii.ascii) : Z :=
  let n := Z.of_N (Ascii.N_of_ascii c) in if decide (n < 128) then n else n - 256.

(** [toupper] in the C locale, which [main] selects. *)
Definition toupper (c : Z) : Z := if decide (97 ≤ c ≤ 122) then c - 32 else c.

(** The loop of [strcmpi] over two strings of one length. *)
Fixpoint strcmpi_loop (s1 s2 : string) : Z :=
  match s1, s2 with
  | String c1 r1, String c2 r2 =>
      if decide (toupper (char_val c1) ≠ toupper (char_val c2))
      then char_val c1 - char_val c2
      else strcmpi_loop r1 r2
  | _, _ => 0
  end.

(** [strcmpi]: -1 for strings of different lengths, else the difference of
    the first two characters that differ after [toupper], else 0. *)
Definition strcmpi (s1 s2 : string) : Z :=
  if decide (String.length s1 ≠ String.length s2) then -1 else strcmpi_loop s1 s2.

(** The characters of a string after [toupper]. *)
Fixpoint upcase (s : string) : list Z :=
  match s with
  | EmptyString => []
  | String c r => toupper (char_val c) :: upcase r
  end.

(** The newline character. *)
Definition NL : Ascii.ascii := Ascii.ascii_of_nat 10.

(** The character [#], which starts a comment line. *)
Definition HASH : Ascii.ascii := Ascii.ascii_of_nat 35.

(** [lbuf[strcspn (lbuf, "\n")] = '\0']: the line up to its first newline. *)
Fixpoint before_newline (lbuf : string) : string :=
  match lbuf with
  | EmptyString => EmptyString
  | String c r => if decide (c = NL) then EmptyString else String c (before_newline r)
  end.

(** What the loops of [parsefilelist] and [parseexfilelist] do with one
    line as [fgets] returns it: the line is passed over when its first
    character is a newline or [#] (or the terminating NUL, which [strchr]
    finds as well); a line of [NAME_MAX] characters or more ends the program
    with [exit (E2BIG)]; any other line is entered up to its newline. *)
Inductive line_use := Skipped | Entered (dirpath : string) | TooLong.

Global Instance line_use_eq_dec : EqDecision line_use.
Proof. solve_decision. Defined.

Definition file_line (NAME_MAX : nat) (lbuf : string) : line_use :=
  match lbuf with
  | EmptyString => Skipped
  | String c _ =>
      if decide (c = NL ∨ c = HASH) then Skipped
      else if decide (String.length lbuf < NAME_MAX)%nat then Entered (before_newline lbuf)
      else TooLong
  end.

(** [parsefilelist] on the lines of the file; [None] is [exit (E2BIG)].
    [parseexfilelist] is the same code on the exclude list. *)
Fixpoint parsefilelist_lines (NAME_MAX : nat) (lines : list string)
    (begin_fs_list : list string) : option (list string) :=
  match lines with
  | [] => Some begin_fs_list
  | lbuf :: rest =>
      match file_line NAME_MAX lbuf with
      | Skipped => parsefilelist_lines NAME_MAX rest begin_fs_list
      | Entered dirpath => parsefilelist_lines NAME_MAX rest (append dirpath begin_fs_list)
      | TooLong => None
      end
  end.

(** The lines that are entered. *)
Definition entered_lines (NAME_MAX : nat) (lines : list string) : list string :=
  omap (λ lbuf, match file_line NAME_MAX lbuf with
                | Entered dirpath => Some dirpath
                | _ => None
                end) lines.

(** ** safe-funcs.c: [mk_esc_seq] *)

(** Characters are [unsigned char] values, 0 to 255; a C string holds
    none that is 0. *)

(** [isprint] in the C locale, which [main] selects. *)
Definition isprint (c : Z) : bool := bool_decide (32 ≤ c ≤ 126).

(** The [switch] of [mk_esc_seq]: the letter of a named escape. *)
Definition named_escape (c : Z) : option Z :=
  if decide (c = 10) then Some 110        (* \n: n *)
  else if decide (c = 9) then Some 116    (* \t: t *)
  else if decide (c = 7) then Some 97     (* \a: a *)
  else if decide (c = 8) then Some 98     (* \b: b *)
  else if decide (c = 13) then Some 114   (* \r: r *)
  else if decide (c = 12) then Some 102   (* \f: f *)
  else if decide (c = 11) then Some 118   (* \v: v *)
  else None.

(** [sprintf (obuf, "%03o", c)]: three octal digits. *)
Definition octal3 (c : Z) : list Z :=
  [48 + c / 64; 48 + (c / 8) `mod` 8; 48 + c `mod` 8].

(** What the body of the loop of [mk_esc_seq] writes for one character
    (it writes it backwards, below [cptr]). *)
Definition esc_char (escchar c : Z) : list Z :=
  if decide (c = 34 ∨ c = escchar) then [escchar; c]
  else if isprint c || (negb (Z.land c 128 =? 0) && negb (Z.land c 96 =? 0)) then [c]
  else
    match named_escape c with
    | Some r => [escchar; r]
    | None => escchar :: octal3 c
    end.

(** The loop of [mk_esc_seq]: it reads the string from its last character
    to its first ([rev_string] is the part not yet read, last character
    first) and writes in front of what it has written. *)
Fixpoint mk_esc_loop (escchar : Z) (rev_string : list Z) (written : list Z) : list Z :=
  match rev_string with
  | [] => written
  | c :: rest => mk_esc_loop escchar rest (esc_char escchar c ++ written)
  end.

(** [mk_esc_seq]: the escaped string, which the function moves to the
    start of its buffer of [4 * len + 1] characters. *)
Definition mk_esc_seq (string_ : list Z) (escchar : Z) : list Z :=
  mk_esc_loop escchar (reverse string_) [].

(** The character of a string. *)
Definition is_char (c : Z) : Prop := 0 < c < 256.

(** ** chuid.c: the thread [statistic] *)

(** [struct statistic_counters]: the counters of one worker, [unsigned
    long]. *)
Record statistic_counters := Statistic_counters {
  filecounter : Z;
  dircounter : Z;
  otherscounter : Z;
  linkcounter : Z
}.

(** The local variables of [statistic] that live across the rounds of its
    loop. *)
Record statistic_locals := Statistic_locals {
  ofilecount : Z;
  odircount : Z;
  olinkcount : Z;
  gfilecount : Z;
  glinkcount : Z;
  gdircount : Z;
  glcount : Z;
  gocount : Z
}.

Definition statistic_start : statistic_locals := Statistic_locals 0 0 0 0 0 0 0 0.

(** The [for] loop over the workers: the sums of the four counters. *)
Definition add_counters (loc : statistic_locals) (c : statistic_counters)
    : statistic_locals :=
  Statistic_locals (ofilecount loc) (odircount loc) (olinkcount loc)
    (u64 (gfilecount loc + filecounter c)) (glinkcount loc)
    (u64 (gdircount loc + dircounter c))
    (u64 (glcount loc + linkcounter c))
    (u64 (gocount loc + otherscounter c)).

(** A line of the table: the numbers printed, the speeds only in
    dual-queue mode. *)
Record statistic_row := Statistic_row {
  row_threads : Z;
  row_busy : Z;
  row_files : Z;
  row_fscanrate : Z;
  row_dscanrate : Z;
  row_lscanrate : Z;
  row_fast : Z * Q;
  row_slow : option (Z * Q)
}.

(** One round of the [while] loop, on the counters and the scheduler state
    it reads: the line it prints and the locals it leaves.  The rates are
    quotients of [unsigned long] values; a zero [interval] is a division by
    zero ([None]). *)
Definition statistic_round (dual_queue_ : bool) (numthr_ interval : Z)
    (stat_counters_ : list statistic_counters) (g : shared) (loc : statistic_locals)
    : option (statistic_row * statistic_locals) :=
  let loc1 := foldl add_counters loc stat_counters_ in
  if decide (interval = 0) then None
  else
    let fscanrate := u64 (gfilecount loc1 - ofilecount loc1) / interval in
    let dscanrate := u64 (gdircount loc1 - odircount loc1) / interval in
    let lscanrate := u64 (glinkcount loc1 - olinkcount loc1) / interval in
    Some (Statistic_row numthr_ (busy_count g) (gfilecount loc1)
            fscanrate dscanrate lscanrate
            (element_counter (fast_anchor g), speed (fast_anchor g))
            (if dual_queue_
             then Some (element_counter (slow_anchor g), speed (slow_anchor g))
             else None),
          Statistic_locals (gfilecount loc1) (gdircount loc1) (glinkcount loc1)
            0 (glinkcount loc1) 0 0 0).

(** The rounds of the loop, one per reading of the counters. *)
Fixpoint statistic (dual_queue_ : bool) (numthr_ interval : Z)
    (readings : list (list statistic_counters * shared)) (loc : statistic_locals)
    : option (list statistic_row) :=
  match readings with
  | [] => Some []
  | (cs, g) :: rest =>
      match statistic_round dual_queue_ numthr_ interval cs g loc with
      | None => None
      | Some (row, loc') =>
          match statistic dual_queue_ numthr_ interval rest loc' with
          | None => None
          | Some rows => Some (row :: rows)
          end
      end
  end.

(** The sum of the file counters of the workers. *)
Definition total_files (cs : list statistic_counters) : Z :=
  foldr (λ c acc, filecounter c + acc) 0 cs.

(** The total of the file counters at the reading [k], as the thread
    holds it. *)
Definition files_read (readings : list (list statistic_counters * shared)) (k : nat) : Z :=
  match readings !! k with
  | Some (cs, _) => u64 (total_files cs)
  | None => 0
  end.

(** The state of the locals at the start of a round. *)
Definition statistic_ready (loc : statistic_locals) : Prop :=
  gfilecount loc = 0 ∧ gdircount loc = 0 ∧ glcount loc = 0 ∧ gocount loc = 0 ∧
  glinkcount loc = 0 ∧ olinkcount loc = 0.

(** ** The entries a run is to visit *)

(** An entry name the [readdir] loop of [process_tile] goes into: not
    [.], not [..], and not a name of the exclude list. *)
Definition included (exclude : list string) (d_name : string) : Prop :=
  d_name ≠ "." ∧ d_name ≠ ".." ∧ d_name ∉ exclude.

(** [below exclude env dir pos path]: the scan of the directory [dir] from
    the stream position [pos] on is to visit [path]: an included entry of
    [dir] at a position from [pos] on, or a path below such an entry that is
    a directory. *)
Inductive below (exclude : list string) (env : environment)
    : string → nat → string → Prop :=
| below_entry dir pos entries i d_name :
    fs_dirs env !! dir = Some entries → entries !! i = Some d_name → (pos ≤ i)%nat →
    included exclude d_name →
    below exclude env dir pos (dir +:+ "/" +:+ d_name)
| below_deep dir pos entries i d_name d path :
    fs_dirs env !! dir = Some entries → entries !! i = Some d_name → (pos ≤ i)%nat →
    included exclude d_name →
    fs_lstat env !! (dir +:+ "/" +:+ d_name) = Some d → d_mode d = S_IFDIR →
    below exclude env (dir +:+ "/" +:+ d_name) 0 path →
    below exclude env dir pos path.

(** The paths in the scope of a run: those below a root that [lstat]
    accepts.  The roots themselves are not in it. *)
Definition in_scope (roots exclude : list string) (env : environment) (path : string)
    : Prop :=
  ∃ root, root ∈ roots ∧ is_Some (fs_lstat env !! root) ∧ below exclude env root 0 path.

(** The directories a run scans: the accepted roots and the directories in
    scope. *)
Definition scope_dir (roots exclude : list string) (env : environment) (dir : string)
    : Prop :=
  (dir ∈ roots ∧ is_Some (fs_lstat env !! dir)) ∨
  (∃ d, in_scope roots exclude env dir ∧ fs_lstat env !! dir = Some d ∧ d_mode d = S_IFDIR).

(** No path that names the inode [k] is refused by [chown]. *)
Definition clean (env : environment) (k : Z * Z) : Prop :=
  ∀ path d, fs_lstat env !! path = Some d → (d_ino d, d_dev d) = k → path ∉ fs_denied env.

(** The run changes owners, and its mapping lists have no chains. *)
Definition rewriting (cfg : config) : Prop :=
  dryrun cfg = false ∧
  NoDup (begin_uidpair cfg).*1 ∧ NoDup (begin_gidpair cfg).*1 ∧
  no_chain (begin_uidpair cfg) ∧ no_chain (begin_gidpair cfg).

(** The directory and stream position of a queue element. *)
Definition pos_of (we : queue_element) : string * nat := (name we, dirpos we).

(** The elements of the two global queues. *)
Definition glob (w : world) : list (string * nat) :=
  pos_of <$> (elems (fast_anchor (w_shared w)) ++ elems (slow_anchor (w_shared w))).

(** The inode of [path] has the owner the mapping lists give to its owner
    [o0] before the run (asked only of inodes that [chown] does not
    refuse). *)
Definition done_path (cfg : config) (env : environment) (o0 o : owners) (path : string)
    : Prop :=
  ∀ d, fs_lstat env !! path = Some d → d_mode d ≠ S_IFOTHER →
       clean env (d_ino d, d_dev d) →
       o (d_ino d, d_dev d) = new_owner cfg (o0 (d_ino d, d_dev d)).

(** The tag the program prints for an entry: FILE for a regular file,
    DIRECTORY for a symbolic link and for a directory. *)
Definition entry_tag (d : dentry) : string :=
  match d_mode d with S_IFREG => "FILE" | _ => "DIRECTORY" end.

(** The lines of a dry run for the entry [path] with the owner [ug]: the
    line of the uid list, then the line of the gid list. *)
Definition dry_lines (cfg : config) (tag path : string) (ug : Z * Z) : list event :=
  report_loop tag path Uid ug.1 (begin_uidpair cfg)
  ++ report_loop tag path Gid ug.2 (begin_gidpair cfg).

(** The lines of the entry [path] are in the trace [es] (asked of regular
    files with one link, of symbolic links and of directories; of the paths
    of a hardlinked file only the first one visited is printed). *)
Definition printed_path (cfg : config) (env : environment) (o0 : owners)
    (es : list event) (path : string) : Prop :=
  ∀ d, fs_lstat env !! path = Some d → d_mode d ≠ S_IFOTHER → ¬ hardlinked d →
       ∀ e, e ∈ dry_lines cfg (entry_tag d) path (o0 (d_ino d, d_dev d)) → e ∈ es.

(** The trace [es'] continues the trace [es] without a line on stdout. *)
Definition quiet_ext (es es' : list event) : Prop :=
  ∃ add, es' = es ++ add ∧ Forall (λ e, ¬ is_stdout e) add.

(** The system call the program uses on an entry: [lchown] on a symbolic
    link, [chown] on anything else. *)
Definition entry_call (d : dentry) : syscall :=
  match d_mode d with S_IFLNK => Lchown | _ => Chown end.

(** The queue elements the visit of [path] adds: [path] itself when it is
    a directory. *)
Definition added (env : environment) (path : string) : list (string * nat) :=
  match fs_lstat env !! path with
  | Some d => if decide (d_mode d = S_IFDIR) then [(path, 0%nat)] else []
  | None => []
  end.

(** The invariant of the traversal, for a world [w] and the pending
    directories [Q] with their stream positions: an owner is changed only in
    the scope of the run; every pending directory is one to scan; and, in a
    run that changes owners with lists free of chains, an inode is untouched
    or has its mapped owner, the inodes of the hardlink table have it, and
    every path in scope either has it or is still to be visited from a
    pending directory.  A line on stdout is a line of a dry run for an entry
    in scope, and in a dry run every path in scope either has its lines in the
    trace or is still to be visited. *)
Record traversal_inv (cfg : config) (env : environment) (o0 : owners)
    (w : world) (Q : list (string * nat)) : Prop := {
  inv_sound : ∀ k, w_owners w k ≠ o0 k →
    ∃ path d, in_scope (begin_fs_list cfg) (begin_exclude_file cfg) env path ∧
              fs_lstat env !! path = Some d ∧ (d_ino d, d_dev d) = k ∧
              (path ∉ fs_denied env) ∧ dryrun cfg = false ∧ d_mode d ≠ S_IFOTHER;
  inv_dirs : ∀ dir pos, ((dir, pos) ∈ Q) →
    scope_dir (begin_fs_list cfg) (begin_exclude_file cfg) env dir;
  inv_mapped : rewriting cfg →
    ∀ k, w_owners w k = o0 k ∨ w_owners w k = new_owner cfg (o0 k);
  inv_table : rewriting cfg →
    h_ok (w_htab w) ∧
    ∀ k, k ∈ h_set (w_htab w) → clean env k → w_owners w k = new_owner cfg (o0 k);
  inv_cover : rewriting cfg →
    ∀ path, in_scope (begin_fs_list cfg) (begin_exclude_file cfg) env path →
      done_path cfg env o0 (w_owners w) path ∨
      ∃ dir pos, ((dir, pos) ∈ Q) ∧ below (begin_exclude_file cfg) env dir pos path;
  inv_lines : ∀ e, e ∈ w_events w → is_stdout e →
    ∃ path d, in_scope (begin_fs_list cfg) (begin_exclude_file cfg) env path ∧
              fs_lstat env !! path = Some d ∧ d_mode d ≠ S_IFOTHER ∧ dryrun cfg = true ∧
              e ∈ dry_lines cfg (entry_tag d) path (o0 (d_ino d, d_dev d));
  inv_printed : dryrun cfg = true →
    ∀ path, in_scope (begin_fs_list cfg) (begin_exclude_file cfg) env path →
      printed_path cfg env o0 (w_events w) path ∨
      ∃ dir pos, ((dir, pos) ∈ Q) ∧ below (begin_exclude_file cfg) env dir pos path
}.

(** ** Part II: theorems *)

(** *** The hash table implements a set of pairs *)

Lemma h_pairs_S n tab e :
  tab !! n = Some e → h_pairs (S n) tab = h_pairs n tab ++ [(ino e, dev e)].
Proof.
  intros He. unfold h_pairs. rewrite (take_S_r _ _ _ He), fmap_app. done.
Qed.

Lemma u32_small z : 0 ≤ z < 2 ^ 32 → u32 z = z.
Proof. intros ?. unfold u32. by apply Z.mod_small. Qed.

Lemma chain_find_last_in m tab i d :
  ∀ n fuel,
    (∀ j e, (j < n)%nat → tab !! j = Some e →
            c_link e = last_in m tab (h_bucket m e) j) →
    (n ≤ length tab)%nat → (n ≤ fuel)%nat →
    chain_find fuel tab (last_in m tab (Z.to_nat (i `mod` m)) n) i d
    = Some (bool_decide ((i, d) ∈ h_pairs n tab)).
Proof.
  induction n as [|n IH]; intros fuel Hl Hn Hf.
  - simpl. by destruct fuel.
  - destruct (lookup_lt_is_Some_2 tab n) as [e He]; [lia|].
    rewrite (h_pairs_S _ _ _ He). simpl. rewrite He.
    assert (IH' : ∀ fuel', (n ≤ fuel')%nat →
       chain_find fuel' tab (last_in m tab (Z.to_nat (i `mod` m)) n) i d
       = Some (bool_decide ((i, d) ∈ h_pairs n tab))).
    { intros fuel' ?. apply IH; [|lia|done]. intros j e' ? ?. apply Hl; [lia|done]. }
    destruct (decide (h_bucket m e = Z.to_nat (i `mod` m))) as [Hb|Hb].
    + destruct fuel as [|fuel]; [lia|]. simpl. rewrite He.
      destruct (decide (ino e = i ∧ dev e = d)) as [[<- <-]|Hne].
      * rewrite bool_decide_eq_true_2; [done|]. apply elem_of_app. right. by apply list_elem_of_singleton.
      * rewrite (Hl n e); [|lia|done]. rewrite Hb, IH'; [|lia].
        f_equal. apply bool_decide_ext. rewrite elem_of_app, list_elem_of_singleton.
        split; [tauto|]. intros [?|Heq]; [done|]. inversion Heq; subst. tauto.
    + rewrite IH'; [|lia].
      f_equal. apply bool_decide_ext. rewrite elem_of_app, list_elem_of_singleton.
      split; [tauto|]. intros [?|Heq]; [done|]. inversion Heq; subst. by destruct Hb.
Qed.

Lemma last_in_lt m tab b n k : last_in m tab b n = Some k → (k < n)%nat.
Proof.
  induction n as [|n IH]; simpl; [done|].
  destruct (tab !! n) as [e|]; [destruct (decide _)|]; intros H;
    try (apply IH in H; lia). inversion H. lia.
Qed.

Lemma last_in_insert_ge m tab b n k e :
  (n ≤ k)%nat → last_in m (<[k := e]> tab) b n = last_in m tab b n.
Proof.
  induction n as [|n IH]; intros Hk; simpl; [done|].
  rewrite list_lookup_insert_ne by lia. rewrite IH by lia. done.
Qed.

(** Inserting a pair that is already stored changes nothing. *)
Lemma h_ins_old ht i d :
  h_wf ht → (i, d) ∈ h_pairs (Z.to_nat (first_free ht)) (het_tab ht) →
  h_ins ht i d = Some (ht, 1).
Proof.
  intros [Hm Hs Hf Ht Hh Hheads Hlinks] Hin. unfold h_ins.
  rewrite decide_False by lia.
  assert (Hb : (Z.to_nat (i `mod` h_mod ht) < Z.to_nat (h_mod ht))%nat).
  { pose proof (Z.mod_pos_bound i (h_mod ht)). lia. }
  rewrite (Hheads _ Hb), chain_find_last_in; [|done|lia|lia].
  by rewrite bool_decide_eq_true_2.
Qed.

(** Inserting a new pair into a table with a free slot. *)
Lemma h_ins_new ht i d :
  h_wf ht → first_free ht < het_tab_size ht →
  (i, d) ∉ h_pairs (Z.to_nat (first_free ht)) (het_tab ht) →
  ∃ ht', h_ins ht i d = Some (ht', 0) ∧ h_wf ht' ∧
    h_mod ht' = h_mod ht ∧ het_tab_size ht' = het_tab_size ht ∧
    first_free ht' = first_free ht + 1 ∧
    (∃ l, het_tab ht' = <[Z.to_nat (first_free ht) := H_ent i d l]> (het_tab ht)).
Proof.
  intros [Hm Hs Hf Ht Hh Hheads Hlinks] Hlt Hnin. unfold h_ins.
  rewrite decide_False by lia.
  set (b := Z.to_nat (i `mod` h_mod ht)).
  assert (Hb : (b < Z.to_nat (h_mod ht))%nat).
  { pose proof (Z.mod_pos_bound i (h_mod ht)). lia. }
  rewrite (Hheads _ Hb). unfold b. rewrite chain_find_last_in; [|done|lia|lia].
  rewrite bool_decide_eq_false_2 by done.
  rewrite decide_True by lia. fold b.
  set (k := Z.to_nat (first_free ht)).
  set (e := H_ent i d (last_in (h_mod ht) (het_tab ht) b k)).
  eexists. split; [done|]. rewrite u32_small by lia.
  split; [|by eauto 10].
  assert (Hk : Z.to_nat (first_free ht + 1) = S k) by lia.
  assert (Hke : <[k:=e]> (het_tab ht) !! k = Some e) by (apply list_lookup_insert_eq; lia).
  constructor; simpl; try lia.
  - rewrite length_insert. lia.
  - rewrite length_insert. lia.
  - intros b' Hb'. rewrite Hk. simpl. rewrite Hke.
    destruct (decide (b = b')) as [<-|Hne].
    + rewrite list_lookup_insert_eq by lia.
      rewrite decide_True; [done|]. unfold h_bucket, e. done.
    + rewrite list_lookup_insert_ne by done.
      rewrite decide_False by (unfold h_bucket, e; simpl; fold b; done).
      rewrite last_in_insert_ge by lia. by apply Hheads.
  - intros j e' Hj He'. rewrite Hk in Hj.
    rewrite last_in_insert_ge by lia.
    destruct (decide (j = k)) as [->|Hne].
    + rewrite Hke in He'. inversion He'; subst e'. done.
    + rewrite list_lookup_insert_ne in He' by done. apply Hlinks; [lia|done].
Qed.

Lemma h_pairs_insert_same n tab k e e' :
  tab !! k = Some e → ino e' = ino e → dev e' = dev e →
  h_pairs n (<[k := e']> tab) = h_pairs n tab.
Proof.
  intros He Hi Hd. unfold h_pairs. rewrite !fmap_take, list_fmap_insert.
  f_equal. apply list_insert_id. rewrite list_lookup_fmap, He. simpl. by rewrite Hi, Hd.
Qed.

Lemma h_pairs_NoDup_le a b tab :
  (a ≤ b)%nat → NoDup (h_pairs b tab) → NoDup (h_pairs a tab).
Proof.
  intros Hab Hnd. unfold h_pairs in *. eapply sublist_NoDup; [exact Hnd|].
  apply fmap_sublist.
  replace a with (a `min` b)%nat by lia. rewrite <- take_take. apply sublist_take.
Qed.

Lemma h_reset_wf ht :
  0 < h_mod ht < 2 ^ 32 → 0 < het_tab_size ht < 2 ^ 32 →
  length (het_tab ht) = Z.to_nat (het_tab_size ht) → h_wf (h_reset ht).
Proof.
  intros Hm Hs Ht. constructor; simpl; try lia.
  - by rewrite length_replicate.
  - intros b Hb. by rewrite lookup_replicate_2.
Qed.

(** The re-insertion loop rebuilds the chains of the pairs already stored. *)
Lemma rehash_ok : ∀ n k ht,
  h_wf ht → first_free ht = Z.of_nat k →
  (k + n ≤ Z.to_nat (het_tab_size ht))%nat →
  NoDup (h_pairs (k + n) (het_tab ht)) →
  ∃ ht', rehash n k ht = Some ht' ∧ h_wf ht' ∧
    h_mod ht' = h_mod ht ∧ het_tab_size ht' = het_tab_size ht ∧
    first_free ht' = Z.of_nat (k + n) ∧
    h_pairs (k + n) (het_tab ht') = h_pairs (k + n) (het_tab ht).
Proof.
  induction n as [|n IH]; intros k ht Hwf Hk Hle Hnd.
  - exists ht. rewrite Nat.add_0_r. by simpl.
  - simpl.
    destruct (lookup_lt_is_Some_2 (het_tab ht) k) as [e He].
    { rewrite (wf_tab _ Hwf). lia. }
    rewrite He.
    assert (Hnew : (ino e, dev e) ∉ h_pairs (Z.to_nat (first_free ht)) (het_tab ht)).
    { rewrite Hk, Nat2Z.id.
      assert (Hnd' : NoDup (h_pairs (S k) (het_tab ht))).
      { eapply h_pairs_NoDup_le; [|exact Hnd]. lia. }
      rewrite (h_pairs_S _ _ _ He) in Hnd'.
      apply NoDup_app in Hnd' as (_ & Hd & _). intros Hin.
      apply (Hd _ Hin). by apply list_elem_of_singleton. }
    destruct (h_ins_new ht (ino e) (dev e) Hwf) as (ht' & -> & Hwf' & Hm' & Hs' & Hf' & l & Ht');
      [lia|done|].
    rewrite Hk, Nat2Z.id in Ht'.
    assert (Hp : ∀ m, h_pairs m (het_tab ht') = h_pairs m (het_tab ht)).
    { intros m. rewrite Ht'. by apply (h_pairs_insert_same _ _ _ e). }
    destruct (IH (S k) ht') as (ht'' & Hr & Hwf'' & Hm'' & Hs'' & Hf'' & Hp'').
    + done.
    + lia.
    + lia.
    + rewrite Hp. by replace (S k + n)%nat with (k + S n)%nat by lia.
    + exists ht''. replace (k + S n)%nat with (S k + n)%nat by lia.
      rewrite Hp'', Hp. split_and!; try done; congruence.
Qed.

(** One call of [h_mins], as long as doubling the sizes does not wrap. *)
Lemma h_mins_spec_gen ht i d :
  h_wf ht → NoDup (h_set ht) →
  (het_tab_size ht ≤ first_free ht →
   u32 (2 * h_mod ht) ≠ 0 ∧ 2 * het_tab_size ht < 2 ^ 32) →
  ∃ ht', h_mins ht i d = Some (ht', if decide ((i, d) ∈ h_set ht) then 1 else 0) ∧
    h_wf ht' ∧ NoDup (h_set ht') ∧
    h_set ht' = (if decide ((i, d) ∈ h_set ht) then h_set ht else h_set ht ++ [(i, d)]) ∧
    (h_mod ht', het_tab_size ht') =
      (if decide (het_tab_size ht ≤ first_free ht)
       then (u32 (2 * h_mod ht), 2 * het_tab_size ht)
       else (h_mod ht, het_tab_size ht)).
Proof.
  intros Hwf Hnd Hwrap.
  assert (Hfin : ∀ ht2, h_wf ht2 → h_set ht2 = h_set ht →
     first_free ht2 < het_tab_size ht2 →
     ∃ ht', h_ins ht2 i d = Some (ht', if decide ((i, d) ∈ h_set ht) then 1 else 0) ∧
       h_wf ht' ∧ NoDup (h_set ht') ∧
       h_set ht' = (if decide ((i, d) ∈ h_set ht) then h_set ht else h_set ht ++ [(i, d)]) ∧
       h_mod ht' = h_mod ht2 ∧ het_tab_size ht' = het_tab_size ht2).
  { intros ht2 Hwf2 Hset2 Hlt. destruct (decide ((i, d) ∈ h_set ht)) as [Hin|Hnin].
    - exists ht2. rewrite h_ins_old; [|done|by rewrite <- Hset2 in Hin].
      rewrite Hset2. done.
    - destruct (h_ins_new ht2 i d Hwf2 Hlt) as (ht' & -> & Hwf' & Hm' & Hs' & Hf' & l & Ht').
      { by rewrite <- Hset2 in Hnin. }
      exists ht'.
      assert (Hset' : h_set ht' = h_set ht ++ [(i, d)]).
      { unfold h_set at 1. rewrite Hf'.
        replace (Z.to_nat (first_free ht2 + 1)) with (S (Z.to_nat (first_free ht2)))
          by (pose proof (wf_free _ Hwf2); lia).
        rewrite (h_pairs_S _ _ (H_ent i d l)).
        - simpl. rewrite Ht'. unfold h_pairs. rewrite take_insert_ge by lia.
          by rewrite <- Hset2.
        - rewrite Ht'. apply list_lookup_insert_eq.
          rewrite (wf_tab _ Hwf2). pose proof (wf_free _ Hwf2). lia. }
      rewrite Hset'. split_and!; try done.
      apply NoDup_app. repeat split; [done| |apply NoDup_singleton].
      intros x Hx ->%list_elem_of_singleton. done. }
  unfold h_mins. destruct (decide (het_tab_size ht ≤ first_free ht)) as [Hfull|Hfree].
  - destruct (Hwrap Hfull) as [Hm2 Hs2].
    pose proof (wf_mod _ Hwf). pose proof (wf_size _ Hwf).
    pose proof (wf_free _ Hwf). pose proof (wf_tab _ Hwf) as Hlen.
    rewrite (u32_small (2 * het_tab_size ht)) by lia. simpl.
    assert (Hmw : 0 < u32 (2 * h_mod ht) < 2 ^ 32).
    { pose proof (Z.mod_pos_bound (2 * h_mod ht) (2 ^ 32)). unfold u32 in *. lia. }
    set (ht1 := Htab (u32 (2 * h_mod ht)) (2 * het_tab_size ht) (first_free ht)
                  (resize (Z.to_nat (2 * het_tab_size ht)) h_ent_fresh (het_tab ht)) (hash ht)).
    assert (Hp1 : ∀ n, (n ≤ Z.to_nat (first_free ht))%nat →
               h_pairs n (het_tab ht1) = h_pairs n (het_tab ht)).
    { intros n Hn. unfold h_pairs, ht1. simpl. rewrite resize_ge by lia.
      rewrite take_app_le by lia. done. }
    destruct (rehash_ok (Z.to_nat (first_free ht)) 0 (h_reset ht1))
      as (ht2 & -> & Hwf2 & Hm2' & Hs2' & Hf2 & Hp2).
    + apply h_reset_wf; simpl; [lia|lia|]. rewrite length_resize. done.
    + done.
    + simpl. lia.
    + change (NoDup (h_pairs (Z.to_nat (first_free ht)) (het_tab ht1))).
      rewrite (Hp1 _ (Nat.le_refl _)). exact Hnd.
    + change (h_pairs (Z.to_nat (first_free ht)) (het_tab ht2)
              = h_pairs (Z.to_nat (first_free ht)) (het_tab ht1)) in Hp2.
      change (first_free ht2 = Z.of_nat (Z.to_nat (first_free ht))) in Hf2.
      change (h_mod ht2 = u32 (2 * h_mod ht)) in Hm2'.
      change (het_tab_size ht2 = 2 * het_tab_size ht) in Hs2'.
      destruct (Hfin ht2 Hwf2) as (ht' & -> & ? & ? & ? & Hm' & Hs').
      * unfold h_set. rewrite Hf2, Nat2Z.id, Hp2. by apply Hp1.
      * lia.
      * exists ht'. split_and!; try done. congruence.
  - destruct (Hfin ht Hwf eq_refl) as (ht' & -> & ? & ? & ? & Hm' & Hs'); [lia|].
    exists ht'. split_and!; try done. congruence.
Qed.

(** One call of [h_mins], as long as doubling the sizes does not wrap. *)
Lemma h_mins_spec ht i d :
  h_wf ht → NoDup (h_set ht) →
  (het_tab_size ht ≤ first_free ht →
   2 * h_mod ht < 2 ^ 32 ∧ 2 * het_tab_size ht < 2 ^ 32) →
  ∃ ht', h_mins ht i d = Some (ht', if decide ((i, d) ∈ h_set ht) then 1 else 0) ∧
    h_wf ht' ∧ NoDup (h_set ht') ∧
    h_set ht' = (if decide ((i, d) ∈ h_set ht) then h_set ht else h_set ht ++ [(i, d)]) ∧
    (h_mod ht', het_tab_size ht') =
      (if decide (het_tab_size ht ≤ first_free ht)
       then (2 * h_mod ht, 2 * het_tab_size ht)
       else (h_mod ht, het_tab_size ht)).
Proof.
  intros Hwf Hnd Hwrap. pose proof (wf_mod _ Hwf).
  destruct (h_mins_spec_gen ht i d Hwf Hnd) as (ht' & ? & ? & ? & ? & Hsz).
  { intros Hfull. destruct (Hwrap Hfull). rewrite u32_small by lia. lia. }
  exists ht'. split_and!; try done.
  destruct (decide (het_tab_size ht ≤ first_free ht)) as [Hfull|]; [|done].
  destruct (Hwrap Hfull). by rewrite u32_small in Hsz by lia.
Qed.

Lemma h_ins_length ht i d ht' r :
  h_ins ht i d = Some (ht', r) → length (het_tab ht') = length (het_tab ht).
Proof.
  unfold h_ins. intros H. repeat (case_match || case_decide); simplify_eq; [done|].
  simpl. by rewrite length_insert.
Qed.

Lemma rehash_out_of_bounds : ∀ n k ht,
  (0 < n)%nat → (length (het_tab ht) < k + n)%nat → rehash n k ht = None.
Proof.
  induction n as [|n IH]; intros k ht Hn Hlen; [lia|]. simpl.
  destruct (het_tab ht !! k) as [e|] eqn:He; [|done].
  pose proof (lookup_lt_Some _ _ _ He).
  destruct (h_ins ht (ino e) (dev e)) as [[ht' r]|] eqn:Hi; [|done].
  apply IH; [lia|]. rewrite (h_ins_length _ _ _ _ _ Hi). lia.
Qed.

(** When a doubling wraps around, the call is undefined: it divides by
    zero or leaves the arena. *)
Lemma h_mins_wrap_undefined ht i d :
  h_wf ht → het_tab_size ht ≤ first_free ht →
  u32 (2 * h_mod ht) = 0 ∨ 2 ^ 32 ≤ 2 * het_tab_size ht →
  h_mins ht i d = None.
Proof.
  intros Hwf Hfull Hwrap. unfold h_mins. rewrite decide_True by done.
  pose proof (wf_size _ Hwf). pose proof (wf_free _ Hwf). pose proof (wf_tab _ Hwf) as Hlen.
  cbn [first_free].
  destruct (decide (2 ^ 32 ≤ 2 * het_tab_size ht)) as [Hbig|Hsmall].
  - rewrite rehash_out_of_bounds; [done|lia|]. simpl. rewrite length_resize.
    unfold u32. replace (2 * het_tab_size ht) with (2 * het_tab_size ht - 2 ^ 32 + 1 * 2 ^ 32) by lia.
    rewrite Z.mod_add by lia. rewrite Z.mod_small by lia. lia.
  - destruct Hwrap as [Hz|?]; [|lia].
    destruct (Z.to_nat (first_free ht)) as [|n] eqn:Hn; [lia|]. simpl.
    destruct ((resize _ _ _) !! 0%nat) as [e|]; [|done].
    unfold h_ins. simpl. rewrite Hz. done.
Qed.

(** A call of [h_mins] that is defined answers as the set does. *)
Lemma h_mins_defined ht i d ht' r :
  h_ok ht → h_mins ht i d = Some (ht', r) →
  h_ok ht' ∧
  ((r = 1 ∧ (i, d) ∈ h_set ht ∧ h_set ht' = h_set ht)
   ∨ (r = 0 ∧ ((i, d) ∉ h_set ht) ∧ h_set ht' = h_set ht ++ [(i, d)])).
Proof.
  intros [Hwf Hnd] Hcall.
  destruct (decide (het_tab_size ht ≤ first_free ht
                    ∧ (u32 (2 * h_mod ht) = 0 ∨ 2 ^ 32 ≤ 2 * het_tab_size ht)))
    as [[Hfull Hwrap]|Hfit].
  { rewrite h_mins_wrap_undefined in Hcall; done. }
  destruct (h_mins_spec_gen ht i d Hwf Hnd) as (ht2 & Hcall2 & Hwf2 & Hnd2 & Hset2 & _).
  { intros Hfull. split; [|lia]. intros Hz. apply Hfit. eauto. }
  rewrite Hcall in Hcall2. simplify_eq. split; [done|].
  destruct (decide ((i, d) ∈ h_set ht)); eauto.
Qed.

Lemma h_set_length ht : h_wf ht → Z.of_nat (length (h_set ht)) = first_free ht.
Proof.
  intros Hwf. unfold h_set, h_pairs. rewrite length_fmap, length_take.
  pose proof (wf_free _ Hwf). pose proof (wf_tab _ Hwf). lia.
Qed.

Lemma h_init_wf m s : 0 < m < 2 ^ 32 → 0 < s < 2 ^ 32 → h_wf (h_init m s).
Proof.
  intros Hm Hs. unfold h_init. apply h_reset_wf; simpl; [done|done|].
  by rewrite length_replicate.
Qed.

Lemma h_init_set m s : h_set (h_init m s) = [].
Proof. done. Qed.

Lemma h_inv_no_wrap m s n seen ht :
  0 < m → 0 < s → h_inv m s (S n) seen ht →
  het_tab_size ht ≤ first_free ht →
  2 * h_mod ht < 2 ^ 32 ∧ 2 * het_tab_size ht < 2 ^ 32.
Proof.
  intros Hm Hs (Hwf & _ & _ & Hr & Hn & Hb) Hfull.
  rewrite <- (h_set_length _ Hwf) in Hfull.
  pose proof (wf_mod _ Hwf). pose proof (wf_size _ Hwf).
  assert (Z.of_nat (length (h_set ht)) < 2 ^ 31) by lia.
  split; [|lia].
  assert (s * h_mod ht < 2 ^ 31 * s) by nia. nia.
Qed.

Lemma h_mins_inv m s n seen ht i d :
  0 < m → 0 < s → h_inv m s (S n) seen ht →
  ∃ ht', h_mins ht i d = Some (ht', if decide ((i, d) ∈ seen) then 1 else 0) ∧
    h_inv m s n ((i, d) :: seen) ht' ∧
    (h_mod ht', het_tab_size ht') =
      (if decide (het_tab_size ht ≤ first_free ht)
       then (2 * h_mod ht, 2 * het_tab_size ht)
       else (h_mod ht, het_tab_size ht)).
Proof.
  intros Hm Hs Hinv.
  pose proof (h_inv_no_wrap _ _ _ _ _ Hm Hs Hinv) as Hwrap.
  destruct Hinv as (Hwf & Hnd & Hseen & Hr & Hn & Hb).
  destruct (h_mins_spec ht i d Hwf Hnd Hwrap) as (ht' & Hcall & Hwf' & Hnd' & Hset' & Hsz).
  exists ht'. split; [|split; [|done]].
  - rewrite Hcall. do 2 f_equal. destruct (decide ((i, d) ∈ h_set ht)) as [Hin|Hnin];
      destruct (decide ((i, d) ∈ seen)) as [Hin'|Hnin']; try done.
    + by apply Hseen in Hin.
    + by apply Hseen in Hin'.
  - assert (Hset_iff : ∀ p, p ∈ h_set ht' ↔ p ∈ (i, d) :: seen).
    { intros p. rewrite Hset', elem_of_cons, <- Hseen.
      destruct (decide ((i, d) ∈ h_set ht)) as [Hin|Hnin].
      - split; [tauto|]. intros [->|?]; done.
      - rewrite elem_of_app, list_elem_of_singleton. tauto. }
    assert (Hlen : (length (h_set ht') ≤ S (length (h_set ht)))%nat).
    { rewrite Hset'. destruct (decide _); [lia|]. rewrite length_app. simpl. lia. }
    assert (Hratio : s * h_mod ht' = m * het_tab_size ht').
    { destruct (decide (het_tab_size ht ≤ first_free ht));
        inversion Hsz as [[Ha Hb']]; rewrite ?Ha, ?Hb'; lia. }
    split_and!; try done; [lia|nia].
Qed.

(** Any sequence of calls answers as the set of earlier pairs does. *)
Lemma h_mins_all_inv m s : 0 < m → 0 < s →
  ∀ l k seen ht, h_inv m s (length l + k) seen ht →
  ∃ ht', h_mins_all ht l = Some (ht', seen_before seen l) ∧
         h_inv m s k (reverse l ++ seen) ht'.
Proof.
  intros Hm Hs. induction l as [|[i d] l IH]; intros k seen ht Hinv.
  - by exists ht.
  - simpl in Hinv. destruct (h_mins_inv _ _ _ _ _ i d Hm Hs Hinv) as (ht' & Hcall & Hinv' & _).
    destruct (IH _ _ _ Hinv') as (ht'' & Hall & Hinv'').
    exists ht''. simpl. rewrite Hcall, Hall. split; [done|].
    by rewrite reverse_cons, <- app_assoc.
Qed.

Lemma h_init_inv m s n : h_calls_fit m s n → h_inv m s n [] (h_init m s).
Proof.
  intros (Hm & Hs & Hn & Hb). unfold h_inv.
  rewrite h_init_set. split_and!.
  - by apply h_init_wf.
  - apply NoDup_nil_2.
  - done.
  - simpl. lia.
  - simpl. lia.
  - simpl. lia.
Qed.

(** C10.  Membership in the hardlink table is preserved across growth.
    For every sequence [l] of [h_mins] calls on a fresh table, whatever its
    initial geometry, the answers are those of the set of earlier pairs
    ([seen_before]), so they do not depend on when the table is resized.
    A further call answers 1 exactly for a pair of [l]; it keeps every stored
    pair, and when it finds the arena full ([first_free >= het_tab_size]) it
    doubles the bucket count and the arena, after which every pair of [l] is
    still reported as present.  [h_calls_fit] bounds the number of calls so
    that the doubled sizes stay within [unsigned int]. *)
Theorem h_mins_membership_across_growth (m1 s1 m2 s2 : Z) (l : list (Z * Z)) (i d : Z) :
  h_calls_fit m1 s1 (length l + 2) → h_calls_fit m2 s2 (length l + 2) →
  ∃ ht1 ht2,
    h_mins_all (h_init m1 s1) l = Some (ht1, seen_before [] l) ∧
    h_mins_all (h_init m2 s2) l = Some (ht2, seen_before [] l) ∧
    (∀ p, p ∈ h_set ht1 ↔ p ∈ l) ∧
    ∃ ht1', h_mins ht1 i d = Some (ht1', if decide ((i, d) ∈ l) then 1 else 0) ∧
      (∀ p, p ∈ h_set ht1 → p ∈ h_set ht1') ∧
      (het_tab_size ht1 ≤ first_free ht1 →
         h_mod ht1' = 2 * h_mod ht1 ∧ het_tab_size ht1' = 2 * het_tab_size ht1) ∧
      (∀ p, p ∈ l → ∃ ht3, h_mins ht1' p.1 p.2 = Some (ht3, 1)).
Proof.
  intros Hfit1 Hfit2.
  assert (Hpos1 : 0 < m1 ∧ 0 < s1) by (unfold h_calls_fit in Hfit1; lia).
  assert (Hpos2 : 0 < m2 ∧ 0 < s2) by (unfold h_calls_fit in Hfit2; lia).
  destruct Hpos1 as [Hm1 Hs1], Hpos2 as [Hm2 Hs2].
  destruct (h_mins_all_inv m1 s1 Hm1 Hs1 l 2 [] (h_init m1 s1)) as (ht1 & Hall1 & Hinv1).
  { by apply h_init_inv. }
  destruct (h_mins_all_inv m2 s2 Hm2 Hs2 l 2 [] (h_init m2 s2)) as (ht2 & Hall2 & _).
  { by apply h_init_inv. }
  exists ht1, ht2. split; [done|]. split; [done|].
  rewrite app_nil_r in Hinv1.
  assert (Hmem : ∀ p, p ∈ h_set ht1 ↔ p ∈ l).
  { intros p. destruct Hinv1 as (_ & _ & -> & _). apply elem_of_reverse. }
  split; [done|].
  destruct (h_mins_inv _ _ _ _ _ i d Hm1 Hs1 Hinv1) as (ht1' & Hcall & Hinv1' & Hsz).
  exists ht1'. split_and!.
  - rewrite Hcall. do 2 f_equal. destruct (decide ((i, d) ∈ reverse l)) as [Hin|Hnin];
      destruct (decide ((i, d) ∈ l)) as [Hin'|Hnin']; try done.
    + exfalso. apply Hnin'. by apply elem_of_reverse.
    + exfalso. apply Hnin. by apply elem_of_reverse.
  - intros p Hp. destruct Hinv1 as (_ & _ & Hs1' & _), Hinv1' as (_ & _ & Hs1'' & _).
    apply Hs1''. right. by apply Hs1'.
  - intros Hfull. rewrite decide_True in Hsz by done. by inversion Hsz.
  - intros [pi pd] Hp.
    destruct (h_mins_inv _ _ _ _ _ pi pd Hm1 Hs1 Hinv1') as (ht3 & Hcall3 & _).
    exists ht3. simpl. rewrite Hcall3. rewrite decide_True; [done|].
    right. by apply elem_of_reverse.
Qed.

Lemma h_mins_membership_across_growth_witness :
  ∃ ht1 ht2,
    h_mins_all (h_init 2 1) [(7, 1); (9, 1)] = Some (ht1, seen_before [] [(7, 1); (9, 1)]) ∧
    h_mins_all (h_init INIT_MODULE INIT_TAB_SIZE) [(7, 1); (9, 1)]
      = Some (ht2, seen_before [] [(7, 1); (9, 1)]) ∧
    (∀ p, p ∈ h_set ht1 ↔ p ∈ [(7, 1); (9, 1)]) ∧
    ∃ ht1', h_mins ht1 7 1 = Some (ht1', if decide ((7, 1) ∈ [(7, 1); (9, 1)]) then 1 else 0) ∧
      (∀ p, p ∈ h_set ht1 → p ∈ h_set ht1') ∧
      (het_tab_size ht1 ≤ first_free ht1 →
         h_mod ht1' = 2 * h_mod ht1 ∧ het_tab_size ht1' = 2 * het_tab_size ht1) ∧
      (∀ p, p ∈ [(7, 1); (9, 1)] → ∃ ht3, h_mins ht1' p.1 p.2 = Some (ht3, 1)).
Proof.
  apply (h_mins_membership_across_growth 2 1 INIT_MODULE INIT_TAB_SIZE [(7, 1); (9, 1)] 7 1);
    unfold h_calls_fit, INIT_MODULE, INIT_TAB_SIZE; simpl; lia.
Defined.

(** The doubling and the answers on a concrete run: a table of one slot
    and two buckets grows twice while three distinct pairs are stored. *)
Example h_mins_all_small :
  (λ r, (h_mod r.1, het_tab_size r.1, first_free r.1, r.2))
    <$> h_mins_all (h_init 2 1) [(7, 1); (9, 1); (7, 1); (7, 2); (9, 1)]
  = Some (8, 4, 3, [0; 0; 1; 0; 1]).
Proof. vm_compute. reflexivity. Qed.
(** *** Lists *)

Lemma filter_none {A} (P : A → Prop) `{∀ x, Decision (P x)} (l : list A) :
  (∀ x, x ∈ l → ¬ P x) → filter P l = [].
Proof.
  induction l as [|x l IH]; intros Hl; [done|].
  rewrite filter_cons, decide_False by (apply Hl; left).
  apply IH. intros y Hy. apply Hl. by right.
Qed.

Lemma filter_all {A} (P : A → Prop) `{∀ x, Decision (P x)} (l : list A) :
  (∀ x, x ∈ l → P x) → filter P l = l.
Proof.
  induction l as [|x l IH]; intros Hl; [done|].
  rewrite filter_cons, decide_True by (apply Hl; left).
  f_equal. apply IH. intros y Hy. apply Hl. by right.
Qed.

Lemma filter_insert_length {A} (P : A → Prop) `{∀ x, Decision (P x)} (l : list A) i x y :
  l !! i = Some y →
  (length (filter P (<[i := x]> l)) + (if decide (P y) then 1 else 0)
   = length (filter P l) + (if decide (P x) then 1 else 0))%nat.
Proof.
  intros Hy. pose proof (lookup_lt_Some _ _ _ Hy) as Hlt.
  rewrite insert_take_drop by done.
  rewrite <- (take_drop_middle l i y Hy) at 3.
  rewrite !filter_app, !filter_cons, !length_app.
  destruct (decide (P x)), (decide (P y)); simpl; lia.
Qed.

Lemma filter_length_le {A} (P : A → Prop) `{∀ x, Decision (P x)} (l : list A) :
  (length (filter P l) ≤ length l)%nat.
Proof.
  induction l as [|a l IH]; [done|]. rewrite filter_cons.
  destruct (decide (P a)); simpl; lia.
Qed.

(** *** Dispatch: the choice of the queue and the credit counter *)

Lemma decay_speeds_credit g :
  fast_nodes_befor_next_slow_node (decay_speeds g) = fast_nodes_befor_next_slow_node g.
Proof. unfold decay_speeds. by repeat case_decide. Qed.

Lemma decay_speeds_elems g :
  elems (fast_anchor (decay_speeds g)) = elems (fast_anchor g) ∧
  elems (slow_anchor (decay_speeds g)) = elems (slow_anchor g).
Proof. unfold decay_speeds. by repeat case_decide. Qed.

Lemma decay_speeds_flags g :
  busy_count (decay_speeds g) = busy_count g ∧
  notfinished (decay_speeds g) = notfinished g.
Proof. unfold decay_speeds. by repeat case_decide. Qed.

Lemma take_dual_slow_eq g qe rest :
  elems (slow_anchor g) = qe :: rest →
  (fast_nodes_befor_next_slow_node g ≤ 0 ∨ elems (fast_anchor g) = []) →
  take_dual g =
    match speed_ratio (speed (fast_anchor g)) (speed (slow_anchor g)) with
    | Some c => Some (Some qe, set_credit c
                        (set_slow (Queue_anchor (speed (slow_anchor g)) rest) g))
    | None => None
    end.
Proof.
  intros Hs Hc. unfold take_dual, deq_get. rewrite Hs.
  destruct (decide (0 < fast_nodes_befor_next_slow_node g)) as [Hpos|Hnpos]; [|done].
  destruct Hc as [?|Hf]; [lia|]. by rewrite Hf.
Qed.

Lemma take_dual_slow g qe rest :
  elems (slow_anchor g) = qe :: rest →
  (fast_nodes_befor_next_slow_node g ≤ 0 ∨ elems (fast_anchor g) = []) →
  took_slow g qe rest (take_element true g).
Proof.
  intros Hs Hc. unfold took_slow, take_element.
  rewrite (take_dual_slow_eq g qe rest Hs Hc).
  destruct (speed_ratio _ _) as [c|]; [|done].
  eexists. split; [done|]. rewrite decay_speeds_credit.
  destruct (decay_speeds_elems
    (set_credit c (set_slow (Queue_anchor (speed (slow_anchor g)) rest) g))) as [-> ->].
  done.
Qed.

(** C3.  The credit rule of dual-queue dispatch.  With a positive credit
    the fast queue is tried first and a take from it decrements the credit;
    the slow queue is tried only when the fast queue is empty.  With credit 0
    the slow queue is tried first and the credit is recomputed exactly when
    the element comes from the slow queue; a fallback take from the fast
    queue leaves the credit at 0. *)
Theorem take_element_credit_rule (g : shared) :
  (0 < fast_nodes_befor_next_slow_node g →
     (∀ qe rest, elems (fast_anchor g) = qe :: rest →
        ∃ g', take_element true g = Some (Some qe, g') ∧
              fast_nodes_befor_next_slow_node g' = fast_nodes_befor_next_slow_node g - 1 ∧
              elems (fast_anchor g') = rest ∧ elems (slow_anchor g') = elems (slow_anchor g)) ∧
     (elems (fast_anchor g) = [] → ∀ qe rest, elems (slow_anchor g) = qe :: rest →
        took_slow g qe rest (take_element true g))) ∧
  (fast_nodes_befor_next_slow_node g = 0 →
     (∀ qe rest, elems (slow_anchor g) = qe :: rest →
        took_slow g qe rest (take_element true g)) ∧
     (elems (slow_anchor g) = [] → ∀ qe rest, elems (fast_anchor g) = qe :: rest →
        ∃ g', take_element true g = Some (Some qe, g') ∧
              fast_nodes_befor_next_slow_node g' = 0 ∧
              elems (fast_anchor g') = rest ∧ elems (slow_anchor g') = [])).
Proof.
  split; intros Hc; split.
  - intros qe rest Hf. unfold take_element, take_dual.
    rewrite decide_True by done. unfold deq_get. rewrite Hf.
    eexists. split; [done|]. rewrite decay_speeds_credit.
    destruct (decay_speeds_elems
      (set_credit (fast_nodes_befor_next_slow_node g - 1)
         (set_fast (Queue_anchor (speed (fast_anchor g)) rest) g))) as [-> ->].
    done.
  - intros Hf qe rest Hs. apply take_dual_slow; [done|by right].
  - intros qe rest Hs. apply take_dual_slow; [done|left; lia].
  - intros Hs qe rest Hf. unfold take_element, take_dual.
    rewrite decide_False by lia. unfold deq_get. rewrite Hs, Hf.
    eexists. split; [done|]. rewrite decay_speeds_credit.
    destruct (decay_speeds_elems
      (set_fast (Queue_anchor (speed (fast_anchor g)) rest) g)) as [-> ->].
    simpl. done.
Qed.

Lemma take_element_credit_rule_witness :
  let e1 := Queue_element "/a" 0 0 "/a" in
  let e2 := Queue_element "/b" 0 0 "/b" in
  let g := Shared (Queue_anchor 4 [e1]) (Queue_anchor 2 [e2]) 2 0 true in
  0 < fast_nodes_befor_next_slow_node g ∧
  ∃ g', take_element true g = Some (Some e1, g') ∧
        fast_nodes_befor_next_slow_node g' = fast_nodes_befor_next_slow_node g - 1 ∧
        elems (fast_anchor g') = [] ∧ elems (slow_anchor g') = elems (slow_anchor g).
Proof.
  intros e1 e2 g. split; [simpl; lia|].
  destruct (take_element_credit_rule g) as [Hpos _].
  destruct Hpos as [Hfast _]; [simpl; lia|].
  apply (Hfast e1 []). reflexivity.
Defined.


(** *** The scan rate at a transfer *)

Lemma Qltb_lt a b : Qltb a b = true ↔ (a < b)%Q.
Proof.
  unfold Qltb. rewrite negb_true_iff. split.
  - intros Hf. apply Qnot_le_lt. intros Hle. apply Qle_bool_iff in Hle. congruence.
  - intros Hab. destruct (Qle_bool b a) eqn:E; [|done].
    apply Qle_bool_iff in E. exfalso. by apply (Qlt_not_le a b).
Qed.


(** With no time elapsed since the dispatch the rate of a transfer is the
    number of directories scanned, not 0. *)
Example scan_rate_zero_elapsed :
  let cfg := Config true false true 4 (9 # 10) [] [] [] ["/a"] in
  let env := Environment ∅ ∅ ∅ (λ _, Timeval 5 0) in
  let loc := Tile_locals 3 None (Timeval 5 0) false in
  let p := Queue_anchor 0 [Queue_element "/a/x" 0 0 "/a"; Queue_element "/a/y" 0 0 "/a"] in
  let w := World (Shared deq_init deq_init 0 1 true) (h_init INIT_MODULE INIT_TAB_SIZE)
                 1 (λ _, (0, 0)) [] memory_init in
  (time_delta (t1 loc) (clock env (w_clock w)) == 0)%Q ∧
  speed (fast_anchor (w_shared (transfer cfg env loc p w).2)) = 3%Q.
Proof. intros cfg env loc p w. split; vm_compute; reflexivity. Qed.
(** *** Termination of the pool: who clears [notfinished] *)

Lemma take_element_flags d g qe g' :
  take_element d g = Some (qe, g') →
  busy_count g' = busy_count g ∧ notfinished g' = notfinished g.
Proof.
  unfold take_element, take_dual, deq_get. intros H.
  destruct d.
  - repeat (case_match || case_decide); simplify_eq;
      match goal with |- context [decay_speeds ?x] =>
        destruct (decay_speeds_flags x) as [-> ->] end; done.
  - repeat case_match; simplify_eq; done.
Qed.

Lemma hand_over_flags d s r p g :
  busy_count (hand_over d s r p g).1 = busy_count g ∧
  notfinished (hand_over d s r p g).1 = notfinished g.
Proof.
  unfold hand_over, deq_prepend, deq_append.
  destruct d, s; repeat (case_match; simplify_eq); done.
Qed.

Lemma scanning_insert p tid s s' :
  p_workers p !! tid = Some s →
  (scanning (Pool (p_shared p) (<[tid := s']> (p_workers p)))
   + (if decide (s = Scanning) then 1 else 0)
   = scanning p + (if decide (s' = Scanning) then 1 else 0))%nat.
Proof.
  intros Hs. unfold scanning. simpl.
  exact (filter_insert_length (λ x, x = Scanning) (p_workers p) tid s' s Hs).
Qed.

Lemma scanning_pos p tid : p_workers p !! tid = Some Scanning → (0 < scanning p)%nat.
Proof.
  intros Hs. pose proof (scanning_insert p tid Scanning Waiting Hs) as H.
  rewrite decide_True in H by done. rewrite decide_False in H by done. lia.
Qed.

Lemma scanning_waiting_lt p tid :
  p_workers p !! tid = Some Waiting → (scanning p < length (p_workers p))%nat.
Proof.
  intros Hs. pose proof (scanning_insert p tid Waiting Scanning Hs) as H.
  rewrite decide_False in H by done. rewrite decide_True in H by done.
  assert (scanning (Pool (p_shared p) (<[tid:=Scanning]> (p_workers p)))
          ≤ length (p_workers p))%nat.
  { unfold scanning. simpl. etrans; [apply filter_length_le|]. by rewrite length_insert. }
  lia.
Qed.

Lemma pool_init_inv roots n : Z.of_nat n < 2 ^ 64 → pool_inv (pool_init roots n).
Proof.
  intros Hn. unfold pool_inv, pool_init, scanning. simpl.
  rewrite length_replicate. split; [done|]. split; [|done].
  assert (Hz : filter (λ s, s = Scanning) (replicate n Waiting) = []).
  { apply filter_none. intros x [-> _]%elem_of_replicate. done. }
  by rewrite Hz.
Qed.




Lemma pool_run_app d s tr1 tr2 p :
  pool_run d s (tr1 ++ tr2) p =
  match pool_run d s tr1 p with Some p' => pool_run d s tr2 p' | None => None end.
Proof.
  revert p. induction tr1 as [|l tr1 IH]; intros p; simpl; [done|].
  destruct (pool_step d s l p); [apply IH|done].
Qed.





(** *** The speed of the slow queue *)

(** The rate of a transfer is positive once a directory was counted. *)
Lemma scan_rate_pos t1 t2 ds : 0 < ds → (0 < scan_rate t1 t2 ds)%Q.
Proof.
  intros Hds. assert (Hq : (0 < inject_Z ds)%Q).
  { change 0%Q with (inject_Z 0). by rewrite <- Zlt_Qlt. }
  unfold scan_rate. destruct (Qltb 0 (time_delta t1 t2)) eqn:E; [|done].
  apply Qltb_lt in E. apply Qlt_shift_div_l; [done|]. by rewrite Qmult_0_l.
Qed.

Lemma decay_speeds_slow g :
  elems (slow_anchor (decay_speeds g)) = elems (slow_anchor g) ∧
  (elems (slow_anchor g) ≠ [] →
   speed (slow_anchor (decay_speeds g)) = speed (slow_anchor g)).
Proof.
  unfold decay_speeds, element_counter.
  repeat case_decide; simpl; (split; [done|]); intros Hne; try done;
    destruct (elems (slow_anchor g)); simpl in *; done || lia.
Qed.

Lemma take_element_slow_speed d g qe g' :
  take_element d g = Some (qe, g') → slow_speed_pos g → slow_speed_pos g'.
Proof.
  unfold slow_speed_pos, take_element. intros Htake Hpos.
  assert (Hkeep : ∀ g1, speed (slow_anchor g1) = speed (slow_anchor g) →
            (elems (slow_anchor g1) ≠ [] → elems (slow_anchor g) ≠ []) →
            elems (slow_anchor (decay_speeds g1)) ≠ [] →
            (0 < speed (slow_anchor (decay_speeds g1)))%Q).
  { intros g1 Hsp Hel Hne. destruct (decay_speeds_slow g1) as [He Hs].
    rewrite He in Hne. rewrite (Hs Hne), Hsp. by apply Hpos, Hel. }
  destruct d.
  - unfold take_dual, deq_get in Htake.
    repeat (case_match || case_decide); simplify_eq; apply Hkeep; simpl; try done;
      intros _; congruence.
  - unfold deq_get in Htake. repeat case_match; simplify_eq; simpl; done.
Qed.

Lemma hand_over_slow_speed d s r p g :
  (d = true → (0 < r)%Q) → slow_speed_pos g → slow_speed_pos (hand_over d s r p g).1.
Proof.
  unfold slow_speed_pos, hand_over, deq_prepend, deq_append. intros Hr Hpos.
  destruct d; [specialize (Hr eq_refl)|];
    destruct s; repeat (case_match; simplify_eq); simpl; try done;
    case_decide; simpl; try done.
Qed.




(** *** The speed of the slow queue in the run of a worker *)

Section SlowSpeed.
Context (cfg : config) (env : environment).

Lemma rewrite_entry_shared call tag dir path sb ht w :
  w_shared (rewrite_entry cfg env call tag dir path sb ht w) = w_shared w.
Proof.
  unfold rewrite_entry. by destruct (id_rewrite _ _ _ _ _ _ _ _ _ _) as [[? ?] ?].
Qed.

Lemma visit_child_shared we d_name pa w r :
  visit_child cfg env we d_name pa w = Some r → w_shared r.2 = w_shared w.
Proof.
  unfold visit_child. intros Hv.
  destruct (lstat env (w_owners w) _) as [sb|]; [|by simplify_eq].
  destruct (st_mode sb).
  - destruct (if decide (1 < st_nlink sb) then _ else _) as [[ht known]|]; [|done].
    case_decide; simplify_eq; simpl; [apply rewrite_entry_shared|done].
  - simplify_eq. apply rewrite_entry_shared.
  - simplify_eq. apply rewrite_entry_shared.
  - by simplify_eq.
Qed.

Lemma scan_dir_shared entries : ∀ pos we pa w r,
  scan_dir cfg env entries pos we pa w = Some r → w_shared (sr_world r) = w_shared w.
Proof.
  induction entries as [|d_name rest IH]; intros pos we pa w r Hs; simpl in Hs.
  { by simplify_eq. }
  case_decide; [by eapply IH|]. case_decide; [by eapply IH|].
  destruct (visit_child cfg env we d_name pa w) as [[[we' pa'] w']|] eqn:Hv; [|done].
  apply visit_child_shared in Hv. simpl in Hv.
  destruct (too_few_busy cfg (w_shared w')).
  - destruct rest; by simplify_eq.
  - rewrite <- Hv. by eapply IH.
Qed.

Lemma transfer_slow_speed loc pa w :
  (dual_queue cfg = true → 0 < directories_scanned loc) →
  slow_speed_pos (w_shared w) →
  slow_speed_pos (w_shared (transfer cfg env loc pa w).2) ∧
  directories_scanned (transfer cfg env loc pa w).1.1 = 0.
Proof.
  intros Hds Hpos. unfold transfer.
  destruct (if dual_queue cfg then deq_get pa else (first_deq_element loc, pa)) as [first p1].
  change (w_shared (emit _ (tick w))) with (w_shared w).
  pose proof (hand_over_slow_speed (dual_queue cfg) (stack cfg)
                (scan_rate (t1 loc) (clock env (w_clock w)) (directories_scanned loc))
                p1 (w_shared w)) as Hh.
  destruct (hand_over _ _ _ p1 (w_shared w)) as [g p2]. simpl. split; [|done].
  apply Hh; [|done]. intros Hd. by apply scan_rate_pos, Hds.
Qed.

(** The loop of [process_tile] hands over positive rates only. *)
Lemma tile_loop_slow_speed fuel : ∀ loc pa w,
  0 ≤ directories_scanned loc → slow_speed_pos (w_shared w) →
  slow_speed_pos (w_shared (tile_loop fuel cfg env loc pa w).1).
Proof.
  assert (Hfree : ∀ loc w, slow_speed_pos (w_shared w) →
                    slow_speed_pos (w_shared (free_w_element loc w))).
  { intros loc w. unfold free_w_element. by destruct (l_backtodeq loc). }
  induction fuel as [|fuel IH]; intros loc pa w Hds Hpos; simpl.
  { case_decide; [done|by apply Hfree]. }
  case_decide; [|by apply Hfree].
  destruct (deq_get pa) as [[we|] p1]; [|done].
  set (loc1 := Tile_locals _ _ _ _).
  assert (Hds1 : 0 ≤ directories_scanned loc1) by (simpl; destruct (dual_queue cfg); lia).
  destruct (fs_dirs env !! name we) as [entries|]; [|by apply IH].
  destruct (scan_dir cfg env _ _ we p1 w) as [r|] eqn:Hs; [|done].
  apply scan_dir_shared in Hs.
  set (loc1' := Tile_locals _ _ _ _).
  destruct (too_many_idle_threads r && _).
  - destruct (transfer_slow_speed loc1' (sr_anchor r) (sr_world r)) as [Ht Hz].
    { intros Hd. simpl. rewrite Hd. lia. }
    { by rewrite Hs. }
    destruct (transfer cfg env loc1' (sr_anchor r) (sr_world r)) as [[loc2 p2] w2].
    simpl in Ht, Hz. apply IH; [lia|done].
  - apply IH; [done|]. by rewrite Hs.
Qed.

(** In the run of a worker, the slow queue has a positive speed whenever
    it holds an element. *)
Lemma handle_subtree_slow_speed fuel : ∀ w,
  slow_speed_pos (w_shared w) →
  slow_speed_pos (w_shared (handle_subtree fuel cfg env w).1).
Proof.
  induction fuel as [|fuel IH]; intros w Hpos; simpl.
  { by destruct (notfinished (w_shared w)). }
  destruct (notfinished (w_shared w)); [|done].
  case_decide; [done|].
  destruct (take_element (dual_queue cfg) (w_shared w)) as [[[qe|] g']|] eqn:Ht; [| |done].
  - pose proof (take_element_slow_speed _ _ _ _ Ht Hpos) as Hpos'.
    pose proof (tile_loop_slow_speed fuel
                  (Tile_locals 0 None (clock env (w_clock (set_shared (busy_incr g') w))) false)
                  (deq_push deq_init (Some qe))
                  (set_memory (Memory false (undefined (w_memory (set_shared (busy_incr g') w))))
                     (tick (set_shared (busy_incr g') w)))) as Hp.
    unfold process_tile.
    destruct (tile_loop _ _ _ _ _ _) as [w1 s]. simpl in Hp.
    specialize (Hp ltac:(lia) Hpos').
    destruct s; try done.
    destruct (release (w_shared w1)) as [g1 b] eqn:Hrel.
    apply IH. simpl. unfold release in Hrel. by case_decide; simplify_eq.
  - apply IH. simpl. exact (take_element_slow_speed _ _ _ _ Ht Hpos).
Qed.

End SlowSpeed.

(** In the run of [main] the division of the dispatch never meets a zero
    divisor: the slow queue has a positive speed whenever it holds an
    element. *)
Lemma chuid_main_slow_speed fuel args max_openfiles env o :
  slow_speed_pos (w_shared (chuid_main fuel args max_openfiles env o).1).
Proof.
  assert (Hstop : ∀ es, slow_speed_pos (w_shared (stopped o es).1)) by by intros es [].
  unfold chuid_main.
  destruct (match arg_t args with Some n => option_t max_openfiles n | None => Some 20 end)
    as [numthr_|]; [|apply Hstop].
  destruct (begin_fs_list (config_of args numthr_)) as [|r0 roots] eqn:Hroots; [apply Hstop|].
  destruct (seed_roots env o (r0 :: roots) deq_init) as [fast es].
  destruct (elems fast) as [|q0 qs]; [apply Hstop|].
  set (w0 := World _ _ _ _ _ _).
  assert (Hw0 : slow_speed_pos (w_shared w0)) by by intros [].
  pose proof (handle_subtree_slow_speed (config_of args numthr_) env fuel w0 Hw0) as Hh.
  unfold main_exit. case_decide.
  - destruct (handle_subtree fuel (config_of args numthr_) env w0) as [w1 s]. simpl in *.
    destruct (undefined (w_memory w1)); [done|]. by destruct s.
  - done.
Qed.
(** *** [main]: the thread count and the roots *)

(** C8, the code at the failing input: with 100 descriptors allowed, a
    request for 200 threads is accepted unchanged, because
    [max_openfiles - numthr] wraps around in [size_t] and is not below
    [OPENFILES_OFFSET]; the claimed bound [N + 5 <= max_open_fds] fails. *)
Theorem option_t_not_capped :
  option_t 100 200 = Some 200 ∧ ¬ (200 + OPENFILES_OFFSET ≤ 100).
Proof. split; [vm_compute; reflexivity|unfold OPENFILES_OFFSET; lia]. Qed.

(** The cap works when the request does not exceed the limit. *)
Lemma option_t_capped_below (max_openfiles n : Z) :
  OPENFILES_OFFSET ≤ max_openfiles < 2 ^ 32 → 0 ≤ n ≤ max_openfiles →
  ∀ n', option_t max_openfiles n = Some n' →
  n' + OPENFILES_OFFSET ≤ max_openfiles ∧
  (max_openfiles - n < OPENFILES_OFFSET → n' = max_openfiles - OPENFILES_OFFSET).
Proof.
  unfold option_t, OPENFILES_OFFSET, PTHREAD_THREADS_MAX, u64, u32.
  intros Hm Hn n' H.
  rewrite (Z.mod_small (max_openfiles - n)) in H by lia.
  rewrite (Z.mod_small (max_openfiles - 5)) in H by lia.
  repeat case_decide; simplify_eq; lia.
Qed.

Example option_t_capped : option_t 100 97 = Some 95.
Proof. vm_compute. reflexivity. Qed.

Lemma lstat_is_Some env o path : is_Some (lstat env o path) ↔ is_Some (fs_lstat env !! path).
Proof.
  unfold lstat. destruct (fs_lstat env !! path) as [d|].
  - destruct (o (d_ino d, d_dev d)). split; eauto.
  - done.
Qed.

Lemma seed_roots_spec env o roots : ∀ fast,
  seed_roots env o roots fast =
  (Queue_anchor (speed fast)
     (elems fast ++ ((λ r, Queue_element r 0 0 r)
                      <$> filter (λ r, is_Some (lstat env o r)) roots)),
   (λ r, EvLog WARNING "couldn't stat" (Some r))
     <$> filter (λ r, ¬ is_Some (lstat env o r)) roots).
Proof.
  induction roots as [|r roots IH]; intros fast; simpl.
  - rewrite app_nil_r. by destruct fast.
  - rewrite !filter_cons. destruct (lstat env o r) as [sb|] eqn:E.
    + rewrite decide_True by eauto. rewrite decide_False by (intros H; apply H; eauto).
      rewrite IH. simpl. by rewrite <- app_assoc.
    + rewrite decide_False by (by intros [? ?]).
      rewrite decide_True by (by intros [? ?]).
      rewrite IH. done.
Qed.

(** X18.  The case ['t'] of the option loop in full, for a limit
    [max_openfiles] in [unsigned int] and a request [n] in [size_t]: a
    request above [PTHREAD_THREADS_MAX] ends the program; the count is
    replaced by [max_openfiles - OPENFILES_OFFSET] exactly when
    [n <= max_openfiles < n + OPENFILES_OFFSET]; otherwise it is kept.  So
    five descriptors stay free when the request does not exceed a limit of
    at least five, and with a limit below five a request within the limit
    becomes a count of more than four thousand million, by the wrap-around
    of the [unsigned int] subtraction. *)
Theorem option_t_cases (max_openfiles n : Z) :
  0 ≤ max_openfiles < 2 ^ 32 → 0 ≤ n < 2 ^ 64 →
  option_t max_openfiles n
  = (if decide (PTHREAD_THREADS_MAX < n) then None
     else if decide (n ≤ max_openfiles < n + OPENFILES_OFFSET)
          then Some (u32 (max_openfiles - OPENFILES_OFFSET))
          else Some n) ∧
  (n ≤ PTHREAD_THREADS_MAX → n ≤ max_openfiles → OPENFILES_OFFSET ≤ max_openfiles →
     ∃ n', option_t max_openfiles n = Some n' ∧ n' ≤ n ∧
           n' + OPENFILES_OFFSET ≤ max_openfiles) ∧
  (n ≤ max_openfiles → max_openfiles < OPENFILES_OFFSET →
     option_t max_openfiles n = Some (2 ^ 32 + max_openfiles - OPENFILES_OFFSET)).
Proof.
  intros Hm Hn.
  assert (Hu64 : u64 (max_openfiles - n)
                 = if decide (n ≤ max_openfiles) then max_openfiles - n
                   else 2 ^ 64 + max_openfiles - n).
  { unfold u64. case_decide.
    - apply Z.mod_small. lia.
    - symmetry. apply (Z.mod_unique _ _ (-1)); lia. }
  assert (Hcases : option_t max_openfiles n
    = (if decide (PTHREAD_THREADS_MAX < n) then None
       else if decide (n ≤ max_openfiles < n + OPENFILES_OFFSET)
            then Some (u32 (max_openfiles - OPENFILES_OFFSET))
            else Some n)).
  { unfold option_t. rewrite Hu64.
    unfold OPENFILES_OFFSET, PTHREAD_THREADS_MAX in *.
    repeat case_decide; try done; lia. }
  split; [done|]. rewrite Hcases. unfold OPENFILES_OFFSET, PTHREAD_THREADS_MAX, u32 in *.
  split.
  - intros H1 H2 H3. rewrite decide_False by lia. clear Hu64 Hcases.
    destruct (decide (n ≤ max_openfiles < n + 5)).
    + eexists. split; [done|]. rewrite Z.mod_small by lia. lia.
    + eexists. split; [done|]. lia.
  - intros H1 H2. rewrite decide_False by lia. rewrite decide_True by lia.
    f_equal. symmetry. apply (Z.mod_unique _ _ (-1)); lia.
Qed.

Lemma option_t_cases_witness :
  option_t 100 97 = Some 95 ∧ option_t 3 2 = Some 4294967294 ∧
  option_t 100 300 = None.
Proof.
  destruct (option_t_cases 100 97) as (H1 & _); [lia..|].
  destruct (option_t_cases 3 2) as (_ & _ & H2); [lia..|].
  destruct (option_t_cases 100 300) as (H3 & _); [lia..|].
  split_and!.
  - rewrite H1. by vm_compute.
  - rewrite H2; [by vm_compute|lia|unfold OPENFILES_OFFSET; lia].
  - rewrite H3. by vm_compute.
Defined.
(** *** A run is a replay of actions *)

Section RunAsReplay.
Context (cfg : config) (env : environment).

Lemma replay_app a1 a2 oe :
  replay cfg env (a1 ++ a2) oe = replay cfg env a2 (replay cfg env a1 oe).
Proof. unfold replay. by rewrite foldl_app. Qed.

Lemma perform_owners oe es a :
  (perform cfg env (oe.1, es) a).1 = (perform cfg env oe a).1.
Proof.
  destruct a as [es1|call tag path d| |]; simpl; try done.
  by destruct (rewrite_dentry _ _ _ _ _ _ _).
Qed.

Lemma replay_memory_cons a acts oe m :
  replay_memory cfg env (a :: acts) oe.1 m
  = replay_memory cfg env acts (perform cfg env oe a).1 (perform_memory cfg env oe.1 m a).
Proof. simpl. by rewrite (perform_owners oe []). Qed.

Lemma replay_memory_app a1 : ∀ a2 oe m,
  replay_memory cfg env (a1 ++ a2) oe.1 m
  = replay_memory cfg env a2 (replay cfg env a1 oe).1 (replay_memory cfg env a1 oe.1 m).
Proof.
  induction a1 as [|a a1 IH]; intros a2 oe m; [done|].
  rewrite <- app_comm_cons, !replay_memory_cons. apply IH.
Qed.

Lemma hl_keys_app a1 a2 : hl_keys (a1 ++ a2) = hl_keys a1 ++ hl_keys a2.
Proof.
  induction a1 as [|[es|call tag path d| |] a1 IH]; simpl; try done.
  case_decide; simpl; by rewrite IH.
Qed.

Lemma put_oem_emit es oe m w :
  emit es (put_oem oe m w)
  = put_oem (replay cfg env [ActEmit es] oe) (replay_memory cfg env [ActEmit es] oe.1 m) w.
Proof. done. Qed.

Lemma action_ok_emit_log sev msg path : action_ok env (ActEmit [EvLog sev msg path]).
Proof. simpl. repeat constructor; by intros []. Qed.

(** A run that stops at once performs no action. *)
Lemma run_splits_stop w s : run_splits cfg env w (λ w', (w', s)).
Proof.
  exists [], w, s. split; [done|]. split; [done|].
  intros Hok. simpl. by rewrite app_nil_r.
Qed.

Ltac stop_run :=
  lazymatch goal with
  | |- ∃ acts w0 s0, _ ∧ (∀ oe m, (put_oem oe m ?w, ?s) = _) ∧ _ =>
      exact (run_splits_stop w s)
  end.

(** The owners and the events of the loops do not depend on the heap. *)
Lemma chown_loop_heap call path dim frees id pairs : ∀ m o,
  (chown_loop env call path dim frees id pairs m o).1
  = (chown_loop env call path dim false id pairs memory_init o).1.
Proof.
  induction pairs as [|[old new] pairs IH]; intros m o; simpl; [done|].
  case_decide; [|apply IH].
  destruct (chown_dim env dim path new o) as [[] o']; [done|].
  specialize (IH (if frees then Memory (names_freed m) (undefined m || names_freed m) else m) o').
  destruct (chown_loop env call path dim frees id pairs _ o') as [[o1 es1] m1].
  destruct (chown_loop env call path dim false id pairs memory_init o') as [[o2 es2] m2].
  simpl in *. by simplify_eq.
Qed.

Lemma id_rewrite_heap call tag dir path u g m o :
  (id_rewrite cfg env call tag dir path u g m o).1
  = (id_rewrite cfg env call tag false path u g memory_init o).1.
Proof.
  unfold id_rewrite. destruct (dryrun cfg); [done|].
  pose proof (chown_loop_heap call path Uid dir u (begin_uidpair cfg) m o) as H1.
  destruct (chown_loop env call path Uid dir u (begin_uidpair cfg) m o) as [[o1 es1] m1].
  destruct (chown_loop env call path Uid false u (begin_uidpair cfg) memory_init o)
    as [[o1' es1'] m1'].
  simpl in H1. simplify_eq.
  pose proof (chown_loop_heap call path Gid false g (begin_gidpair cfg) m1 o1') as H2.
  destruct (chown_loop env call path Gid false g (begin_gidpair cfg) m1 o1') as [[o2 es2] m2].
  destruct (chown_loop env call path Gid false g (begin_gidpair cfg) m1' o1')
    as [[o2' es2'] m2'] eqn:E2.
  pose proof (chown_loop_heap call path Gid false g (begin_gidpair cfg) m1' o1') as H3.
  rewrite E2 in H3.
  destruct (chown_loop env call path Gid false g (begin_gidpair cfg) memory_init o1')
    as [[o3 es3] m3].
  simpl in *. by simplify_eq.
Qed.

(** The visit of one entry. *)
Lemma visit_child_split we d_name pa w :
  ∃ acts r0,
    Forall (action_ok env) acts ∧
    (∀ oe m, visit_child cfg env we d_name pa (put_oem oe m w)
           = in_visit (put_oem (replay cfg env acts oe) (replay_memory cfg env acts oe.1 m)) <$> r0) ∧
    (h_ok (w_htab w) → ∀ r, r0 = Some r →
       h_ok (w_htab r.2) ∧ h_set (w_htab r.2) = h_set (w_htab w) ++ hl_keys acts).
Proof.
  unfold visit_child, lstat. simpl.
  set (path := name we +:+ "/" +:+ d_name).
  destruct (fs_lstat env !! path) as [d|] eqn:Hd.
  2:{ exists [ActEmit [EvLog WARNING "couldn't stat" (Some path)]], (Some (we, pa, w)).
      split; [repeat constructor; by intros []|]. split; [done|].
      intros Hok r [= <-]. simpl. by rewrite app_nil_r. }
  assert (Hrw : ∀ call tag dir ht oe m u g, oe.1 (d_ino d, d_dev d) = (u, g) →
     dir = match d_mode d with S_IFDIR => true | _ => false end →
     rewrite_entry cfg env call tag dir path
       (Stat (d_mode d) (d_nlink d) (d_ino d) (d_dev d) u g) ht (put_oem oe m w)
    = put_oem (replay cfg env [ActRewrite call tag path d] oe)
              (replay_memory cfg env [ActRewrite call tag path d] oe.1 m)
              (World (w_shared w) ht (w_clock w) (w_owners w) (w_events w) (w_memory w))).
  { intros call tag dir ht [o ev] m u g Ho ->.
    unfold rewrite_entry, replay, put_oem. simpl in *. unfold rewrite_dentry.
    rewrite Ho.
    rewrite <- (id_rewrite_heap call tag
                  (match d_mode d with S_IFDIR => true | _ => false end) path u g m o).
    by destruct (id_rewrite _ _ _ _ _ _ _ _ _ _) as [[? ?] ?]. }
  destruct (d_mode d) eqn:Hm.
  - (* regular file *)
    destruct (decide (1 < d_nlink d)) as [Hn|Hn].
    + destruct (h_mins (w_htab w) (d_ino d) (d_dev d)) as [[ht known]|] eqn:Hh.
      * destruct (decide (d_nlink d = 1 ∨ known = 0)) as [Hk|Hk].
        -- exists [ActRewrite Chown "FILE" path d],
             (Some (we, pa, World (w_shared w) ht (w_clock w) (w_owners w) (w_events w) (w_memory w))).
           split; [by repeat constructor|]. split.
           ++ intros oe m. destruct (oe.1 (d_ino d, d_dev d)) as [u g] eqn:Ho.
        specialize (Hrw Chown "FILE" false ht oe m u g Ho). simpl.
              rewrite decide_True by done. rewrite Hh.
              rewrite decide_True by done. by rewrite Hrw.
           ++ intros Hok r [= <-]. simpl.
              destruct (h_mins_defined _ _ _ _ _ Hok Hh) as [Hok' [(? & _)|(_ & _ & ->)]]; [lia|].
              split; [done|]. rewrite decide_True; [done|]. by split.
        -- exists [],
             (Some (we, pa, World (w_shared w) ht (w_clock w) (w_owners w) (w_events w) (w_memory w))).
           split; [done|]. split.
           ++ intros oe m. destruct (oe.1 (d_ino d, d_dev d)) as [u g]. simpl.
              rewrite decide_True by done. rewrite Hh.
              rewrite decide_False by done. done.
           ++ intros Hok r [= <-]. simpl.
              destruct (h_mins_defined _ _ _ _ _ Hok Hh) as [Hok' [(_ & _ & ->)|(? & _)]]; [|tauto].
              by rewrite app_nil_r.
      * exists [], None. split; [done|]. split; [|done].
        intros oe m. destruct (oe.1 (d_ino d, d_dev d)) as [u g]. simpl.
        rewrite decide_True by done. by rewrite Hh.
    + exists [ActRewrite Chown "FILE" path d],
        (Some (we, pa, World (w_shared w) (w_htab w) (w_clock w) (w_owners w) (w_events w) (w_memory w))).
      split; [by repeat constructor|]. split.
      * intros oe m. destruct (oe.1 (d_ino d, d_dev d)) as [u g] eqn:Ho.
        specialize (Hrw Chown "FILE" false (w_htab w) oe m u g Ho). simpl.
        rewrite decide_False by done.
        rewrite decide_True by (by right). by rewrite Hrw.
      * intros Hok r [= <-]. simpl. split; [done|].
        rewrite decide_False; [by rewrite app_nil_r|]. intros [_ ?]. done.
  - (* symbolic link *)
    exists [ActRewrite Lchown "DIRECTORY" path d],
      (Some (we, pa, World (w_shared w) (w_htab w) (w_clock w) (w_owners w) (w_events w) (w_memory w))).
    split; [by repeat constructor|]. split.
    + intros oe m. destruct (oe.1 (d_ino d, d_dev d)) as [u g] eqn:Ho.
        specialize (Hrw Lchown "DIRECTORY" false (w_htab w) oe m u g Ho). simpl. by rewrite Hrw.
    + intros Hok r [= <-]. simpl. split; [done|].
      rewrite decide_False; [by rewrite app_nil_r|]. intros [? _]. congruence.
  - (* directory *)
    exists [ActRewrite Chown "DIRECTORY" path d],
      (Some (Queue_element (name we) (dirpos we) (directsubdirs we + 1) (fs we),
             (if stack cfg then deq_push pa (Some (Queue_element path 0 0 (fs we)))
              else deq_put pa (Some (Queue_element path 0 0 (fs we)))),
             World (w_shared w) (w_htab w) (w_clock w) (w_owners w) (w_events w) (w_memory w))).
    split; [by repeat constructor|]. split.
    + intros oe m. destruct (oe.1 (d_ino d, d_dev d)) as [u g] eqn:Ho.
        specialize (Hrw Chown "DIRECTORY" true (w_htab w) oe m u g Ho). simpl. by rewrite Hrw.
    + intros Hok r [= <-]. simpl. split; [done|].
      rewrite decide_False; [by rewrite app_nil_r|]. intros [? _]. congruence.
  - (* anything else *)
    exists [], (Some (we, pa, w)). split; [done|]. split.
    + intros oe m. destruct (oe.1 (d_ino d, d_dev d)) as [u g]. simpl. done.
    + intros Hok r [= <-]. simpl. by rewrite app_nil_r.
Qed.

(** The [readdir] loop. *)
Lemma scan_dir_split entries : ∀ pos we pa w,
  ∃ acts r0,
    Forall (action_ok env) acts ∧
    (∀ oe m, scan_dir cfg env entries pos we pa (put_oem oe m w)
           = in_scan (put_oem (replay cfg env acts oe) (replay_memory cfg env acts oe.1 m)) <$> r0) ∧
    (h_ok (w_htab w) → ∀ r, r0 = Some r →
       h_ok (w_htab (sr_world r)) ∧
       h_set (w_htab (sr_world r)) = h_set (w_htab w) ++ hl_keys acts).
Proof.
  induction entries as [|d_name rest IH]; intros pos we pa w.
  - exists [], (Some (Scan_result we pa w false false)).
    split; [done|]. split; [done|]. intros Hok r [= <-]. simpl. by rewrite app_nil_r.
  - simpl. destruct (decide (d_name = "." ∨ d_name = "..")) as [Hdot|Hdot]; [apply IH|].
    destruct (decide (d_name ∈ begin_exclude_file cfg)) as [Hex|Hex]; [apply IH|].
    destruct (visit_child_split we d_name pa w) as (acts1 & r1 & Hok1 & Heq1 & Hh1).
    destruct r1 as [[[we' pa'] w']|].
    2:{ exists [], None. split; [done|]. split; [|done]. intros oe m. by rewrite Heq1. }
    destruct (too_few_busy cfg (w_shared w')) eqn:Hidle.
    + destruct rest as [|d2 rest'].
      * exists acts1, (Some (Scan_result
                 (Queue_element (name we') (S pos) (directsubdirs we') (fs we')) pa' w' true false)).
        split; [done|]. split.
        -- intros oe m. rewrite Heq1. simpl. by rewrite Hidle.
        -- intros Hok r [= <-]. simpl. by apply (Hh1 Hok (we', pa', w')).
      * exists acts1, (Some (Scan_result
                 (Queue_element (name we') (S pos) (directsubdirs we') (fs we'))
                 (deq_put pa' (Some (Queue_element (name we') (S pos) (directsubdirs we') (fs we'))))
                 w' true true)).
        split; [done|]. split.
        -- intros oe m. rewrite Heq1. simpl. by rewrite Hidle.
        -- intros Hok r [= <-]. simpl. by apply (Hh1 Hok (we', pa', w')).
    + destruct (IH (S pos) we' pa' w') as (acts2 & r2 & Hok2 & Heq2 & Hh2).
      exists (acts1 ++ acts2), r2. split; [by apply Forall_app|]. split.
      * intros oe m. rewrite Heq1. simpl. rewrite Hidle, Heq2. by rewrite replay_app, replay_memory_app.
      * intros Hok r Hr. destruct (Hh1 Hok (we', pa', w') eq_refl) as [Hok' Hset']. simpl in *.
        destruct (Hh2 Hok' r Hr) as [Hok'' Hset'']. split; [done|].
        by rewrite Hset'', Hset', hl_keys_app, app_assoc.
Qed.

(** The transfer to the global queues. *)
Lemma transfer_split loc pa w :
  ∃ acts,
    Forall (action_ok env) acts ∧ hl_keys acts = [] ∧
    w_htab (transfer cfg env loc pa w).2 = w_htab w ∧
    ∀ oe m, transfer cfg env loc pa (put_oem oe m w)
          = ((transfer cfg env loc pa w).1,
             put_oem (replay cfg env acts oe) (replay_memory cfg env acts oe.1 m) (transfer cfg env loc pa w).2).
Proof.
  exists [ActEmit [EvLog INFO "too many idle threads detected" None];
          ActEmit (replicate (Z.to_nat (element_counter pa - 1)) EvCondSignal)].
  split.
  { repeat constructor; try by intros [].
    simpl. apply Forall_replicate. split; by intros []. }
  split; [done|]. unfold transfer.
  destruct (if dual_queue cfg then deq_get pa else (first_deq_element loc, pa)) as [first p1].
  change (w_shared (emit _ (tick w))) with (w_shared w).
  split.
  - by destruct (hand_over _ _ _ p1 (w_shared w)) as [g p2].
  - intros oe m.
    change (w_shared (emit _ (tick (put_oem oe m w)))) with (w_shared w).
    change (w_clock (put_oem oe m w)) with (w_clock w).
    by destruct (hand_over _ _ _ p1 (w_shared w)) as [g p2].
Qed.

(** The [free] after the loop. *)
Lemma free_w_element_split loc w :
  run_splits cfg env w (λ w', (free_w_element loc w', Finished)).
Proof.
  unfold free_w_element. destruct (l_backtodeq loc).
  - exists [ActFreeElement], w, Finished. split; [by repeat constructor|]. split; [done|].
    intros Hok. simpl. by rewrite app_nil_r.
  - apply run_splits_stop.
Qed.

(** The loop of [process_tile]. *)
Lemma tile_loop_split fuel : ∀ loc pa w,
  run_splits cfg env w (tile_loop fuel cfg env loc pa).
Proof.
  induction fuel as [|fuel IH]; intros loc pa w; unfold run_splits; simpl.
  - destruct (decide (0 < element_counter pa)); [stop_run|apply free_w_element_split].
  - destruct (decide (0 < element_counter pa)); [|apply free_w_element_split].
    destruct (deq_get pa) as [[we|] p1]; [|stop_run].
    set (loc1 := Tile_locals _ _ _ false).
    destruct (fs_dirs env !! name we) as [entries|].
    + destruct (scan_dir_split (drop (dirpos we) entries) (dirpos we) we p1 w)
        as (acts1 & r1 & Hok1 & Heq1 & Hh1).
      destruct r1 as [r|].
      2:{ exists [], w, Undefined. split; [done|]. split.
          - intros oe m. by rewrite Heq1.
          - intros Hok. simpl. by rewrite app_nil_r. }
      set (loc1' := Tile_locals (directories_scanned loc1) (first_deq_element loc1)
                      (t1 loc1) (backtodeq r)).
      destruct (too_many_idle_threads r && bool_decide (1 < element_counter (sr_anchor r)))
        eqn:Hcond.
      * destruct (transfer_split loc1' (sr_anchor r) (sr_world r))
          as (actst & Hokt & Hkt & Hht & Heqt).
        destruct (transfer cfg env loc1' (sr_anchor r) (sr_world r)) as [[loc2 p2] w2] eqn:Ht.
        destruct (IH loc2 p2 w2) as (acts2 & w0 & s & Hok2 & Heq2 & Hh2).
        exists (acts1 ++ actst ++ acts2), w0, s.
        split; [apply Forall_app; split; [done|]; apply Forall_app; by split|]. split.
        -- intros oe m. rewrite Heq1. simpl. rewrite Hcond.
           fold loc1'. rewrite Heqt. simpl.
           rewrite Heq2. by rewrite !replay_app, !replay_memory_app.
        -- intros Hok. destruct (Hh1 Hok r eq_refl) as [Hok' Hset'].
           simpl in Hht. rewrite <- Hht in Hok', Hset'.
           destruct (Hh2 Hok') as [Hok'' Hset'']. split; [done|].
           rewrite Hset'', Hset', !hl_keys_app, Hkt. simpl. by rewrite app_assoc.
      * destruct (IH loc1' (sr_anchor r) (sr_world r)) as (acts2 & w0 & s & Hok2 & Heq2 & Hh2).
        exists (acts1 ++ acts2), w0, s. split; [by apply Forall_app|]. split.
        -- intros oe m. rewrite Heq1. simpl. rewrite Hcond. fold loc1'.
           rewrite Heq2. by rewrite replay_app, replay_memory_app.
        -- intros Hok. destruct (Hh1 Hok r eq_refl) as [Hok' Hset'].
           destruct (Hh2 Hok') as [Hok'' Hset'']. split; [done|].
           by rewrite Hset'', Hset', hl_keys_app, app_assoc.
    + destruct (IH loc1 p1 w) as (acts2 & w0 & s & Hok2 & Heq2 & Hh2).
      exists (ActEmit [EvLog WARNING "couldn't open" (Some (name we))] :: acts2), w0, s.
      split; [constructor; [apply action_ok_emit_log|done]|]. split.
      * intros oe m. rewrite put_oem_emit, Heq2. done.
      * done.
Qed.

Lemma process_tile_split fuel qe w :
  run_splits cfg env w (process_tile fuel cfg env qe).
Proof.
  unfold process_tile.
  destruct (tile_loop_split fuel (Tile_locals 0 None (clock env (w_clock w)) false)
              (deq_push deq_init (Some qe)) (tick w)) as (acts & w0 & s & Hok & Heq & Hh).
  exists (ActEnterTile :: acts), w0, s. split; [by constructor|]. split; [|done].
  intros oe m. apply (Heq oe (Memory false (undefined m))).
Qed.

(** The loop of the worker. *)
Lemma handle_subtree_split fuel : ∀ w,
  run_splits cfg env w (handle_subtree fuel cfg env).
Proof.
  induction fuel as [|fuel IH]; intros w; unfold run_splits; simpl.
  - destruct (notfinished (w_shared w)); stop_run.
  - destruct (notfinished (w_shared w)); [|stop_run].
    destruct (decide (element_counter (fast_anchor (w_shared w)) = 0
                      ∧ element_counter (slow_anchor (w_shared w)) = 0)); [stop_run|].
    destruct (take_element (dual_queue cfg) (w_shared w)) as [[[qe|] g']|]; [| |stop_run].
    + destruct (process_tile_split fuel qe (set_shared (busy_incr g') w))
        as (acts1 & w1 & s1 & Hok1 & Heq1 & Hh1).
      assert (Hs1 : s1 = Finished ∨ s1 ≠ Finished) by (destruct s1; eauto).
      destruct Hs1 as [->|Hs1].
      * destruct (release (w_shared w1)) as [g1 broadcast] eqn:Hrel.
        destruct (IH (set_shared g1 w1)) as (acts2 & w0 & s & Hok2 & Heq2 & Hh2).
        exists (acts1 ++ ActEmit (if broadcast then [EvCondBroadcast] else []) :: acts2), w0, s.
        split.
        { apply Forall_app. split; [done|]. constructor; [|done].
          destruct broadcast; simpl; repeat constructor; by intros []. }
        split.
        -- intros oe m.
           change (set_shared (busy_incr g') (put_oem oe m w))
             with (put_oem oe m (set_shared (busy_incr g') w)).
           rewrite Heq1.
           change (w_shared (put_oem (replay cfg env acts1 oe) (replay_memory cfg env acts1 oe.1 m) w1))
             with (w_shared w1).
           rewrite Hrel.
           change (emit (if broadcast then [EvCondBroadcast] else [])
                     (set_shared g1 (put_oem (replay cfg env acts1 oe) (replay_memory cfg env acts1 oe.1 m) w1)))
             with (put_oem (replay cfg env
                             [ActEmit (if broadcast then [EvCondBroadcast] else [])]
                             (replay cfg env acts1 oe))
                     (replay_memory cfg env
                        [ActEmit (if broadcast then [EvCondBroadcast] else [])]
                        (replay cfg env acts1 oe).1 (replay_memory cfg env acts1 oe.1 m))
                     (set_shared g1 w1)).
           rewrite Heq2. by rewrite replay_app, replay_memory_app.
        -- intros Hok. destruct (Hh1 Hok) as [Hok' Hset'].
           destruct (Hh2 Hok') as [Hok'' Hset'']. split; [done|].
           simpl in *. by rewrite Hset'', Hset', hl_keys_app, app_assoc.
      * exists acts1, w1, s1. split; [done|]. split; [|done].
        intros oe m.
        change (set_shared (busy_incr g') (put_oem oe m w))
          with (put_oem oe m (set_shared (busy_incr g') w)).
        rewrite Heq1. by destruct s1.
    + apply (IH (set_shared g' w)).
Qed.

End RunAsReplay.

Lemma seed_roots_owners env o o' roots : ∀ fast,
  seed_roots env o roots fast = seed_roots env o' roots fast.
Proof.
  induction roots as [|r roots IH]; intros fast; simpl; [done|].
  unfold lstat. destruct (fs_lstat env !! r) as [d|].
  - destruct (o (d_ino d, d_dev d)), (o' (d_ino d, d_dev d)). apply IH.
  - by rewrite (IH fast).
Qed.

(** The run of [main]: the trace starts with events that do not depend on
    the owners, and the owners, the trace and the heap change by the replay
    of the actions.  The classes of the rewritten hardlinked files are
    pairwise distinct.  A run whose heap was misused ends [Undefined]; any
    other run ends as the traversal does, and adds its last events. *)
Lemma chuid_main_split fuel args max_openfiles env :
  ∃ acts w0 s es0 es1,
    Forall (action_ok env) acts ∧
    Forall (λ e, ¬ is_chown e ∧ ¬ is_stdout e) es0 ∧
    Forall (λ e, ¬ is_chown e ∧ ¬ is_stdout e) es1 ∧
    NoDup (hl_keys acts) ∧
    ∀ o,
      let cfg := config_of args
                   (default 0 (match arg_t args with
                               | Some n => option_t max_openfiles n
                               | None => Some 20
                               end)) in
      let oe := replay cfg env acts (o, es0) in
      let m := replay_memory cfg env acts o memory_init in
      chuid_main fuel args max_openfiles env o
      = if undefined m then (put_oem oe m w0, Undefined)
        else (put_oem (oe.1, oe.2 ++ es1) m w0, s).
Proof.
  unfold chuid_main.
  set (w00 := World (Shared deq_init deq_init 0 0 true) (h_init INIT_MODULE INIT_TAB_SIZE)
                0 (λ _, (0, 0)) [] memory_init).
  assert (Hstopped : ∀ cfg es, Forall (λ e, ¬ is_chown e ∧ ¬ is_stdout e) es →
    ∃ acts w0 s es0 es1,
      Forall (action_ok env) acts ∧
      Forall (λ e, ¬ is_chown e ∧ ¬ is_stdout e) es0 ∧
      Forall (λ e, ¬ is_chown e ∧ ¬ is_stdout e) es1 ∧
      NoDup (hl_keys acts) ∧
      ∀ o, stopped o es
           = if undefined (replay_memory cfg env acts o memory_init)
             then (put_oem (replay cfg env acts (o, es0))
                     (replay_memory cfg env acts o memory_init) w0, Undefined)
             else (put_oem ((replay cfg env acts (o, es0)).1,
                            (replay cfg env acts (o, es0)).2 ++ es1)
                     (replay_memory cfg env acts o memory_init) w0, s)).
  { intros cfg es Hes. exists [], w00, Finished, es, []. split; [done|]. split; [done|].
    split; [done|]. split; [apply NoDup_nil_2|].
    intros o. simpl. by rewrite app_nil_r. }
  destruct (match arg_t args with Some n => option_t max_openfiles n | None => Some 20 end)
    as [numthr_|]; simpl.
  2:{ apply Hstopped. repeat constructor; by intros []. }
  set (cfg := config_of args numthr_).
  destruct (begin_fs_list cfg) as [|r0 roots] eqn:Hroots.
  { apply Hstopped. repeat constructor; by intros []. }
  rewrite <- Hroots.
  destruct (seed_roots env (λ _, (0, 0)) (begin_fs_list cfg) deq_init) as [fast es] eqn:Hseed.
  assert (Hes : Forall (λ e, ¬ is_chown e ∧ ¬ is_stdout e) es).
  { rewrite seed_roots_spec in Hseed. injection Hseed as _ <-.
    apply Forall_fmap, Forall_forall. intros r _. split; by intros []. }
  assert (Hseed' : ∀ o, seed_roots env o (begin_fs_list cfg) deq_init = (fast, es)).
  { intros o. by rewrite (seed_roots_owners env o (λ _, (0, 0))). }
  destruct (elems fast) as [|q0 qs] eqn:Hfast.
  { destruct (Hstopped cfg (es ++ [EvStderr "ERROR: No valid files systems to work on!";
                                  EvExit EXIT_FAILURE]))
      as (acts & w0 & s & es0 & es1 & ? & ? & ? & ? & Heq).
    { apply Forall_app. split; [done|]. repeat constructor; by intros []. }
    exists acts, w0, s, es0, es1. split_and!; try done.
    intros o. rewrite Hseed', Hfast. apply Heq. }
  set (es1 := es ++ (EvThreadCreate <$> seq 0 (Z.to_nat numthr_))).
  assert (Hes1 : Forall (λ e, ¬ is_chown e ∧ ¬ is_stdout e) es1).
  { apply Forall_app. split; [done|]. apply Forall_fmap, Forall_forall.
    intros r _. split; by intros []. }
  set (w1 := World (Shared fast deq_init 0 0 true) (h_init INIT_MODULE INIT_TAB_SIZE)
               0 (λ _, (0, 0)) [] memory_init).
  assert (Hok1 : h_ok (w_htab w1)).
  { split; [apply h_init_wf; unfold INIT_MODULE, INIT_TAB_SIZE; lia|].
    change (w_htab w1) with (h_init INIT_MODULE INIT_TAB_SIZE).
    rewrite h_init_set. apply NoDup_nil_2. }
  assert (Hrun : ∃ acts w0 s, Forall (action_ok env) acts ∧
    (∀ oe m, (if decide (0 < numthr_) then handle_subtree fuel cfg env (put_oem oe m w1)
              else (put_oem oe m w1, Finished))
             = (put_oem (replay cfg env acts oe) (replay_memory cfg env acts oe.1 m) w0, s)) ∧
    h_ok (w_htab w0) ∧ h_set (w_htab w0) = hl_keys acts).
  { destruct (decide (0 < numthr_)).
    - destruct (handle_subtree_split cfg env fuel w1) as (acts & w0 & s & ? & ? & Hh).
      exists acts, w0, s. split; [done|]. split; [done|]. by apply Hh.
    - exists [], w1, Finished. split; [done|]. split; [done|]. by split. }
  destruct Hrun as (acts & w0 & s & Hacts & Heq & [Hwf Hnd] & Hset).
  rewrite Hset in Hnd.
  exists acts, w0, s, es1,
    (match s with
     | Finished => [EvLog INFO "Scan successfully completed" None; EvExit EXIT_SUCCESS]
     | _ => []
     end).
  split; [done|]. split; [done|]. split.
  { destruct s; repeat constructor; by intros []. }
  split; [done|].
  intros o. rewrite Hseed', Hfast.
  change (World (Shared fast deq_init 0 0 true) (h_init INIT_MODULE INIT_TAB_SIZE) 0 o
            (es ++ (EvThreadCreate <$> seq 0 (Z.to_nat numthr_))) memory_init)
    with (put_oem (o, es1) memory_init w1).
  rewrite Heq. unfold main_exit. cbn [fst snd w_memory put_oem].
  destruct (undefined (replay_memory cfg env acts o memory_init)); [done|].
  destruct s; try done. by rewrite app_nil_r.
  all: by rewrite app_nil_r.
Qed.
(** *** The mapping lists *)

Lemma uid_list_NoDup old new pairs : NoDup pairs.*1 → NoDup (uid_list old new pairs).*1.
Proof.
  intros Hnd. unfold uid_list. case_decide; [done|].
  rewrite fmap_app. apply NoDup_app. split; [done|]. split; [|apply NoDup_singleton].
  intros x Hx ->%list_elem_of_singleton. done.
Qed.

Lemma parseuidlist_NoDup lines : ∀ acc,
  NoDup acc.1.*1 → NoDup acc.2.*1 →
  NoDup (parseuidlist lines acc).1.*1 ∧ NoDup (parseuidlist lines acc).2.*1.
Proof.
  induction lines as [|[[[] old] new] lines IH]; intros acc H1 H2; simpl; [done| |].
  - apply IH; simpl; [by apply uid_list_NoDup|done].
  - apply IH; simpl; [done|by apply uid_list_NoDup].
Qed.

Lemma config_of_maps args n :
  begin_uidpair (config_of args n) = uid_map args ∧
  begin_gidpair (config_of args n) = gid_map args ∧
  dryrun (config_of args n) = arg_n args.
Proof.
  unfold config_of, uid_map, gid_map. by destruct (parseuidlist _ _).
Qed.

Lemma maps_NoDup args : NoDup (uid_map args).*1 ∧ NoDup (gid_map args).*1.
Proof. apply parseuidlist_NoDup; apply NoDup_nil_2. Qed.

(** *** The loops over a mapping list *)

Lemma report_loop_spec tag path dim id pairs :
  Forall is_stdout (report_loop tag path dim id pairs) ∧
  length (report_loop tag path dim id pairs)
  = (if decide (id ∈ pairs.*1) then 1 else 0)%nat.
Proof.
  induction pairs as [|[old new] pairs [IH1 IH2]]; simpl.
  - by split.
  - destruct (decide (old = id)) as [->|Hne].
    + split; [by repeat constructor|]. rewrite decide_True; [done|]. left.
    + split; [done|]. rewrite IH2. apply decide_ext. rewrite elem_of_cons.
      split; [tauto|]. by intros [->|?].
Qed.

Lemma report_loop_match tag path dim old new pairs :
  NoDup pairs.*1 → (old, new) ∈ pairs →
  report_loop tag path dim old pairs = [EvStdout path tag dim old new].
Proof.
  induction pairs as [|[old' new'] pairs IH]; intros Hnd Hin; [by apply elem_of_nil in Hin|].
  apply NoDup_cons in Hnd as [Hnin Hnd]. simpl.
  apply elem_of_cons in Hin as [Heq|Hin].
  - injection Heq as <- <-. by rewrite decide_True.
  - rewrite decide_False; [by apply IH|]. intros ->. apply Hnin.
    apply list_elem_of_fmap. by exists (old, new).
Qed.

Lemma report_loop_no_match tag path dim id pairs :
  id ∉ pairs.*1 → report_loop tag path dim id pairs = [].
Proof.
  induction pairs as [|[old new] pairs IH]; intros Hnin; simpl; [done|].
  rewrite decide_False.
  - apply IH. intros ?. apply Hnin. by right.
  - intros ->. apply Hnin. left.
Qed.

Lemma chown_loop_no_match env call path dim frees id pairs m o :
  id ∉ pairs.*1 → chown_loop env call path dim frees id pairs m o = (o, [], m).
Proof.
  induction pairs as [|[old new] pairs IH]; intros Hnin; simpl; [done|].
  rewrite decide_False.
  - apply IH. intros ?. apply Hnin. by right.
  - intros ->. apply Hnin. left.
Qed.

Lemma chown_loop_class_count env call path dim frees id pairs m o k dim' :
  NoDup pairs.*1 →
  (length (filter (class_chown env k dim')
             (chown_loop env call path dim frees id pairs m o).1.2)
   ≤ if decide (dim = dim' ∧ class_of env path = Some k) then 1 else 0)%nat.
Proof.
  induction pairs as [|[old new] pairs IH]; intros Hnd; simpl; [lia|].
  apply NoDup_cons in Hnd as [Hnin Hnd].
  destruct (decide (old = id)) as [->|Hne]; [|by apply IH].
  destruct (chown_dim env dim path new o) as [[] o'].
  - simpl. rewrite !filter_cons. simpl.
    destruct (decide (dim = dim' ∧ class_of env path = Some k)); simpl; lia.
  - rewrite chown_loop_no_match by done. simpl. rewrite !filter_cons. simpl.
    destruct (decide (dim = dim' ∧ class_of env path = Some k)); simpl; lia.
Qed.

(** [chown] succeeds on every path that [lstat] accepts and that is not
    refused. *)
Lemma chown_dim_spec env dim path new o d :
  fs_lstat env !! path = Some d →
  chown_dim env dim path new o
  = if decide (path ∈ fs_denied env) then (false, o)
    else (true, set_owner (d_ino d, d_dev d)
                  (set_dim dim (o (d_ino d, d_dev d))
                     (if decide (new = ID_KEEP) then get_dim dim (o (d_ino d, d_dev d))
                      else new)) o).
Proof.
  intros Hd. unfold chown_dim, chown. destruct dim; rewrite Hd; case_decide; try done;
    simpl; f_equal; f_equal; destruct (o (d_ino d, d_dev d)); simpl;
    by repeat case_decide.
Qed.

Lemma chown_loop_owners env call path dim frees id pairs m d : ∀ o,
  fs_lstat env !! path = Some d → NoDup pairs.*1 →
  get_dim dim (o (d_ino d, d_dev d)) = id →
  ∀ k, (chown_loop env call path dim frees id pairs m o).1.1 k
       = if decide (k = (d_ino d, d_dev d) ∧ path ∉ fs_denied env)
         then set_dim dim (o (d_ino d, d_dev d)) (new_id pairs id)
         else o k.
Proof.
  intros o Hd Hnd Hid k.
  assert (Hsame : (if decide (k = (d_ino d, d_dev d) ∧ path ∉ fs_denied env)
                   then set_dim dim (o (d_ino d, d_dev d)) id else o k) = o k).
  { case_decide as Hk; [|done]. destruct Hk as [-> _].
    destruct dim, (o (d_ino d, d_dev d)); simpl in *; by subst. }
  induction pairs as [|[old new] pairs IH]; simpl; [done|].
  apply NoDup_cons in Hnd as [Hnin Hnd].
  destruct (decide (old = id)) as [->|Hne]; [|by apply IH].
  rewrite (chown_dim_spec env dim path new o d Hd), Hid.
  destruct (decide (path ∈ fs_denied env)) as [Hden|Hden].
  - rewrite chown_loop_no_match by done. simpl.
    rewrite decide_False; [done|]. intros [_ ?]. done.
  - simpl. unfold set_owner. destruct (decide (k = (d_ino d, d_dev d))) as [->|Hk].
    + destruct (decide ((d_ino d, d_dev d) = (d_ino d, d_dev d) ∧ path ∉ fs_denied env))
        as [?|Hc]; [done|]. by destruct Hc.
    + destruct (decide (k = (d_ino d, d_dev d) ∧ path ∉ fs_denied env))
        as [[? _]|?]; done.
Qed.

(** The owners after the rewrite of one entry, when something is changed. *)
Lemma rewrite_dentry_owners cfg env call tag path d o :
  dryrun cfg = false → fs_lstat env !! path = Some d →
  NoDup (begin_uidpair cfg).*1 → NoDup (begin_gidpair cfg).*1 →
  ∀ k, (rewrite_dentry cfg env call tag path d o).1 k
       = if decide (k = (d_ino d, d_dev d) ∧ path ∉ fs_denied env)
         then (new_id (begin_uidpair cfg) (o (d_ino d, d_dev d)).1,
               new_id (begin_gidpair cfg) (o (d_ino d, d_dev d)).2)
         else o k.
Proof.
  intros Hdry Hd Hu Hg k. unfold rewrite_dentry, id_rewrite. rewrite Hdry.
  destruct (o (d_ino d, d_dev d)) as [u g] eqn:Ho.
  pose proof (chown_loop_owners env call path Uid false u (begin_uidpair cfg) memory_init
                d o Hd Hu) as H1.
  rewrite Ho in H1. specialize (H1 eq_refl).
  destruct (chown_loop env call path Uid false u (begin_uidpair cfg) memory_init o)
    as [[o1 es1] m1].
  cbn [fst snd set_dim] in H1.
  assert (Ho1 : (o1 (d_ino d, d_dev d)).2 = g).
  { rewrite H1. destruct (decide _); simpl; [done|]. by rewrite Ho. }
  pose proof (chown_loop_owners env call path Gid false g (begin_gidpair cfg) m1
                d o1 Hd Hg Ho1) as H2.
  destruct (chown_loop env call path Gid false g (begin_gidpair cfg) m1 o1) as [[o2 es2] m2].
  cbn [fst snd] in *. rewrite H2.
  destruct (decide (k = (d_ino d, d_dev d) ∧ path ∉ fs_denied env)) as [Hk|Hk].
  - rewrite H1.
    destruct (decide ((d_ino d, d_dev d) = (d_ino d, d_dev d) ∧ path ∉ fs_denied env))
      as [?|Hc]; [done|]. destruct Hc. by destruct Hk.
  - rewrite H1. by destruct (decide (k = (d_ino d, d_dev d) ∧ path ∉ fs_denied env)).
Qed.

Lemma rewrite_dentry_dry cfg env call tag path d o :
  dryrun cfg = true →
  (rewrite_dentry cfg env call tag path d o).1 = o ∧
  (rewrite_dentry cfg env call tag path d o).2 = dry_lines cfg tag path (o (d_ino d, d_dev d)) ∧
  Forall is_stdout (rewrite_dentry cfg env call tag path d o).2.
Proof.
  intros Hdry. unfold rewrite_dentry, id_rewrite, dry_lines. rewrite Hdry.
  destruct (o (d_ino d, d_dev d)) as [u g]. simpl. split; [done|]. split; [done|].
  apply Forall_app. split; apply report_loop_spec.
Qed.

Lemma chown_loop_no_stdout env call path dim frees id pairs : ∀ m o,
  Forall (λ e, ¬ is_stdout e) (chown_loop env call path dim frees id pairs m o).1.2.
Proof.
  induction pairs as [|[old new] pairs IH]; intros m o; simpl; [done|].
  case_decide; [|apply IH].
  destruct (chown_dim env dim path new o) as [[] o']; simpl.
  - repeat constructor; by intros [].
  - specialize (IH (if frees then Memory (names_freed m) (undefined m || names_freed m)
                    else m) o').
    destruct (chown_loop env call path dim frees id pairs _ o') as [[o1 es1] m1].
    simpl in *. repeat constructor; try by intros []. done.
Qed.

(** The rewrite that changes owners prints nothing on stdout. *)
Lemma rewrite_dentry_no_stdout cfg env call tag path d o :
  dryrun cfg = false →
  Forall (λ e, ¬ is_stdout e) (rewrite_dentry cfg env call tag path d o).2.
Proof.
  intros Hdry. unfold rewrite_dentry, id_rewrite. rewrite Hdry.
  destruct (o (d_ino d, d_dev d)) as [u g].
  pose proof (chown_loop_no_stdout env call path Uid false u (begin_uidpair cfg)
                memory_init o) as H1.
  destruct (chown_loop env call path Uid false u (begin_uidpair cfg) memory_init o)
    as [[o1 es1] m1].
  pose proof (chown_loop_no_stdout env call path Gid false g (begin_gidpair cfg) m1 o1) as H2.
  destruct (chown_loop env call path Gid false g (begin_gidpair cfg) m1 o1) as [[o2 es2] m2].
  simpl in *. by apply Forall_app.
Qed.

Lemma rewrite_dentry_class_count cfg env call tag path d o k dim :
  fs_lstat env !! path = Some d →
  NoDup (begin_uidpair cfg).*1 → NoDup (begin_gidpair cfg).*1 →
  (length (filter (class_chown env k dim) (rewrite_dentry cfg env call tag path d o).2)
   ≤ if decide (hardlinked d ∧ (d_ino d, d_dev d) = k) then 1 else 0)%nat.
Proof.
  intros Hd Hu Hg. unfold rewrite_dentry, id_rewrite.
  destruct (o (d_ino d, d_dev d)) as [u g].
  assert (Hclass : class_of env path = Some k ↔ hardlinked d ∧ (d_ino d, d_dev d) = k).
  { unfold class_of. rewrite Hd. case_decide; [split; [by intros [= <-]|by intros [_ ->]]|
      split; [done|tauto]]. }
  destruct (dryrun cfg).
  - simpl. rewrite (filter_none (class_chown env k dim)); [simpl; lia|].
    intros e He. assert (Hs : is_stdout e).
    { apply elem_of_app in He as [He|He]; eapply Forall_forall in He; try done;
        apply report_loop_spec. }
    destruct e; try done. by intros [].
  - pose proof (chown_loop_class_count env call path Uid false u (begin_uidpair cfg)
                  memory_init o k dim Hu) as H1.
    destruct (chown_loop env call path Uid false u (begin_uidpair cfg) memory_init o)
      as [[o1 es1] m1].
    pose proof (chown_loop_class_count env call path Gid false g (begin_gidpair cfg)
                  m1 o1 k dim Hg) as H2.
    destruct (chown_loop env call path Gid false g (begin_gidpair cfg) m1 o1)
      as [[o2 es2] m2].
    cbn [fst snd] in *. rewrite filter_app, length_app.
    assert (Hif : ∀ (Q : Prop) `{Decision Q} (n : nat),
              (n ≤ if decide Q then 1 else 0)%nat → (n ≤ 1)%nat ∧ (¬ Q → n = 0%nat)).
    { intros Q ? n Hn. destruct (decide Q); [split; [done|tauto]|split; lia]. }
    apply Hif in H1 as [H1 H1'], H2 as [H2 H2'].
    destruct (decide (hardlinked d ∧ (d_ino d, d_dev d) = k)) as [Hc|Hc].
    + destruct dim.
      * rewrite H2'; [lia|]. by intros [? _].
      * rewrite H1'; [lia|]. by intros [? _].
    + rewrite H1', H2'; [lia| |]; intros [_ ?]; apply Hc; by apply Hclass.
Qed.

(** *** Replays *)

Lemma perform_rewrite cfg env oe call tag path d :
  perform cfg env oe (ActRewrite call tag path d)
  = ((rewrite_dentry cfg env call tag path d oe.1).1,
     oe.2 ++ (rewrite_dentry cfg env call tag path d oe.1).2).
Proof. simpl. by destruct (rewrite_dentry _ _ _ _ _ _ _). Qed.

Lemma replay_cons cfg env a acts oe :
  replay cfg env (a :: acts) oe = replay cfg env acts (perform cfg env oe a).
Proof. done. Qed.

(** In dry-run mode a replay leaves the owners alone and adds no [chown]. *)
Lemma replay_dry cfg env acts : ∀ oe,
  dryrun cfg = true → Forall (action_ok env) acts →
  (replay cfg env acts oe).1 = oe.1 ∧
  ∃ es, (replay cfg env acts oe).2 = oe.2 ++ es ∧ Forall (λ e, ¬ is_chown e) es.
Proof.
  induction acts as [|a acts IH]; intros oe Hdry Hok.
  - split; [done|]. exists []. by rewrite app_nil_r.
  - apply Forall_cons in Hok as [Ha Hok]. rewrite replay_cons.
    destruct (IH (perform cfg env oe a) Hdry Hok) as (Ho & es & He & Hes).
    destruct a as [es1|call tag path d| |].
    + simpl in *. split; [done|]. exists (es1 ++ es). rewrite He, <- app_assoc.
      split; [done|]. apply Forall_app. split; [|done].
      eapply Forall_impl; [exact Ha|]. by intros e [? _].
    + rewrite perform_rewrite in *.
      destruct (rewrite_dentry_dry cfg env call tag path d oe.1 Hdry) as (Hsame & _ & Hout).
      cbn [fst snd] in *. split; [congruence|].
      eexists. rewrite He, <- app_assoc. split; [done|].
      apply Forall_app. split; [|done].
      eapply Forall_impl; [exact Hout|]. intros e He' Hc. by destruct e.
    + simpl in *. split; [done|]. by exists es.
    + simpl in *. split; [done|]. by exists es.
Qed.

(** The [chown] calls a replay adds for a class are bounded by the
    rewrites of that class. *)
Lemma replay_class_count cfg env acts k dim : ∀ oe,
  Forall (action_ok env) acts →
  NoDup (begin_uidpair cfg).*1 → NoDup (begin_gidpair cfg).*1 →
  (length (filter (class_chown env k dim) (replay cfg env acts oe).2)
   ≤ length (filter (class_chown env k dim) oe.2)
     + length (filter (λ x, x = k) (hl_keys acts)))%nat.
Proof.
  induction acts as [|a acts IH]; intros oe Hok Hu Hg; [simpl; lia|].
  apply Forall_cons in Hok as [Ha Hok]. rewrite replay_cons.
  etrans; [apply (IH _ Hok Hu Hg)|].
  destruct a as [es1|call tag path d| |]; [| |simpl; lia..].
  - simpl. rewrite filter_app, length_app.
    rewrite (filter_none (class_chown env k dim) es1); [simpl; lia|].
    intros e He Hc. eapply Forall_forall in Ha as [Hnc _]; [|exact He]. by destruct e.
  - rewrite perform_rewrite. cbn [fst snd]. rewrite filter_app, length_app.
    pose proof (rewrite_dentry_class_count cfg env call tag path d oe.1 k dim Ha Hu Hg) as Hc.
    simpl. destruct (decide (hardlinked d)) as [Hh|Hh].
    + rewrite filter_cons. destruct (decide ((d_ino d, d_dev d) = k)) as [Hk|Hk].
      * rewrite decide_True in Hc by done. simpl. lia.
      * rewrite decide_False in Hc by (by intros [_ ?]). lia.
    + rewrite decide_False in Hc by (by intros [? _]). lia.
Qed.

Lemma NoDup_filter_eq_length (l : list (Z * Z)) k :
  NoDup l → (length (filter (λ x, x = k) l) ≤ 1)%nat.
Proof.
  induction 1 as [|x l Hx Hnd IH]; [simpl; lia|].
  rewrite filter_cons. destruct (decide (x = k)) as [->|]; [|done].
  rewrite (filter_none (λ x, x = k) l); [simpl; lia|]. by intros y Hy ->.
Qed.

Lemma new_id_not_old pairs id : id ∉ pairs.*1 → new_id pairs id = id.
Proof.
  induction pairs as [|[old new] pairs IH]; intros Hnin; simpl; [done|].
  rewrite decide_False.
  - apply IH. intros ?. apply Hnin. by right.
  - intros ->. apply Hnin. left.
Qed.

Lemma new_id_cases pairs id :
  new_id pairs id = id ∨ ∃ old, (old, new_id pairs id) ∈ pairs.
Proof.
  induction pairs as [|[old new] pairs IH]; simpl; [by left|].
  destruct (decide (old = id)) as [->|Hne].
  - destruct (decide (new = ID_KEEP)); [by left|]. right. exists id. left.
  - destruct IH as [?|[old' ?]]; [by left|]. right. exists old'. by right.
Qed.

Lemma new_id_idemp pairs id :
  no_chain pairs → new_id pairs (new_id pairs id) = new_id pairs id.
Proof.
  intros Hnc. destruct (new_id_cases pairs id) as [Heq|[old Hin]].
  - rewrite Heq. exact Heq.
  - apply new_id_not_old. eapply Hnc. exact Hin.
Qed.


Lemma chuid_main_cfg_facts args n :
  NoDup (begin_uidpair (config_of args n)).*1 ∧
  NoDup (begin_gidpair (config_of args n)).*1.
Proof.
  destruct (config_of_maps args n) as (-> & -> & _). apply maps_NoDup.
Qed.

(** *** Hardlinks *)

(** The visit of a hardlinked regular file. *)
Lemma visit_child_hardlinked cfg env we d_name pa w d r :
  fs_lstat env !! (name we +:+ "/" +:+ d_name) = Some d → hardlinked d →
  h_ok (w_htab w) → visit_child cfg env we d_name pa w = Some r →
  h_ok (w_htab r.2) ∧ (d_ino d, d_dev d) ∈ h_set (w_htab r.2) ∧
  ((d_ino d, d_dev d) ∈ h_set (w_htab w) →
     w_owners r.2 = w_owners w ∧ w_events r.2 = w_events w) ∧
  ((d_ino d, d_dev d) ∉ h_set (w_htab w) →
     w_owners r.2
     = (rewrite_dentry cfg env Chown "FILE" (name we +:+ "/" +:+ d_name) d (w_owners w)).1 ∧
     w_events r.2
     = w_events w
       ++ (rewrite_dentry cfg env Chown "FILE" (name we +:+ "/" +:+ d_name) d (w_owners w)).2).
Proof.
  intros Hd [Hm Hn] Hok. unfold visit_child, lstat. rewrite Hd.
  destruct (w_owners w (d_ino d, d_dev d)) as [u g] eqn:Ho. cbn [st_mode st_nlink st_ino st_dev].
  rewrite Hm, decide_True by done.
  destruct (h_mins (w_htab w) (d_ino d) (d_dev d)) as [[ht known]|] eqn:Hh; [|done].
  destruct (h_mins_defined _ _ _ _ _ Hok Hh) as [Hok' [(-> & Hin & Hset)|(-> & Hnin & Hset)]].
  - rewrite decide_False by lia. intros [= <-]. cbn [snd w_htab w_owners w_events].
    rewrite Hset. split_and!; try done.
  - rewrite decide_True by (by right). intros [= <-]. unfold rewrite_entry, rewrite_dentry.
    rewrite Ho. cbn [st_uid st_gid].
    rewrite <- (id_rewrite_heap cfg env Chown "FILE" false _ u g (w_memory w) (w_owners w)).
    destruct (id_rewrite cfg env Chown "FILE" false _ u g (w_memory w) (w_owners w))
      as [[o' es] m'].
    cbn [fst snd w_htab w_owners w_events]. rewrite Hset. split_and!; try done.
    apply elem_of_app. right. by apply list_elem_of_singleton.
Qed.

(** Any sequence of visits is a replay as well. *)
Lemma visit_all_split cfg env visits : ∀ w,
  ∃ acts r0,
    Forall (action_ok env) acts ∧
    (∀ oe m, visit_all cfg env visits (put_oem oe m w)
             = put_oem (replay cfg env acts oe) (replay_memory cfg env acts oe.1 m) <$> r0) ∧
    (h_ok (w_htab w) → ∀ w', r0 = Some w' →
       h_ok (w_htab w') ∧ h_set (w_htab w') = h_set (w_htab w) ++ hl_keys acts).
Proof.
  induction visits as [|[we d_name] visits IH]; intros w.
  - exists [], (Some w). split; [done|]. split; [done|].
    intros Hok w' [= <-]. by rewrite app_nil_r.
  - simpl. destruct (visit_child_split cfg env we d_name deq_init w)
      as (acts1 & r1 & Hok1 & Heq1 & Hh1).
    destruct r1 as [[[we' pa'] w1]|].
    2:{ exists [], None. split; [done|]. split; [|done]. intros oe m. by rewrite Heq1. }
    destruct (IH w1) as (acts2 & r2 & Hok2 & Heq2 & Hh2).
    exists (acts1 ++ acts2), r2. split; [by apply Forall_app|]. split.
    + intros oe m. rewrite Heq1. simpl. rewrite Heq2.
      by rewrite replay_app, replay_memory_app.
    + intros Hok w' Hr. destruct (Hh1 Hok (we', pa', w1) eq_refl) as [Hok' Hset']. simpl in *.
      destruct (Hh2 Hok' w' Hr) as [Hok'' Hset'']. split; [done|].
      by rewrite Hset'', Hset', hl_keys_app, app_assoc.
Qed.

Lemma put_oem_self w : put_oem (w_owners w, w_events w) (w_memory w) w = w.
Proof. by destruct w. Qed.

(** C1, as stated, fails: two hard links to a file whose uid and whose
    gid are both mapped.  The first visit rewrites both ids, so two [chown]
    calls are made for the class; the second link is skipped. *)
Lemma hardlink_class_two_chown_calls :
  let env := Environment
    (list_to_map [("/a", ["."; ".."; "f"; "g"])])
    (list_to_map [("/a", Dentry S_IFDIR 2 10 1); ("/a/f", Dentry S_IFREG 2 11 1);
                  ("/a/g", Dentry S_IFREG 2 11 1)])
    ∅ (λ n, Timeval (Z.of_nat n) 0) in
  let args := Arguments None false false false None
                [(Uid, 1000, 2000); (Gid, 1000, 3000)] ["/a"] [] in
  let r := chuid_main 10 args 1024 env (λ _, (1000, 1000)) in
  r.2 = Finished ∧
  filter (class_chown_any env (11, 1)) (w_events r.1)
  = [EvChown Chown Uid "/a/f" 2000 true; EvChown Chown Gid "/a/f" 3000 true] ∧
  ¬ (length (filter (class_chown_any env (11%Z, 1%Z)) (w_events r.1)) ≤ 1)%nat.
Proof.
  intros env args r.
  assert (H : filter (class_chown_any env (11, 1)) (w_events r.1)
    = [EvChown Chown Uid "/a/f" 2000 true; EvChown Chown Gid "/a/f" 3000 true])
    by (vm_compute; reflexivity).
  split; [vm_compute; reflexivity|]. split; [exact H|]. rewrite H. simpl. lia.
Qed.

(** C1, amended.  In every run, for every class (ino, dev) of regular
    files with more than one link, at most one [chown] call is made for the
    uid and at most one for the gid.  This holds for the run of [main] and
    for any sequence of visits by any workers, which adds no such call for a
    class that is already registered.  The first visit registers the pair in
    the hardlink table and is the only one that goes on to the id rewrite; a
    visit that finds the pair registered changes neither an owner nor the
    trace. *)
Theorem hardlink_class_rewritten_once (fuel : nat) (args : arguments)
    (max_openfiles : Z) (env : environment) (o : owners) (k : Z * Z) (dim : id_dim) :
  (length (filter (class_chown env k dim)
             (w_events (chuid_main fuel args max_openfiles env o).1)) ≤ 1)%nat ∧
  (∀ numthr_ visits w w',
     h_ok (w_htab w) → visit_all (config_of args numthr_) env visits w = Some w' →
     (length (filter (class_chown env k dim) (w_events w'))
      ≤ length (filter (class_chown env k dim) (w_events w))
        + if decide (k ∈ h_set (w_htab w)) then 0 else 1)%nat) ∧
  (∀ cfg we d_name pa w d r,
     fs_lstat env !! (name we +:+ "/" +:+ d_name) = Some d → hardlinked d →
     (d_ino d, d_dev d) = k → h_ok (w_htab w) →
     visit_child cfg env we d_name pa w = Some r →
     h_ok (w_htab r.2) ∧ k ∈ h_set (w_htab r.2) ∧
     (k ∈ h_set (w_htab w) →
        w_owners r.2 = w_owners w ∧ w_events r.2 = w_events w) ∧
     (k ∉ h_set (w_htab w) →
        w_owners r.2
        = (rewrite_dentry cfg env Chown "FILE" (name we +:+ "/" +:+ d_name) d
             (w_owners w)).1 ∧
        w_events r.2
        = w_events w
          ++ (rewrite_dentry cfg env Chown "FILE" (name we +:+ "/" +:+ d_name) d
                (w_owners w)).2)).
Proof.
  split; [|split].
  - destruct (chuid_main_split fuel args max_openfiles env)
      as (acts & w0 & s & es0 & es1 & Hok & Hes0 & Hes1 & Hnd & Heq).
    rewrite Heq. set (cfg := config_of args _).
    destruct (chuid_main_cfg_facts args
      (default 0 match arg_t args with
                 | Some n => option_t max_openfiles n
                 | None => Some 20
                 end)) as [Hu Hg].
    assert (Hnone : ∀ es, Forall (λ e, ¬ is_chown e ∧ ¬ is_stdout e) es →
              filter (class_chown env k dim) es = []).
    { intros es Hes. apply (filter_none (class_chown env k dim)).
      intros e He Hc. eapply Forall_forall in Hes as [Hnc _]; [|exact He]. by destruct e. }
    assert (Hle : (length (filter (class_chown env k dim) (replay cfg env acts (o, es0)).2)
                   ≤ 1)%nat).
    { etrans; [apply (replay_class_count cfg env acts k dim (o, es0) Hok Hu Hg)|].
      cbn [snd]. rewrite (Hnone es0 Hes0). simpl. by apply NoDup_filter_eq_length. }
    destruct (undefined _); cbn [fst snd put_oem w_events]; [done|].
    by rewrite filter_app, (Hnone es1 Hes1), app_nil_r.
  - intros numthr_ visits w w' Hok Hv.
    destruct (visit_all_split (config_of args numthr_) env visits w)
      as (acts & r0 & Hacts & Heq & Hh).
    specialize (Heq (w_owners w, w_events w) (w_memory w)). rewrite put_oem_self, Hv in Heq.
    destruct r0 as [w0|]; [|done]. injection Heq as ->.
    destruct (Hh Hok w0 eq_refl) as [[_ Hnd] Hset]. rewrite Hset in Hnd.
    destruct (chuid_main_cfg_facts args numthr_) as [Hu Hg].
    etrans; [apply (replay_class_count _ env acts k dim _ Hacts Hu Hg)|].
    cbn [snd]. apply Nat.add_le_mono_l.
    apply NoDup_app in Hnd as (_ & Hdisj & Hnd).
    destruct (decide (k ∈ h_set (w_htab w))) as [Hin|Hnin].
    + rewrite (filter_none (λ x, x = k) (hl_keys acts)); [done|].
      intros x Hx ->. by apply (Hdisj k).
    + by apply NoDup_filter_eq_length.
  - intros cfg we d_name pa w d r Hd Hh <- Hok Hv.
    by apply (visit_child_hardlinked cfg env we d_name pa w d r).
Qed.

Lemma hardlink_class_rewritten_once_witness :
  let env := Environment
    (list_to_map [("/a", ["."; ".."; "f"; "g"])])
    (list_to_map [("/a", Dentry S_IFDIR 2 10 1); ("/a/f", Dentry S_IFREG 2 11 1);
                  ("/a/g", Dentry S_IFREG 2 11 1)])
    ∅ (λ n, Timeval (Z.of_nat n) 0) in
  let args := Arguments None false false false None
                [(Uid, 1000, 2000); (Gid, 1000, 3000)] ["/a"] [] in
  let we := Queue_element "/a" 0 0 "/a" in
  let w := World (Shared deq_init deq_init 0 1 true) (h_init INIT_MODULE INIT_TAB_SIZE)
                 0 (λ _, (1000, 1000)) [] memory_init in
  ∃ w', visit_all (config_of args 1) env [(we, "f"); (we, "g")] w = Some w' ∧
        (length (filter (class_chown env (11%Z, 1%Z) Uid) (w_events w'))
         ≤ length (filter (class_chown env (11%Z, 1%Z) Uid) (w_events w))
           + if decide ((11%Z, 1%Z) ∈ h_set (w_htab w)) then 0 else 1)%nat.
Proof.
  intros env args we w.
  destruct (visit_all (config_of args 1) env [(we, "f"); (we, "g")] w) as [w'|] eqn:E.
  - exists w'. split; [reflexivity|].
    destruct (hardlink_class_rewritten_once 0 args 1024 env (λ _, (1000, 1000)) (11, 1) Uid)
      as (_ & Hall & _).
    apply (Hall 1 [(we, "f"); (we, "g")] w w'); [|exact E].
    split; [apply h_init_wf; unfold INIT_MODULE, INIT_TAB_SIZE; lia|]. apply NoDup_nil_2.
  - vm_compute in E. discriminate E.
Defined.

(** *** Running twice *)













(** The owners of the witness after the first and after the second run. *)
Example second_run_same_owner :
  let env := Environment
    (list_to_map [("/a", ["."; ".."; "f"])])
    (list_to_map [("/a", Dentry S_IFDIR 2 10 1); ("/a/f", Dentry S_IFREG 1 11 1)])
    ∅ (λ n, Timeval (Z.of_nat n) 0) in
  let args := Arguments None false false false None
                [(Uid, 1000, 2000); (Gid, 1000, 3000)] ["/a"] [] in
  let r1 := chuid_main 10 args 1024 env (λ _, (1000, 1000)) in
  let r2 := chuid_main 10 args 1024 env (w_owners r1.1) in
  r1.2 = Finished ∧ w_owners r1.1 (11, 1) = (2000, 3000) ∧
  w_owners r2.1 (11, 1) = (2000, 3000).
Proof. vm_compute. done. Qed.
(** *** The roots *)

(** A replay only adds to the trace. *)
Lemma replay_events_prefix cfg env acts : ∀ oe,
  ∃ es, (replay cfg env acts oe).2 = oe.2 ++ es.
Proof.
  induction acts as [|a acts IH]; intros oe.
  - exists []. by rewrite app_nil_r.
  - rewrite replay_cons. destruct (IH (perform cfg env oe a)) as [es ->].
    destruct a as [es1|call tag path d| |]; simpl.
    + exists (es1 ++ es). by rewrite app_assoc.
    + destruct (rewrite_dentry cfg env call tag path d oe.1) as [o' es1]. simpl.
      exists (es1 ++ es). by rewrite app_assoc.
    + by exists es.
    + by exists es.
Qed.

(** The workers only add to the trace. *)
Lemma handle_subtree_events_prefix fuel cfg env w :
  ∃ es, w_events (handle_subtree fuel cfg env w).1 = w_events w ++ es.
Proof.
  destruct (handle_subtree_split cfg env fuel w) as (acts & w0 & s & _ & Heq & _).
  specialize (Heq (w_owners w, w_events w) (w_memory w)). rewrite put_oem_self in Heq.
  rewrite Heq. cbn [fst w_events put_oem].
  apply (replay_events_prefix cfg env acts (w_owners w, w_events w)).
Qed.

Lemma main_exit_events_prefix r : ∃ es, w_events (main_exit r).1 = w_events r.1 ++ es.
Proof.
  unfold main_exit. destruct (undefined _); [exists []; by rewrite app_nil_r|].
  destruct r as [w []]; simpl; eauto; exists []; by rewrite app_nil_r.
Qed.

(** C9.  [chuid_main] tries every root of the list with [lstat] before a
    worker exists.  With a valid number of threads and a root list that is
    not empty, the trace of the run starts with one WARNING record for each
    root that [lstat] refuses, in the order of the list.  If [lstat] refuses
    every root, the run is [stopped] with exactly these records, the line on
    stderr and [exit (EXIT_FAILURE)]: no thread is created, and nothing is
    changed.  Otherwise the workers start from the world whose fast queue
    holds the accepted roots, and only these, in the order of the list, with
    an empty slow queue, and the thread creations follow the WARNING records
    in the trace. *)
Theorem roots_checked_before_seeding (fuel : nat) (args : arguments) (max_openfiles : Z)
    (env : environment) (o : owners) (numthr_ : Z) :
  match arg_t args with Some n => option_t max_openfiles n | None => Some 20 end
  = Some numthr_ →
  begin_fs_list (config_of args numthr_) ≠ [] →
  let cfg := config_of args numthr_ in
  let accepted := filter (λ r, is_Some (fs_lstat env !! r)) (begin_fs_list cfg) in
  let warnings := (λ r, EvLog WARNING "couldn't stat" (Some r))
                    <$> filter (λ r, ¬ is_Some (fs_lstat env !! r)) (begin_fs_list cfg) in
  let threads := EvThreadCreate <$> seq 0 (Z.to_nat numthr_) in
  let w0 := World (Shared (Queue_anchor 0 ((λ r, Queue_element r 0 0 r) <$> accepted))
                     deq_init 0 0 true)
              (h_init INIT_MODULE INIT_TAB_SIZE) 0 o (warnings ++ threads) memory_init in
  let r := chuid_main fuel args max_openfiles env o in
  (accepted = [] →
     r = stopped o (warnings ++ [EvStderr "ERROR: No valid files systems to work on!";
                                 EvExit EXIT_FAILURE]) ∧
     ∀ tid, EvThreadCreate tid ∉ w_events r.1) ∧
  (accepted ≠ [] →
     r = main_exit (if decide (0 < numthr_) then handle_subtree fuel cfg env w0
                    else (w0, Finished)) ∧
     ∃ es, w_events r.1 = warnings ++ threads ++ es).
Proof.
  intros Hn Hroots cfg accepted warnings threads w0 r.
  assert (Hacc : filter (λ r, is_Some (lstat env o r)) (begin_fs_list cfg) = accepted).
  { apply list_filter_iff. intros x. apply lstat_is_Some. }
  assert (Hwarn : (λ r, EvLog WARNING "couldn't stat" (Some r))
                    <$> filter (λ r, ¬ is_Some (lstat env o r)) (begin_fs_list cfg)
                  = warnings).
  { unfold warnings. f_equal. apply list_filter_iff. intros x.
    by rewrite lstat_is_Some. }
  assert (Hrun : r = match accepted with
                     | [] => stopped o (warnings ++
                               [EvStderr "ERROR: No valid files systems to work on!";
                                EvExit EXIT_FAILURE])
                     | _ :: _ => main_exit (if decide (0 < numthr_)
                                            then handle_subtree fuel cfg env w0
                                            else (w0, Finished))
                     end).
  { unfold r, chuid_main. rewrite Hn. fold cfg.
    destruct (begin_fs_list cfg) as [|r0 roots] eqn:Er; [done|]. rewrite <- Er in *.
    rewrite seed_roots_spec, Hacc, Hwarn. cbn [elems speed deq_init app].
    unfold w0. by destruct accepted. }
  rewrite Hrun. clear Hrun.
  assert (Hev : w_events w0 = warnings ++ threads) by done.
  clearbody w0. destruct accepted as [|a0 acc].
  - split; [|done]. intros _. split; [done|].
    intros tid Hin. cbn [stopped fst w_events] in Hin.
    apply elem_of_app in Hin as [Hin|Hin].
    + apply list_elem_of_fmap in Hin as (x & Hx & _). discriminate.
    + repeat (apply elem_of_cons in Hin as [Hin|Hin]; [discriminate|]).
      by apply elem_of_nil in Hin.
  - split; [done|]. intros _. split; [done|].
    destruct (main_exit_events_prefix
                (if decide (0 < numthr_) then handle_subtree fuel cfg env w0
                 else (w0, Finished))) as [es1 ->].
    destruct (decide (0 < numthr_)).
    + destruct (handle_subtree_events_prefix fuel cfg env w0) as [es2 ->].
      exists (es2 ++ es1). rewrite Hev. by rewrite <- !app_assoc.
    + exists es1. cbn [fst]. rewrite Hev. by rewrite <- !app_assoc.
Qed.

Lemma roots_checked_before_seeding_witness :
  let env := Environment
    (list_to_map [("/a", ["."; ".."; "f"])])
    (list_to_map [("/a", Dentry S_IFDIR 2 10 1); ("/a/f", Dentry S_IFREG 1 11 1)])
    ∅ (λ n, Timeval (Z.of_nat n) 0) in
  let args := Arguments (Some 2) false false false None
                [(Uid, 1000, 2000)] ["/gone"; "/a"; "/lost"] [] in
  let r := chuid_main 10 args 1024 env (λ _, (1000, 1000)) in
  ∃ es, w_events r.1
        = [EvLog WARNING "couldn't stat" (Some "/gone");
           EvLog WARNING "couldn't stat" (Some "/lost")]
          ++ [EvThreadCreate 0%nat; EvThreadCreate 1%nat] ++ es.
Proof.
  intros env args r.
  pose proof (roots_checked_before_seeding 10 args 1024 env (λ _, (1000, 1000)) 2) as H.
  cbv zeta in H.
  destruct H as [_ H]; [reflexivity|discriminate|].
  destruct H as [_ H]; [discriminate|]. exact H.
Defined.

(** The run of the witness when [lstat] refuses both roots. *)
Example no_root_accepted :
  let env := Environment ∅ ∅ ∅ (λ n, Timeval (Z.of_nat n) 0) in
  let args := Arguments (Some 2) false false false None
                [(Uid, 1000, 2000)] ["/gone"; "/lost"] [] in
  chuid_main 10 args 1024 env (λ _, (1000, 1000))
  = stopped (λ _, (1000, 1000))
      [EvLog WARNING "couldn't stat" (Some "/gone");
       EvLog WARNING "couldn't stat" (Some "/lost");
       EvStderr "ERROR: No valid files systems to work on!"; EvExit EXIT_FAILURE].
Proof. reflexivity. Qed.

(** ** queue.c: the pointer code and the list model *)

Section QueueChains.
#[local] Abbreviation list_put := deq_put.
#[local] Abbreviation list_push := deq_push.
#[local] Abbreviation list_get := deq_get.
#[local] Abbreviation list_append := deq_append.
#[local] Abbreviation list_prepend := deq_prepend.
Import QueueC.
Implicit Types (h : heap) (ns : list nat) (p q : option nat).

Lemma lseg_frame h h' ns : ∀ p q,
  (∀ n, n ∈ ns → h' !! n = h !! n) → lseg h p ns q → lseg h' p ns q.
Proof.
  induction ns as [|n ns IH]; intros p q Hsame; simpl; [done|].
  intros (-> & c & Hc & Hrest). split; [done|]. exists c. split.
  - rewrite Hsame; [done|left].
  - apply IH; [|done]. intros m Hm. apply Hsame. by right.
Qed.

Lemma lseg_app h ns1 ns2 : ∀ p q r,
  lseg h p ns1 q → lseg h q ns2 r → lseg h p (ns1 ++ ns2) r.
Proof.
  induction ns1 as [|n ns1 IH]; intros p q r; simpl.
  - by intros ->.
  - intros (-> & c & Hc & Hrest) H2. split; [done|]. exists c. split; [done|].
    by eapply IH.
Qed.

Lemma lseg_snoc h ns l : ∀ p q,
  lseg h p (ns ++ [l]) q ↔ ∃ c, lseg h p ns (Some l) ∧ h !! l = Some c ∧ c_next c = q.
Proof.
  induction ns as [|n ns IH]; intros p q; simpl.
  - split.
    + intros (-> & c & Hc & <-). by exists c.
    + intros (c & -> & Hc & <-). split; [done|]. by exists c.
  - split.
    + intros (-> & c & Hc & Hrest). apply IH in Hrest as (c' & ? & ? & ?).
      exists c'. split; [|done]. split; [done|]. by exists c.
    + intros (c' & (-> & c & Hc & Hrest) & Hl & Hq). split; [done|].
      exists c. split; [done|]. apply IH. by exists c'.
Qed.

Lemma lseg_lookup h ns : ∀ p q n, lseg h p ns q → n ∈ ns → is_Some (h !! n).
Proof.
  induction ns as [|m ns IH]; intros p q n; simpl; [by intros _ ?%elem_of_nil|].
  intros (-> & c & Hc & Hrest) [->|Hn]%elem_of_cons; [by exists c|]. by eapply IH.
Qed.

Lemma contents_cons h n ns :
  contents h (n :: ns)
  = match c_elem <$> h !! n with
    | Some e => e :: contents h ns
    | None => contents h ns
    end.
Proof. done. Qed.

Lemma contents_frame h h' ns :
  (∀ n, n ∈ ns → c_elem <$> h' !! n = c_elem <$> h !! n) →
  contents h' ns = contents h ns.
Proof.
  induction ns as [|n ns IH]; intros Hsame; [done|].
  rewrite !contents_cons, (Hsame n) by left.
  rewrite IH; [done|]. intros m Hm. apply Hsame. by right.
Qed.

Lemma contents_app h ns1 ns2 : contents h (ns1 ++ ns2) = contents h ns1 ++ contents h ns2.
Proof. unfold contents. apply omap_app. Qed.

Lemma contents_singleton h n c : h !! n = Some c → contents h [n] = [c_elem c].
Proof. intros Hc. unfold contents. simpl. by rewrite Hc. Qed.

Lemma set_next_payload h l nx h' :
  set_next h l nx = Some h' → ∀ m, c_elem <$> h' !! m = c_elem <$> h !! m.
Proof.
  unfold set_next. destruct (h !! l) as [c|] eqn:Hl; [|done]. intros [= <-] m.
  destruct (decide (m = l)) as [->|Hne].
  - by rewrite lookup_insert_eq, Hl.
  - by rewrite lookup_insert_ne.
Qed.



Lemma NoDup_snoc (ns : list nat) (n : nat) : NoDup ns → n ∉ ns → NoDup (ns ++ [n]).
Proof.
  intros Hnd Hn. apply NoDup_app. split; [done|]. split; [|apply NoDup_singleton].
  intros x Hx ->%list_elem_of_singleton. done.
Qed.

Lemma insert_payload h l (c : cell) nx :
  h !! l = Some c →
  ∀ m, c_elem <$> <[l := Cell (c_elem c) nx]> h !! m = c_elem <$> h !! m.
Proof.
  intros Hl m. destruct (decide (m = l)) as [->|?].
  - by rewrite lookup_insert_eq, Hl.
  - by rewrite lookup_insert_ne.
Qed.

Lemma deq_put_spec (v : bool) h a ns q n c :
  is_deq_to h a ns q → h !! n = Some c → n ∉ ns →
  Z.of_nat (length ns) < LONG_MAX →
  ∃ h' a',
    QueueC.deq_put v h a (Some n) = Ok (h', a', []) ∧
    is_deq_to h' a' (ns ++ [n]) (c_next c) ∧
    abstract h' a' (ns ++ [n]) = list_put (abstract h a ns) (Some (c_elem c)) ∧
    (∀ m, c_elem <$> h' !! m = c_elem <$> h !! m) ∧
    (∀ m, m ∉ ns → h' !! m = h !! m).
Proof.
  intros (Hcnt & Hnd & Hseg & Hlast) Hc Hn Hlen.
  unfold QueueC.deq_put.
  destruct (decide (0 < element_counter a)) as [Hpos|Hpos].
  - destruct (decide (ns = [])) as [->|Hne]; [simpl in *; lia|].
    destruct (exists_last Hne) as (ns' & l & ->).
    rewrite (Hlast ns' l eq_refl).
    apply lseg_snoc in Hseg as (cl & Hseg & Hl & _).
    unfold set_next. rewrite Hl. rewrite decide_True by lia.
    assert (Hnl : n ≠ l). { intros ->. apply Hn. apply elem_of_app. right. left. }
    assert (Hl' : l ∉ ns').
    { apply NoDup_app in Hnd as (_ & Hd & _). intros ?. eapply Hd; [done|left]. }
    eexists _, _. split; [done|]. split_and!.
    + split_and!; simpl.
      * rewrite !length_app in *. simpl in *. lia.
      * by apply NoDup_snoc.
      * apply lseg_snoc. exists c. split_and!; [|by rewrite lookup_insert_ne|done].
        apply lseg_snoc. eexists. split_and!; [|apply lookup_insert_eq|done].
        eapply lseg_frame; [|done]. intros m Hm. rewrite lookup_insert_ne; [done|].
        by intros <-.
      * intros ns0 l0 [_ [= <-]]%app_inj_tail. done.
    + unfold abstract, list_put. simpl. f_equal.
      rewrite (contents_app _ (ns' ++ [l]) [n]). f_equal.
      * apply contents_frame. intros m _. by apply insert_payload.
      * apply contents_singleton. by rewrite lookup_insert_ne.
    + by apply insert_payload.
    + intros m Hm. rewrite lookup_insert_ne; [done|]. intros <-.
      apply Hm, elem_of_app. right. left.
  - assert (ns = []) as -> by (destruct ns; [done|simpl in *; lia]).
    rewrite decide_True by lia.
    eexists _, _. split; [done|]. split_and!; try done.
    + split_and!; simpl; [lia|apply NoDup_singleton| |].
      * split; [done|]. by exists c.
      * intros ns0 l0 Heq. change [n] with ([] ++ [n]) in Heq.
        by apply app_inj_tail in Heq as [_ <-].
    + unfold abstract, list_put. simpl. f_equal.
      by apply contents_singleton.
Qed.

Lemma deq_push_spec (v : bool) h a ns q n c :
  is_deq_to h a ns q → h !! n = Some c → n ∉ ns →
  Z.of_nat (length ns) < LONG_MAX →
  ∃ h' a',
    QueueC.deq_push v h a (Some n) = Ok (h', a', []) ∧
    is_deq_to h' a' (n :: ns) (if decide (ns = []) then c_next c else q) ∧
    abstract h' a' (n :: ns) = list_push (abstract h a ns) (Some (c_elem c)) ∧
    (∀ m, c_elem <$> h' !! m = c_elem <$> h !! m) ∧
    (∀ m, m ≠ n → h' !! m = h !! m).
Proof.
  intros (Hcnt & Hnd & Hseg & Hlast) Hc Hn Hlen.
  unfold QueueC.deq_push.
  destruct (decide (0 < element_counter a)) as [Hpos|Hpos].
  - destruct (decide (ns = [])) as [->|Hne]; [simpl in *; lia|].
    unfold set_next. rewrite Hc. rewrite decide_True by lia.
    eexists _, _. split; [done|]. split_and!.
    + split_and!; simpl.
      * lia.
      * by apply NoDup_cons.
      * split; [done|]. eexists. split; [apply lookup_insert_eq|]. simpl.
        eapply lseg_frame; [|done]. intros m Hm. rewrite lookup_insert_ne; [done|].
        by intros <-.
      * intros ns0 l0 Heq. destruct (exists_last Hne) as (ns' & l & ->).
        rewrite (Hlast ns' l eq_refl). f_equal.
        change (n :: ns' ++ [l]) with ((n :: ns') ++ [l]) in Heq.
        by apply app_inj_tail in Heq as [_ ->].
    + unfold abstract, list_push. cbn [elems]. f_equal. rewrite contents_cons.
      rewrite lookup_insert_eq. simpl. f_equal.
      apply contents_frame. intros m _. by apply insert_payload.
    + by apply insert_payload.
    + intros m Hm. by rewrite lookup_insert_ne.
  - assert (ns = []) as -> by (destruct ns; [done|simpl in *; lia]).
    rewrite decide_True by lia.
    eexists _, _. split; [done|]. split_and!; try done.
    + split_and!; simpl; [lia|apply NoDup_singleton| |].
      * split; [done|]. by exists c.
      * intros ns0 l0 Heq. change [n] with ([] ++ [n]) in Heq.
        by apply app_inj_tail in Heq as [_ <-].
    + unfold abstract, list_push. simpl. f_equal.
      by apply contents_singleton.
Qed.

Lemma deq_get_spec (v : bool) h a n ns q :
  is_deq_to h a (n :: ns) q →
  ∃ c a',
    h !! n = Some c ∧
    QueueC.deq_get v h (Some a)
    = Ok (<[n := Cell (c_elem c) None]> h, a', Some n, []) ∧
    is_deq_to (<[n := Cell (c_elem c) None]> h) a' ns q ∧
    (ns = [] → last a' = None) ∧
    list_get (abstract h a (n :: ns))
    = (Some (c_elem c), abstract (<[n := Cell (c_elem c) None]> h) a' ns).
Proof.
  intros (Hcnt & Hnd & (Hfirst & c & Hc & Hseg) & Hlast).
  apply NoDup_cons in Hnd as [Hn Hnd].
  unfold QueueC.deq_get. simpl in Hcnt.
  rewrite decide_True by lia. rewrite Hfirst, Hc.
  exists c. eexists. split; [done|]. split; [done|]. split_and!.
  - split_and!; simpl.
    + lia.
    + done.
    + eapply lseg_frame; [|done]. intros m Hm. rewrite lookup_insert_ne; [done|].
      by intros <-.
    + intros ns' l ->. rewrite decide_False.
      * apply (Hlast (n :: ns') l). done.
      * rewrite Hcnt, length_app. simpl. lia.
  - intros ->. simpl. rewrite decide_True; [done|]. rewrite Hcnt. simpl. lia.
  - unfold abstract, list_get. cbn [elems]. rewrite contents_cons, Hc. simpl. do 2 f_equal.
    symmetry. apply contents_frame. intros m _. by apply insert_payload.
Qed.

Lemma contents_length h ns : ∀ p q, lseg h p ns q → length (contents h ns) = length ns.
Proof.
  induction ns as [|n ns IH]; intros p q; [done|]. cbn [lseg].
  intros (-> & c & Hc & Hrest). rewrite contents_cons, Hc. simpl. f_equal. by eapply IH.
Qed.

Lemma NoDup_disjoint_app (l1 l2 : list nat) :
  NoDup l1 → NoDup l2 → (∀ x, x ∈ l1 → x ∉ l2) → NoDup (l1 ++ l2).
Proof. intros ???. by apply NoDup_app. Qed.

Lemma deq_append_spec h g loc gs ls qg ql :
  is_deq_to h g gs qg → is_deq_to h loc ls ql → (∀ x, x ∈ gs → x ∉ ls) →
  Z.of_nat (length gs) + Z.of_nat (length ls) ≤ LONG_MAX →
  ∃ h' g',
    QueueC.deq_append h g (Some loc) = Ok (h', g', Some QueueC.deq_init) ∧
    is_deq_to h' g' (gs ++ ls) (if decide (ls = []) then qg else ql) ∧
    (abstract h' g' (gs ++ ls), abstract h' QueueC.deq_init [])
    = list_append (abstract h g gs) (abstract h loc ls) ∧
    (∀ m, c_elem <$> h' !! m = c_elem <$> h !! m) ∧
    (∀ m, m ∉ gs → h' !! m = h !! m).
Proof.
  intros (Hcg & Hndg & Hsegg & Hlastg) (Hcl & Hndl & Hsegl & Hlastl) Hdisj Hlen.
  pose proof (contents_length _ _ _ _ Hsegl) as Hlenl.
  unfold QueueC.deq_append.
  destruct (decide (ls = [])) as [->|Hls].
  { rewrite decide_False by (simpl in *; lia).
    exists h, g. rewrite app_nil_r. split; [done|]. split_and!; try done.
    all: try by unfold abstract, list_append, element_counter. }
  rewrite decide_True by (destruct ls; [done|simpl in *; lia]).
  destruct (exists_last Hls) as (ls' & l1 & ->).
  assert (Hcount : 0 < Z.of_nat (length (contents h (ls' ++ [l1])))).
  { rewrite Hlenl, length_app. simpl. lia. }
  assert (Hlast' : ∀ ns0 l0, gs ++ ls' ++ [l1] = ns0 ++ [l0] → last loc = Some l0).
  { intros ns0 l0 Heq. rewrite app_assoc in Heq.
    apply app_inj_tail in Heq as [_ <-]. by apply (Hlastl ls'). }
  destruct (decide (gs = [])) as [->|Hgs].
  - rewrite decide_False by (simpl in *; lia).
    rewrite decide_True by lia. rewrite decide_False by (simpl in *; lia).
    eexists _, _. split; [done|]. split_and!; try done.
    + split_and!; simpl; [simpl in *; lia|done|done|done].
    + unfold abstract, list_append, element_counter. cbn [elems].
      rewrite decide_True by done. done.
  - rewrite decide_True by (destruct gs; [done|simpl in *; lia]).
    destruct (exists_last Hgs) as (gs' & l & ->).
    rewrite (Hlastg gs' l eq_refl).
    apply lseg_snoc in Hsegg as (cl & Hsegg & Hl & _).
    unfold set_next. rewrite Hl. rewrite decide_True by lia.
    rewrite decide_True by (destruct gs'; simpl in *; lia).
    assert (Hl' : l ∉ gs').
    { apply NoDup_app in Hndg as (_ & Hd & _). intros ?. eapply Hd; [done|left]. }
    assert (Hl2 : l ∉ ls' ++ [l1]). { apply Hdisj, elem_of_app. right. left. }
    eexists _, _. split; [done|]. split_and!.
    + split_and!; cbn [QueueC.element_counter QueueC.first QueueC.last].
      * rewrite !length_app in *. simpl in *. lia.
      * by apply NoDup_disjoint_app.
      * eapply lseg_app.
        -- apply lseg_snoc. eexists. split_and!; [|apply lookup_insert_eq|done].
           eapply lseg_frame; [|done]. intros m Hm. rewrite lookup_insert_ne; [done|].
           by intros <-.
        -- eapply lseg_frame; [|done]. intros m Hm. rewrite lookup_insert_ne; [done|].
           by intros <-.
      * intros ns0 l0 Heq. by eapply Hlast'.
    + unfold abstract, list_append, element_counter. cbn [elems speed QueueC.speed].
      rewrite decide_True by done. f_equal. f_equal.
      rewrite contents_app. f_equal; apply contents_frame; intros m _;
        by apply insert_payload.
    + by apply insert_payload.
    + intros m Hm. rewrite lookup_insert_ne; [done|]. intros <-.
      apply Hm, elem_of_app. right. left.
Qed.

Lemma deq_prepend_spec h g loc gs ls qg ql :
  is_deq_to h g gs qg → is_deq_to h loc ls ql → (∀ x, x ∈ gs → x ∉ ls) →
  Z.of_nat (length gs) + Z.of_nat (length ls) ≤ LONG_MAX →
  ∃ h' g',
    QueueC.deq_prepend h g (Some loc) = Ok (h', g', Some QueueC.deq_init) ∧
    is_deq_to h' g' (ls ++ gs)
      (if decide (ls = []) then qg else if decide (gs = []) then ql else qg) ∧
    (abstract h' g' (ls ++ gs), abstract h' QueueC.deq_init [])
    = list_prepend (abstract h g gs) (abstract h loc ls) ∧
    (∀ m, c_elem <$> h' !! m = c_elem <$> h !! m) ∧
    (∀ m, m ∉ ls → h' !! m = h !! m).
Proof.
  intros (Hcg & Hndg & Hsegg & Hlastg) (Hcl & Hndl & Hsegl & Hlastl) Hdisj Hlen.
  pose proof (contents_length _ _ _ _ Hsegl) as Hlenl.
  unfold QueueC.deq_prepend.
  destruct (decide (ls = [])) as [->|Hls].
  { rewrite decide_False by (simpl in *; lia).
    exists h, g. split; [done|]. split_and!; try done.
    all: try by unfold abstract, list_prepend, element_counter. }
  rewrite decide_True by (destruct ls; [done|simpl in *; lia]).
  assert (Hcount : 0 < Z.of_nat (length (contents h ls))).
  { rewrite Hlenl. destruct ls; [done|simpl; lia]. }
  destruct (decide (gs = [])) as [->|Hgs].
  - rewrite decide_False by (simpl in *; lia).
    rewrite decide_True by lia. rewrite decide_False by (simpl in *; lia).
    rewrite app_nil_r.
    eexists _, _. split; [done|]. split_and!; try done.
    + split_and!; simpl; [simpl in *; lia|done|done|done].
    + unfold abstract, list_prepend, element_counter. cbn [elems].
      rewrite decide_True by done. by rewrite app_nil_r.
  - rewrite decide_True by (destruct gs; [done|simpl in *; lia]).
    destruct (exists_last Hls) as (ls' & l & ->).
    rewrite (Hlastl ls' l eq_refl).
    apply lseg_snoc in Hsegl as (cl & Hsegl & Hl & _).
    unfold set_next. rewrite Hl. rewrite decide_True by lia.
    rewrite decide_True by (destruct gs; [done|simpl in *; lia]).
    assert (Hl' : l ∉ ls').
    { apply NoDup_app in Hndl as (_ & Hd & _). intros ?. eapply Hd; [done|left]. }
    assert (Hl2 : l ∉ gs).
    { intros Hin. apply (Hdisj l Hin), elem_of_app. right. left. }
    eexists _, _. split; [done|]. split_and!.
    + split_and!; cbn [QueueC.element_counter QueueC.first QueueC.last].
      * rewrite !length_app in *. simpl in *. lia.
      * apply NoDup_disjoint_app; [done|done|]. intros x Hx Hg. by apply (Hdisj x Hg).
      * eapply lseg_app.
        -- apply lseg_snoc. eexists. split_and!; [|apply lookup_insert_eq|done].
           eapply lseg_frame; [|done]. intros m Hm. rewrite lookup_insert_ne; [done|].
           by intros <-.
        -- eapply lseg_frame; [|done]. intros m Hm. rewrite lookup_insert_ne; [done|].
           by intros <-.
      * intros ns0 l0 Heq. destruct (exists_last Hgs) as (gs' & l1 & ->).
        rewrite (Hlastg gs' l1 eq_refl). f_equal.
        rewrite app_assoc in Heq. by apply app_inj_tail in Heq as [_ ->].
    + unfold abstract, list_prepend, element_counter. cbn [elems speed QueueC.speed].
      rewrite decide_True by done. f_equal. f_equal.
      rewrite contents_app. f_equal; apply contents_frame; intros m _;
        by apply insert_payload.
    + by apply insert_payload.
    + intros m Hm. rewrite lookup_insert_ne; [done|]. intros <-.
      apply Hm, elem_of_app. right. left.
Qed.

End QueueChains.

Lemma last_snoc_eq (ns ns' : list nat) (l x : nat) :
  last ns = Some x → ns = ns' ++ [l] → Some x = Some l.
Proof. intros Hl ->. by rewrite last_snoc in Hl. Qed.

(** Queues in a given heap. *)
Ltac solve_deq :=
  unfold QueueC.is_tidy, QueueC.is_deq_to; simpl;
  repeat first
    [ done | lia | by apply (bool_decide_unpack _)
    | by (intros ns' l Heq; eapply last_snoc_eq; [|exact Heq]; reflexivity)
    | by (intros ns' l Heq; by destruct ns')
    | split | eexists ].

(** X1.  [deq_put] on a queue of the cells [ns] and a cell [n] that is
    not in it links [n] behind the last cell: the queue is then
    [ns ++ [n]], which in the list model is [deq_put] of the element of [n].
    No element changes and no cell outside [ns] is written (only the [next]
    of the former last cell is).  A NULL element leaves everything as it
    is. *)
Theorem deq_put_appends_cell (v : bool) (h : QueueC.heap) (a : QueueC.anchor)
    (ns : list nat) (n : nat) (c : QueueC.cell) :
  QueueC.is_deq h a ns → h !! n = Some c → n ∉ ns →
  Z.of_nat (length ns) < LONG_MAX →
  (∃ h' a',
     QueueC.deq_put v h a (Some n) = QueueC.Ok (h', a', []) ∧
     QueueC.is_deq h' a' (ns ++ [n]) ∧
     QueueC.abstract h' a' (ns ++ [n])
     = deq_put (QueueC.abstract h a ns) (Some (QueueC.c_elem c)) ∧
     (∀ m, QueueC.c_elem <$> h' !! m = QueueC.c_elem <$> h !! m) ∧
     (∀ m, m ∉ ns → h' !! m = h !! m)) ∧
  QueueC.deq_put v h a None
  = QueueC.Ok (h, a, if v then ["INFO: New element = NULL!"] else []).
Proof.
  intros [q Hq] Hc Hn Hlen. split; [|done].
  destruct (deq_put_spec v h a ns q n c Hq Hc Hn Hlen) as (h' & a' & Hr & Hq' & Habs & Hp & Hf).
  exists h', a'. split_and!; try done. by exists (QueueC.c_next c).
Qed.

Lemma deq_put_appends_cell_witness :
  let e := Queue_element "/a" 0 0 "/a" in
  let h : QueueC.heap :=
    <[1%nat := QueueC.Cell e (Some 2%nat)]>
      (<[2%nat := QueueC.Cell e None]> (<[3%nat := QueueC.Cell e (Some 1%nat)]> ∅)) in
  let a := QueueC.Anchor 2 0 (Some 2%nat) (Some 1%nat) in
  ∃ h' a', QueueC.deq_put false h a (Some 3%nat) = QueueC.Ok (h', a', []) ∧
           QueueC.is_deq h' a' [1; 2; 3]%nat.
Proof.
  intros e h a.
  destruct (deq_put_appends_cell false h a [1; 2]%nat 3%nat (QueueC.Cell e (Some 1%nat)))
    as [(h' & a' & Hr & Hq & _) _].
  - exists None. solve_deq.
  - done.
  - by apply (bool_decide_unpack _).
  - unfold LONG_MAX. simpl. lia.
  - by exists h', a'.
Defined.

(** X2.  [deq_push] links a cell [n] that is not in the queue in front of
    the first cell: the queue is then [n :: ns], which in the list model is
    [deq_push] of the element of [n].  Only the cell [n] itself is written;
    no element changes.  A NULL element leaves everything as it is. *)
Theorem deq_push_prepends_cell (v : bool) (h : QueueC.heap) (a : QueueC.anchor)
    (ns : list nat) (n : nat) (c : QueueC.cell) :
  QueueC.is_deq h a ns → h !! n = Some c → n ∉ ns →
  Z.of_nat (length ns) < LONG_MAX →
  (∃ h' a',
     QueueC.deq_push v h a (Some n) = QueueC.Ok (h', a', []) ∧
     QueueC.is_deq h' a' (n :: ns) ∧
     QueueC.abstract h' a' (n :: ns)
     = deq_push (QueueC.abstract h a ns) (Some (QueueC.c_elem c)) ∧
     (∀ m, QueueC.c_elem <$> h' !! m = QueueC.c_elem <$> h !! m) ∧
     (∀ m, m ≠ n → h' !! m = h !! m)) ∧
  QueueC.deq_push v h a None
  = QueueC.Ok (h, a, if v then ["INFO: New element = NULL!"] else []).
Proof.
  intros [q Hq] Hc Hn Hlen. split; [|done].
  destruct (deq_push_spec v h a ns q n c Hq Hc Hn Hlen) as (h' & a' & Hr & Hq' & Habs & Hp & Hf).
  exists h', a'. split_and!; try done. by eexists.
Qed.

Lemma deq_push_prepends_cell_witness :
  let e := Queue_element "/a" 0 0 "/a" in
  let h : QueueC.heap :=
    <[1%nat := QueueC.Cell e (Some 2%nat)]>
      (<[2%nat := QueueC.Cell e None]> (<[3%nat := QueueC.Cell e None]> ∅)) in
  let a := QueueC.Anchor 2 0 (Some 2%nat) (Some 1%nat) in
  ∃ h' a', QueueC.deq_push false h a (Some 3%nat) = QueueC.Ok (h', a', []) ∧
           QueueC.is_deq h' a' [3; 1; 2]%nat.
Proof.
  intros e h a.
  destruct (deq_push_prepends_cell false h a [1; 2]%nat 3%nat (QueueC.Cell e None))
    as [(h' & a' & Hr & Hq & _) _].
  - exists None. solve_deq.
  - done.
  - by apply (bool_decide_unpack _).
  - unfold LONG_MAX. simpl. lia.
  - by exists h', a'.
Defined.

(** X3.  [deq_get] on a queue with the cells [n :: rest] returns [n],
    clears its [next] and leaves the queue [rest], as [deq_get] of the list
    model does; on an empty queue it returns NULL and changes nothing; on a
    NULL anchor it ends the program with [EXIT_FAILURE]. *)
Theorem deq_get_takes_first_cell (v : bool) (h : QueueC.heap) (a : QueueC.anchor)
    (ns : list nat) :
  QueueC.is_deq h a ns →
  match ns with
  | [] =>
      QueueC.deq_get v h (Some a)
      = QueueC.Ok (h, a, None, if v then ["INFO: No elements in queue!"] else []) ∧
      deq_get (QueueC.abstract h a []) = (None, QueueC.abstract h a [])
  | n :: rest =>
      ∃ c a',
        h !! n = Some c ∧
        QueueC.deq_get v h (Some a)
        = QueueC.Ok (<[n := QueueC.Cell (QueueC.c_elem c) None]> h, a', Some n, []) ∧
        QueueC.is_deq (<[n := QueueC.Cell (QueueC.c_elem c) None]> h) a' rest ∧
        deq_get (QueueC.abstract h a (n :: rest))
        = (Some (QueueC.c_elem c),
           QueueC.abstract (<[n := QueueC.Cell (QueueC.c_elem c) None]> h) a' rest)
  end ∧
  QueueC.deq_get v h None = QueueC.Exit "WARNING: No queue at all..." EXIT_FAILURE.
Proof.
  intros [q Hq]. split; [|done]. destruct ns as [|n rest].
  - destruct Hq as (Hcnt & _). unfold QueueC.deq_get.
    rewrite decide_False by (simpl in Hcnt; lia). done.
  - destruct (deq_get_spec v h a n rest q Hq) as (c & a' & Hc & Hr & Hq' & _ & Habs).
    exists c, a'. split_and!; try done. by exists q.
Qed.

Lemma deq_get_takes_first_cell_witness :
  let e1 := Queue_element "/a" 0 0 "/a" in
  let e2 := Queue_element "/b" 0 0 "/b" in
  let h : QueueC.heap :=
    <[1%nat := QueueC.Cell e1 (Some 2%nat)]> (<[2%nat := QueueC.Cell e2 None]> ∅) in
  let a := QueueC.Anchor 2 0 (Some 2%nat) (Some 1%nat) in
  ∃ c a',
    QueueC.deq_get false h (Some a)
    = QueueC.Ok (<[1%nat := QueueC.Cell (QueueC.c_elem c) None]> h, a', Some 1%nat, []) ∧
    QueueC.c_elem c = e1 ∧
    QueueC.is_deq (<[1%nat := QueueC.Cell (QueueC.c_elem c) None]> h) a' [2%nat].
Proof.
  intros e1 e2 h a.
  destruct (deq_get_takes_first_cell false h a [1; 2]%nat) as [(c & a' & Hc & Hr & Hq & _) _].
  - exists None. solve_deq.
  - exists c, a'. split_and!; [done| |done]. by injection Hc as <-.
Defined.

(** X4.  [deq_append] moves the cells of [local] behind those of
    [global]: the queue is then [gs ++ ls] and [local] is reset to the state
    [deq_init] gives, as in the list model; the speed of [global] is kept.
    No element changes and no cell outside [gs] is written.  A NULL [local]
    changes nothing. *)
Theorem deq_append_concatenates (h : QueueC.heap) (g loc : QueueC.anchor)
    (gs ls : list nat) :
  QueueC.is_deq h g gs → QueueC.is_deq h loc ls → (∀ x, x ∈ gs → x ∉ ls) →
  Z.of_nat (length gs) + Z.of_nat (length ls) ≤ LONG_MAX →
  (∃ h' g',
     QueueC.deq_append h g (Some loc) = QueueC.Ok (h', g', Some QueueC.deq_init) ∧
     QueueC.is_deq h' g' (gs ++ ls) ∧ QueueC.is_tidy h' QueueC.deq_init [] ∧
     (QueueC.abstract h' g' (gs ++ ls), QueueC.abstract h' QueueC.deq_init [])
     = deq_append (QueueC.abstract h g gs) (QueueC.abstract h loc ls) ∧
     (∀ m, QueueC.c_elem <$> h' !! m = QueueC.c_elem <$> h !! m) ∧
     (∀ m, m ∉ gs → h' !! m = h !! m)) ∧
  QueueC.deq_append h g None = QueueC.Ok (h, g, None).
Proof.
  intros [qg Hg] [ql Hl] Hdisj Hlen. split; [|done].
  destruct (deq_append_spec h g loc gs ls qg ql Hg Hl Hdisj Hlen)
    as (h' & g' & Hr & Hq' & Habs & Hp & Hf).
  exists h', g'. split_and!; try done; [by eexists|]. solve_deq.
Qed.

Lemma deq_append_concatenates_witness :
  let e := Queue_element "/a" 0 0 "/a" in
  let h : QueueC.heap :=
    <[1%nat := QueueC.Cell e (Some 2%nat)]>
      (<[2%nat := QueueC.Cell e None]> (<[3%nat := QueueC.Cell e None]> ∅)) in
  let g := QueueC.Anchor 2 (3 # 2) (Some 2%nat) (Some 1%nat) in
  let loc := QueueC.Anchor 1 7 (Some 3%nat) (Some 3%nat) in
  ∃ h' g', QueueC.deq_append h g (Some loc) = QueueC.Ok (h', g', Some QueueC.deq_init) ∧
           QueueC.is_deq h' g' [1; 2; 3]%nat.
Proof.
  intros e h g loc.
  destruct (deq_append_concatenates h g loc [1; 2]%nat [3%nat])
    as [(h' & g' & Hr & Hq & _) _].
  - exists None. solve_deq.
  - exists None. solve_deq.
  - intros x Hx Hx'. apply list_elem_of_singleton in Hx'. subst.
    revert Hx. by apply (bool_decide_unpack _).
  - unfold LONG_MAX. simpl. lia.
  - by exists h', g'.
Defined.

(** X5.  [deq_prepend] moves the cells of [local] in front of those of
    [global]: the queue is then [ls ++ gs] and [local] is reset, as in the
    list model; the speed of [global] is kept.  No element changes and no
    cell outside [ls] is written.  A NULL [local] changes nothing. *)
Theorem deq_prepend_concatenates (h : QueueC.heap) (g loc : QueueC.anchor)
    (gs ls : list nat) :
  QueueC.is_deq h g gs → QueueC.is_deq h loc ls → (∀ x, x ∈ gs → x ∉ ls) →
  Z.of_nat (length gs) + Z.of_nat (length ls) ≤ LONG_MAX →
  (∃ h' g',
     QueueC.deq_prepend h g (Some loc) = QueueC.Ok (h', g', Some QueueC.deq_init) ∧
     QueueC.is_deq h' g' (ls ++ gs) ∧ QueueC.is_tidy h' QueueC.deq_init [] ∧
     (QueueC.abstract h' g' (ls ++ gs), QueueC.abstract h' QueueC.deq_init [])
     = deq_prepend (QueueC.abstract h g gs) (QueueC.abstract h loc ls) ∧
     (∀ m, QueueC.c_elem <$> h' !! m = QueueC.c_elem <$> h !! m) ∧
     (∀ m, m ∉ ls → h' !! m = h !! m)) ∧
  QueueC.deq_prepend h g None = QueueC.Ok (h, g, None).
Proof.
  intros [qg Hg] [ql Hl] Hdisj Hlen. split; [|done].
  destruct (deq_prepend_spec h g loc gs ls qg ql Hg Hl Hdisj Hlen)
    as (h' & g' & Hr & Hq' & Habs & Hp & Hf).
  exists h', g'. split_and!; try done; [by eexists|]. solve_deq.
Qed.

Lemma deq_prepend_concatenates_witness :
  let e := Queue_element "/a" 0 0 "/a" in
  let h : QueueC.heap :=
    <[1%nat := QueueC.Cell e (Some 2%nat)]>
      (<[2%nat := QueueC.Cell e None]> (<[3%nat := QueueC.Cell e None]> ∅)) in
  let g := QueueC.Anchor 2 (3 # 2) (Some 2%nat) (Some 1%nat) in
  let loc := QueueC.Anchor 1 7 (Some 3%nat) (Some 3%nat) in
  ∃ h' g', QueueC.deq_prepend h g (Some loc) = QueueC.Ok (h', g', Some QueueC.deq_init) ∧
           QueueC.is_deq h' g' [3; 1; 2]%nat.
Proof.
  intros e h g loc.
  destruct (deq_prepend_concatenates h g loc [1; 2]%nat [3%nat])
    as [(h' & g' & Hr & Hq & _) _].
  - exists None. solve_deq.
  - exists None. solve_deq.
  - intros x Hx Hx'. apply list_elem_of_singleton in Hx'. subst.
    revert Hx. by apply (bool_decide_unpack _).
  - unfold LONG_MAX. simpl. lia.
  - by exists h', g'.
Defined.

(** X6.  The test [fast_anchor->first == NULL] of [main].  On a queue
    whose last cell has a NULL [next] and whose [first] and [last] are NULL
    when it is empty (as [deq_init] leaves it), [first] is NULL exactly when
    the queue holds no cell.  [deq_put] of a cell with a NULL [next], which
    is how [main] and [process_tile] create their cells, and [deq_get] keep
    the queue in that form. *)
Theorem first_null_iff_empty (v : bool) (h : QueueC.heap) (a : QueueC.anchor)
    (ns : list nat) :
  QueueC.is_tidy h a ns →
  (QueueC.first a = None ↔ ns = []) ∧
  (∀ n c, h !! n = Some c → QueueC.c_next c = None → n ∉ ns →
     Z.of_nat (length ns) < LONG_MAX →
     ∃ h' a', QueueC.deq_put v h a (Some n) = QueueC.Ok (h', a', []) ∧
              QueueC.is_tidy h' a' (ns ++ [n])) ∧
  (∀ n rest, ns = n :: rest →
     ∃ h' a', QueueC.deq_get v h (Some a) = QueueC.Ok (h', a', Some n, []) ∧
              QueueC.is_tidy h' a' rest) ∧
  QueueC.is_tidy h QueueC.deq_init [].
Proof.
  intros [Hq Hempty]. split_and!.
  - destruct Hq as (_ & _ & Hseg & _). destruct ns as [|n rest]; simpl in Hseg.
    + by split.
    + destruct Hseg as [-> _]. by split.
  - intros n c Hc Hnext Hn Hlen.
    destruct (deq_put_spec v h a ns None n c Hq Hc Hn Hlen) as (h' & a' & Hr & Hq' & _).
    exists h', a'. split; [done|]. rewrite Hnext in Hq'. split; [done|].
    intros Heq. by destruct ns.
  - intros n rest ->.
    destruct (deq_get_spec v h a n rest None Hq) as (c & a' & Hc & Hr & Hq' & Hl & _).
    eexists _, a'. split; [done|]. by split.
  - solve_deq.
Qed.

Lemma first_null_iff_empty_witness :
  let e := Queue_element "/a" 0 0 "/a" in
  let h : QueueC.heap := <[1%nat := QueueC.Cell e None]> ∅ in
  (QueueC.first QueueC.deq_init = None ↔ @nil nat = []) ∧
  ∃ h' a', QueueC.deq_put false h QueueC.deq_init (Some 1%nat) = QueueC.Ok (h', a', []) ∧
           QueueC.is_tidy h' a' [1%nat] ∧ QueueC.first a' ≠ None.
Proof.
  intros e h.
  destruct (first_null_iff_empty false h QueueC.deq_init []) as (Hiff & Hput & _).
  - solve_deq.
  - split; [done|].
    destruct (Hput 1%nat (QueueC.Cell e None)) as (h' & a' & Hr & Ht); try done.
    { by intros ?%elem_of_nil. }
    exists h', a'. split_and!; [done..|]. by injection Hr as _ <-.
Defined.

(** ** config.c: the lists read from the input files *)

Lemma append_spec (x : string) (l : list string) :
  NoDup l → NoDup (append x l) ∧ (∀ y, y ∈ append x l ↔ y = x ∨ y ∈ l) ∧
  l `prefix_of` append x l.
Proof.
  intros Hnd. unfold append. case_decide as Hx.
  - split_and!; [done| |done]. intros y. split; [by right|]. by intros [->|?].
  - split_and!.
    + apply NoDup_app. split_and!; [done| |apply NoDup_singleton].
      intros y Hy ->%list_elem_of_singleton. done.
    + intros y. rewrite elem_of_app, list_elem_of_singleton. tauto.
    + by apply prefix_app_r.
Qed.

Lemma parsefilelist_foldl (lines : list string) : ∀ acc,
  NoDup acc →
  NoDup (foldl (λ acc l, append l acc) acc lines) ∧
  (∀ y, y ∈ foldl (λ acc l, append l acc) acc lines ↔ y ∈ acc ∨ y ∈ lines) ∧
  acc `prefix_of` foldl (λ acc l, append l acc) acc lines.
Proof.
  induction lines as [|x lines IH]; intros acc Hnd; simpl.
  - split_and!; [done| |done]. intros y. rewrite elem_of_nil. tauto.
  - destruct (append_spec x acc Hnd) as (Hnd' & Hin & Hpre).
    destruct (IH (append x acc) Hnd') as (Hnd'' & Hin' & Hpre').
    split_and!; [done| |by etrans].
    intros y. rewrite Hin', Hin, elem_of_cons. tauto.
Qed.

Lemma parsefilelist_app (l1 l2 : list string) :
  parsefilelist (l1 ++ l2) = foldl (λ acc l, append l acc) (parsefilelist l1) l2.
Proof. unfold parsefilelist. by rewrite foldl_app. Qed.

Lemma foldl_append_absorb (lines : list string) : ∀ acc,
  (∀ x, x ∈ lines → x ∈ acc) → foldl (λ acc l, append l acc) acc lines = acc.
Proof.
  induction lines as [|x lines IH]; intros acc Hin; simpl; [done|].
  unfold append at 2. rewrite decide_True by (apply Hin; left).
  apply IH. intros y Hy. apply Hin. by right.
Qed.

(** X7.  [parsefilelist] and [append]: the list of roots holds every
    name of the lines once, in the order of the first occurrences.  Reading
    further lines only adds names behind those already listed, and lines
    that repeat listed names change nothing.  [parseexfilelist] and
    [appendex] build the exclude list by the same code. *)
Theorem parsefilelist_first_occurrences (l1 l2 : list string) :
  NoDup (parsefilelist l1) ∧
  (∀ x, x ∈ parsefilelist l1 ↔ x ∈ l1) ∧
  parsefilelist l1 `prefix_of` parsefilelist (l1 ++ l2) ∧
  ((∀ x, x ∈ l2 → x ∈ l1) → parsefilelist (l1 ++ l2) = parsefilelist l1) ∧
  parseexfilelist l1 = parsefilelist l1.
Proof.
  destruct (parsefilelist_foldl l1 [] (NoDup_nil_2)) as (Hnd & Hin & _).
  fold (parsefilelist l1) in Hnd, Hin.
  split_and!.
  - done.
  - intros x. rewrite Hin, elem_of_nil. tauto.
  - rewrite parsefilelist_app. by apply parsefilelist_foldl.
  - intros Hsub. rewrite parsefilelist_app. apply foldl_append_absorb.
    intros x Hx. apply Hin. right. by apply Hsub.
  - done.
Qed.

(** *** The lines of the root file *)

Lemma entered_lines_cons (NAME_MAX : nat) (lbuf : string) (lines : list string) :
  entered_lines NAME_MAX (lbuf :: lines)
  = match file_line NAME_MAX lbuf with
    | Entered dirpath => dirpath :: entered_lines NAME_MAX lines
    | _ => entered_lines NAME_MAX lines
    end.
Proof. unfold entered_lines. simpl. by destruct (file_line NAME_MAX lbuf). Qed.

Lemma parsefilelist_lines_acc (NAME_MAX : nat) (lines : list string) : ∀ acc,
  parsefilelist_lines NAME_MAX lines acc
  = if decide (Exists (λ l, file_line NAME_MAX l = TooLong) lines) then None
    else Some (foldl (λ acc l, append l acc) acc (entered_lines NAME_MAX lines)).
Proof.
  induction lines as [|lbuf lines IH]; intros acc; cbn [parsefilelist_lines].
  - destruct (decide _) as [H|H]; [by apply Exists_nil in H|done].
  - rewrite entered_lines_cons.
    destruct (file_line NAME_MAX lbuf) as [|dirpath|] eqn:Hl; rewrite ?IH.
    + destruct (decide (Exists _ lines)) as [H|H], (decide (Exists _ (lbuf :: lines))) as [H'|H'];
        try done.
      * exfalso. apply H'. by right.
      * exfalso. apply Exists_cons in H' as [?|?]; [congruence|done].
    + destruct (decide (Exists _ lines)) as [H|H], (decide (Exists _ (lbuf :: lines))) as [H'|H'];
        try done.
      * exfalso. apply H'. by right.
      * exfalso. apply Exists_cons in H' as [?|?]; [congruence|done].
    + destruct (decide (Exists _ (lbuf :: lines))) as [H|H]; [done|].
      exfalso. apply H. by left.
Qed.

Lemma before_newline_length (s : string) :
  (String.length (before_newline s) ≤ String.length s)%nat.
Proof. induction s as [|c s IH]; simpl; [lia|]. case_decide; simpl; lia. Qed.

Lemma before_newline_no_newline (s : string) :
  NL ∉ String.list_ascii_of_string (before_newline s).
Proof.
  induction s as [|c s IH]; simpl; [by intros ?%elem_of_nil|].
  case_decide; simpl; [by intros ?%elem_of_nil|].
  intros [?|?]%elem_of_cons; [congruence|done].
Qed.

Lemma file_line_entered (NAME_MAX : nat) (lbuf dirpath : string) :
  file_line NAME_MAX lbuf = Entered dirpath →
  (∃ c rest, dirpath = String c rest ∧ c ≠ HASH) ∧
  (NL ∉ String.list_ascii_of_string dirpath) ∧
  (String.length dirpath < NAME_MAX)%nat.
Proof.
  unfold file_line. destruct lbuf as [|c r]; [done|].
  case_decide as Hc; [done|]. case_decide as Hlen; [|done]. intros Heq.
  assert (dirpath = before_newline (String c r)) as -> by congruence. clear Heq.
  split_and!.
  - simpl. rewrite decide_False by tauto. exists c, (before_newline r). split; [done|]. tauto.
  - apply before_newline_no_newline.
  - pose proof (before_newline_length (String c r)). lia.
Qed.

Lemma elem_of_entered_lines (NAME_MAX : nat) (lines : list string) (r : string) :
  r ∈ entered_lines NAME_MAX lines →
  ∃ lbuf, lbuf ∈ lines ∧ file_line NAME_MAX lbuf = Entered r.
Proof.
  unfold entered_lines. intros (lbuf & Hin & Hr)%list_elem_of_omap.
  exists lbuf. split; [done|]. destruct (file_line NAME_MAX lbuf); by simplify_eq.
Qed.

(** X8.  The lines of the root file (and, by the same code, of the
    exclude file).  Lines that start with a newline or with [#] are passed
    over; a line of [NAME_MAX] characters or more that is not passed over
    ends the program; otherwise the list is [parsefilelist] of the lines that
    are entered.  Every name of the list is then non-empty, does not start
    with [#], holds no newline and is shorter than [NAME_MAX]. *)
Theorem parsefilelist_lines_entries (NAME_MAX : nat) (lines : list string) :
  (Exists (λ l, file_line NAME_MAX l = TooLong) lines →
     parsefilelist_lines NAME_MAX lines [] = None) ∧
  (¬ Exists (λ l, file_line NAME_MAX l = TooLong) lines →
     parsefilelist_lines NAME_MAX lines []
     = Some (parsefilelist (entered_lines NAME_MAX lines))) ∧
  (∀ lbuf rest, file_line NAME_MAX (String NL rest) = Skipped ∧
                file_line NAME_MAX (String HASH rest) = Skipped ∧
                (file_line NAME_MAX lbuf = TooLong → (NAME_MAX ≤ String.length lbuf)%nat)) ∧
  (∀ roots r, parsefilelist_lines NAME_MAX lines [] = Some roots → r ∈ roots →
     (∃ c rest, r = String c rest ∧ c ≠ HASH) ∧
     (NL ∉ String.list_ascii_of_string r) ∧
     (String.length r < NAME_MAX)%nat).
Proof.
  split_and!.
  - intros Hex. rewrite parsefilelist_lines_acc. by rewrite decide_True.
  - intros Hex. rewrite parsefilelist_lines_acc. by rewrite decide_False.
  - intros lbuf rest. split_and!.
    + unfold file_line. rewrite decide_True; [done|by left].
    + unfold file_line. rewrite decide_True; [done|by right].
    + unfold file_line. destruct lbuf as [|c r]; [done|].
      repeat case_decide; try done. intros _. lia.
  - intros roots r Hroots Hr. rewrite parsefilelist_lines_acc in Hroots.
    case_decide; [done|]. injection Hroots as <-.
    destruct (parsefilelist_foldl (entered_lines NAME_MAX lines) [] NoDup_nil_2)
      as (_ & Hin & _).
    apply Hin in Hr as [Hr|Hr]; [by apply elem_of_nil in Hr|].
    apply elem_of_entered_lines in Hr as (lbuf & _ & Hl).
    by eapply file_line_entered.
Qed.

(** *** The mapping lists *)

Lemma uid_list_prefix old new pairs : pairs `prefix_of` uid_list old new pairs.
Proof. unfold uid_list. case_decide; [done|]. by apply prefix_app_r. Qed.

Lemma parseuidlist_prefix lines : ∀ acc,
  acc.1 `prefix_of` (parseuidlist lines acc).1 ∧
  acc.2 `prefix_of` (parseuidlist lines acc).2.
Proof.
  induction lines as [|[[[] old] new] lines IH]; intros acc; simpl; [done| |].
  - destruct (IH (uid_list old new acc.1, acc.2)) as [H1 H2]. simpl in *.
    split; [|done]. etrans; [apply uid_list_prefix|done].
  - destruct (IH (acc.1, gid_list old new acc.2)) as [H1 H2]. simpl in *.
    split; [done|]. etrans; [apply (uid_list_prefix old new)|done].
Qed.

Lemma parseuidlist_olds lines : ∀ acc old,
  (old ∈ (parseuidlist lines acc).1.*1 ↔
     old ∈ acc.1.*1 ∨ ∃ new, (Uid, old, new) ∈ lines) ∧
  (old ∈ (parseuidlist lines acc).2.*1 ↔
     old ∈ acc.2.*1 ∨ ∃ new, (Gid, old, new) ∈ lines).
Proof.
  assert (Hul : ∀ o n pairs x, x ∈ (uid_list o n pairs).*1 ↔ x = o ∨ x ∈ pairs.*1).
  { intros o n pairs x. unfold uid_list. case_decide.
    - split; [by right|]. by intros [->|?].
    - rewrite fmap_app, elem_of_app. simpl. rewrite list_elem_of_singleton. tauto. }
  induction lines as [|[[dim o] n] lines IH]; intros acc old.
  - simpl. split; (split; [by left|]); intros [?|[? ?%elem_of_nil]]; done.
  - destruct dim; simpl.
    + destruct (IH (uid_list o n acc.1, acc.2) old) as [H1 H2]. simpl in *.
      rewrite H1, H2, Hul. split.
      * split.
        -- intros [[->|?]|[new ?]]; [right; exists n; left|by left|right; exists new; by right].
        -- intros [?|[new [?|?]%elem_of_cons]]; [left; by right|left; left; congruence|
             right; by exists new].
      * split.
        -- intros [?|[new ?]]; [by left|right; exists new; by right].
        -- intros [?|[new [?|?]%elem_of_cons]]; [by left|done|right; by exists new].
    + destruct (IH (acc.1, gid_list o n acc.2) old) as [H1 H2]. simpl in *.
      rewrite H1, H2. change (gid_list o n acc.2) with (uid_list o n acc.2). rewrite Hul. split.
      * split.
        -- intros [?|[new ?]]; [by left|right; exists new; by right].
        -- intros [?|[new [?|?]%elem_of_cons]]; [by left|done|right; by exists new].
      * split.
        -- intros [[->|?]|[new ?]]; [right; exists n; left|by left|right; exists new; by right].
        -- intros [?|[new [?|?]%elem_of_cons]]; [left; by right|left; left; congruence|
             right; by exists new].
Qed.

Lemma new_id_elem pairs old new :
  NoDup pairs.*1 → (old, new) ∈ pairs →
  new_id pairs old = if decide (new = ID_KEEP) then old else new.
Proof.
  induction pairs as [|[o n] pairs IH]; intros Hnd Hin; [by apply elem_of_nil in Hin|].
  apply NoDup_cons in Hnd as [Hnin Hnd]. simpl.
  apply elem_of_cons in Hin as [[= <- <-]|Hin].
  - by rewrite decide_True.
  - rewrite decide_False; [by apply IH|]. intros ->. apply Hnin.
    apply list_elem_of_fmap. by exists (old, new).
Qed.

Lemma parseuidlist_first dim old new l2 : ∀ l1 acc,
  (∀ new', (dim, old, new') ∉ l1) →
  match dim with
  | Uid => old ∉ acc.1.*1 → (old, new) ∈ (parseuidlist (l1 ++ (dim, old, new) :: l2) acc).1
  | Gid => old ∉ acc.2.*1 → (old, new) ∈ (parseuidlist (l1 ++ (dim, old, new) :: l2) acc).2
  end.
Proof.
  induction l1 as [|[[d o] n] l1 IH]; intros acc Hfirst.
  - simpl. destruct dim; intros Hacc.
    + destruct (parseuidlist_prefix l2 (uid_list old new acc.1, acc.2)) as [[k ->] _].
      simpl. apply elem_of_app. left. unfold uid_list. rewrite decide_False by done.
      apply elem_of_app. right. left.
    + destruct (parseuidlist_prefix l2 (acc.1, gid_list old new acc.2)) as [_ [k ->]].
      simpl. apply elem_of_app. left. unfold gid_list. rewrite decide_False by done.
      apply elem_of_app. right. left.
  - assert (Hfirst' : ∀ new', (dim, old, new') ∉ l1).
    { intros new' ?. apply (Hfirst new'). by right. }
    assert (Hne : (d, o) ≠ (dim, old)).
    { intros [= -> ->]. apply (Hfirst n). left. }
    assert (Hul : ∀ pairs, old ∉ pairs.*1 → o ≠ old → old ∉ (uid_list o n pairs).*1).
    { intros pairs Hp Ho. unfold uid_list. case_decide; [done|].
      rewrite fmap_app, elem_of_app. simpl. rewrite list_elem_of_singleton. intros [?|?]; done. }
    simpl. destruct d.
    + specialize (IH (uid_list o n acc.1, acc.2) Hfirst').
      destruct dim; simpl in *; intros Hacc; apply IH; [|done].
      apply Hul; [done|]. intros ->. done.
    + specialize (IH (acc.1, gid_list o n acc.2) Hfirst').
      destruct dim; simpl in *; intros Hacc; apply IH; [done|].
      apply (Hul acc.2); [done|]. intros ->. done.
Qed.

(** X9.  [parseuidlist], [uid_list] and [gid_list], for a mapping file
    whose ids are values of [uid_t] ([ids_in_range]: each number is between
    0 and 2^32 - 1, so [sscanf] stores it as written): of the lines that give
    one old uid, the first decides; so the id a file with that uid is given
    is the new uid of that first line (none when that is [(uid_t) -1]).  An
    old uid that no line gives is mapped to itself.  Lines with the tag [g]
    do not touch the uid list; the gid list is built the same way from the
    [g] lines. *)
Theorem parseuidlist_first_line_decides (args : arguments) (dim : id_dim) (old : Z) :
  ids_in_range (id_lines args) →
  let lines := id_lines args in
  let pairs := match dim with Uid => uid_map args | Gid => gid_map args end in
  NoDup pairs.*1 ∧
  (∀ l1 l2 new, lines = l1 ++ (dim, old, new) :: l2 → (∀ new', (dim, old, new') ∉ l1) →
     ((old, new) ∈ pairs) ∧
     new_id pairs old = (if decide (new = ID_KEEP) then old else new)) ∧
  ((∀ new, (dim, old, new) ∉ lines) → (old ∉ pairs.*1) ∧ new_id pairs old = old) ∧
  (∀ lines', filter (λ l, l.1.1 = dim) lines' = filter (λ l, l.1.1 = dim) lines →
     match dim with
     | Uid => (parseuidlist lines' ([], [])).1
     | Gid => (parseuidlist lines' ([], [])).2
     end = pairs).
Proof.
  intros _ lines pairs.
  assert (Hnd : NoDup pairs.*1).
  { unfold pairs. destruct dim; apply maps_NoDup. }
  split_and!; [done| | |].
  - intros l1 l2 new Hl Hfirst.
    assert (Hin : (old, new) ∈ pairs).
    { pose proof (parseuidlist_first dim old new l2 l1 ([], []) Hfirst) as H.
      rewrite <- Hl in H. unfold pairs, uid_map, gid_map. fold lines.
      destruct dim; apply H; by intros ?%elem_of_nil. }
    split; [done|]. by apply new_id_elem.
  - intros Hno.
    assert (Hold : old ∉ pairs.*1).
    { unfold pairs, uid_map, gid_map. fold lines.
      destruct (parseuidlist_olds lines ([], []) old) as [H1 H2].
      destruct dim; [rewrite H1|rewrite H2]; intros [?%elem_of_nil|[new ?]]; try done;
        by apply (Hno new). }
    split; [done|]. by apply new_id_not_old.
  - intros lines' Hf. unfold pairs, uid_map, gid_map. fold lines.
    assert (Hgen : ∀ ls acc,
      (parseuidlist ls acc).1
        = foldl (λ a l, uid_list l.1.2 l.2 a) acc.1 (filter (λ l, l.1.1 = Uid) ls) ∧
      (parseuidlist ls acc).2
        = foldl (λ a l, gid_list l.1.2 l.2 a) acc.2 (filter (λ l, l.1.1 = Gid) ls)).
    { induction ls as [|[[[] o] n] ls IH]; intros acc; [done| |].
      - rewrite !filter_cons. simpl. apply (IH (uid_list o n acc.1, acc.2)).
      - rewrite !filter_cons. simpl. apply (IH (acc.1, gid_list o n acc.2)). }
    destruct (Hgen lines' ([], [])) as [H1 H2], (Hgen lines ([], [])) as [H3 H4].
    destruct dim; [rewrite H1, H3|rewrite H2, H4]; by rewrite Hf.
Qed.

Lemma parseuidlist_first_line_decides_witness :
  let args := Arguments None false false false None
                [(Uid, 1000, 2000); (Gid, 1000, 7); (Uid, 1000, 3000); (Uid, 5, 4294967295)]
                ["/a"] [] in
  ids_in_range (id_lines args) ∧
  uid_map args = [(1000, 2000); (5, 4294967295)] ∧
  ((1000, 2000) ∈ uid_map args) ∧ new_id (uid_map args) 1000 = 2000.
Proof.
  intros args.
  assert (Hr : ids_in_range (id_lines args)) by (repeat constructor; simpl; lia).
  split; [exact Hr|]. split; [reflexivity|].
  destruct (parseuidlist_first_line_decides args Uid 1000 Hr) as (_ & Hfirst & _).
  apply (Hfirst [] [(Gid, 1000, 7); (Uid, 1000, 3000); (Uid, 5, 4294967295)] 2000);
    [reflexivity|].
  intros new' Hin. by apply elem_of_nil in Hin.
Defined.

(** *** [strcmpi] *)

Lemma upcase_length (s : string) : length (upcase s) = String.length s.
Proof. induction s as [|c s IH]; simpl; [done|]. by rewrite IH. Qed.

Lemma strcmpi_loop_zero (s1 : string) : ∀ s2,
  String.length s1 = String.length s2 →
  (strcmpi_loop s1 s2 = 0 ↔ upcase s1 = upcase s2).
Proof.
  induction s1 as [|c1 s1 IH]; intros [|c2 s2] Hlen; simpl in *; try done.
  case_decide as Hc.
  - split.
    + intros Hd. exfalso. apply Hc. f_equal. lia.
    + intros [= ? _]. done.
  - try apply dec_stable in Hc. rewrite IH by lia. split.
    + intros ->. by rewrite Hc.
    + by intros [= _ ?].
Qed.

Lemma upcase_single (s : string) (u : Z) :
  upcase s = [u] → ∃ c, s = String c EmptyString ∧ toupper (char_val c) = u.
Proof. destruct s as [|c [|? ?]]; simpl; intros [= ?]; eauto. Qed.

Lemma toupper_U (c : Ascii.ascii) :
  toupper (char_val c) = 85 ↔ c = Ascii.ascii_of_nat 117 ∨ c = Ascii.ascii_of_nat 85.
Proof.
  destruct c as [[] [] [] [] [] [] [] []]; vm_compute; split;
    solve [intros [= ]|intros [[= ]|[= ]]|intros _; (by left) || (by right)|done].
Qed.

Lemma toupper_G (c : Ascii.ascii) :
  toupper (char_val c) = 71 ↔ c = Ascii.ascii_of_nat 103 ∨ c = Ascii.ascii_of_nat 71.
Proof.
  destruct c as [[] [] [] [] [] [] [] []]; vm_compute; split;
    solve [intros [= ]|intros [[= ]|[= ]]|intros _; (by left) || (by right)|done].
Qed.

(** X10.  [strcmpi] returns 0 exactly for two strings that are equal up
    to the case of the letters a to z, and -1 for strings of different
    lengths; compared with the string u it returns 0 exactly for u and U,
    and compared with the string g exactly for g and G.  This is a statement
    about [strcmpi] alone: the tag that [parseuidlist] passes to it is what
    the scan set of [sscanf] stored, which takes the lower-case letters
    only. *)
Theorem strcmpi_zero_iff_same_upcase (s1 s2 : string) :
  (strcmpi s1 s2 = 0 ↔ upcase s1 = upcase s2) ∧
  (String.length s1 ≠ String.length s2 → strcmpi s1 s2 = -1) ∧
  (strcmpi s1 s2 = 0 ↔ strcmpi s2 s1 = 0) ∧
  (strcmpi s1 "u" = 0 ↔ s1 = "u" ∨ s1 = "U") ∧
  (strcmpi s1 "g" = 0 ↔ s1 = "g" ∨ s1 = "G").
Proof.
  assert (Hiff : ∀ a b, strcmpi a b = 0 ↔ upcase a = upcase b).
  { intros a b. unfold strcmpi. case_decide as Hlen.
    - split; [done|]. intros Hup. exfalso. apply Hlen.
      by rewrite <- !upcase_length, Hup.
    - try apply dec_stable in Hlen. by apply strcmpi_loop_zero. }
  split_and!.
  - apply Hiff.
  - intros Hlen. unfold strcmpi. by rewrite decide_True.
  - rewrite !Hiff. split; by intros ->.
  - rewrite Hiff. split.
    + intros (c & -> & Hc)%upcase_single. apply toupper_U in Hc as [Hc|Hc]; subst c; [by left|by right].
    + by intros [Hs|Hs]; subst s1.
  - rewrite Hiff. split.
    + intros (c & -> & Hc)%upcase_single. apply toupper_G in Hc as [Hc|Hc]; subst c; [by left|by right].
    + by intros [Hs|Hs]; subst s1.
Qed.

(** ** The worker pool: further properties *)

Lemma speed_ratio_nonneg f s c :
  speed_ratio f s = Some c → (0 <= f)%Q → (0 <= s)%Q → 0 ≤ c ∧ (0 < s)%Q.
Proof.
  unfold speed_ratio. destruct (Qeq_bool s 0) eqn:Hs; [done|].
  case_decide; [|done]. intros [= <-] Hf Hs0.
  assert (Hpos : (0 < s)%Q).
  { apply Qle_lteq in Hs0 as [?|Heq]; [done|].
    symmetry in Heq. apply Qeq_bool_iff in Heq. congruence. }
  split; [|done].
  transitivity (Qceiling 0); [done|].
  apply Qceiling_resp_le. apply Qle_shift_div_l; [done|].
  by rewrite Qmult_0_l.
Qed.

Lemma decay_speeds_sched_inv g : sched_inv g → sched_inv (decay_speeds g).
Proof.
  intros (Hc & Hf & Hs & Hpos). unfold sched_inv.
  rewrite decay_speeds_credit. split; [done|].
  assert (Hsl : slow_speed_pos (decay_speeds g)).
  { unfold slow_speed_pos. destruct (decay_speeds_slow g) as [He Hsp].
    rewrite He. intros Hne. rewrite (Hsp Hne). by apply Hpos. }
  split_and!; [| |done]; unfold decay_speeds; repeat case_decide; simpl; done.
Qed.

Lemma take_element_sched_inv d g qe g' :
  take_element d g = Some (qe, g') → sched_inv g → sched_inv g'.
Proof.
  intros Htake Hinv. pose proof Hinv as (Hc & Hf & Hs & Hpos).
  assert (Hsl : slow_speed_pos g') by by eapply take_element_slow_speed.
  unfold take_element in Htake. destruct d.
  - destruct (take_dual g) as [[qe0 g0]|] eqn:Hd; [|done]. simplify_eq.
    apply decay_speeds_sched_inv. unfold sched_inv, slow_speed_pos.
    unfold take_dual, deq_get in Hd.
    repeat (case_match || case_decide); simplify_eq; simpl;
      try (match goal with H : speed_ratio _ _ = Some _ |- _ =>
             apply speed_ratio_nonneg in H as [? ?]; [|done..] end);
      split_and!; try done; try lia;
      try (intros _; done); intros Hne; apply Hpos; congruence.
  - unfold deq_get in Htake. repeat case_match; simplify_eq;
      unfold sched_inv; simpl; split_and!; done.
Qed.

Lemma hand_over_sched_inv d s r p g :
  (0 < r)%Q → sched_inv g → sched_inv (hand_over d s r p g).1.
Proof.
  intros Hr (Hc & Hf & Hs & Hpos).
  assert (Hsl : slow_speed_pos (hand_over d s r p g).1).
  { by apply hand_over_slow_speed. }
  assert (Hr' : (0 <= r)%Q) by by apply Qlt_le_weak.
  split_and!; [| | |done]; unfold hand_over, deq_prepend, deq_append;
    destruct d, s; repeat (case_match; simplify_eq); simpl; try done;
    case_decide; simpl; done.
Qed.

Lemma pool_run_sched_inv d s tr : ∀ p p',
  (∀ tid r pa, LTransfer tid r pa ∈ tr → (0 < r)%Q) →
  sched_inv (p_shared p) → pool_run d s tr p = Some p' → sched_inv (p_shared p').
Proof.
  induction tr as [|l tr IH]; intros p p' Htr Hinv Hrun; simpl in Hrun; [by simplify_eq|].
  destruct (pool_step d s l p) as [p1|] eqn:Hstep; [|done].
  apply (IH p1 p'); [|clear IH Hrun|done].
  { intros ????. eapply Htr. by right. }
  destruct l as [tid|tid r pa|tid|tid|]; simpl in Hstep.
  - destruct (p_workers p !! tid) as [[| |]|]; try done.
    destruct (notfinished (p_shared p) && _); [|done].
    destruct (take_element d (p_shared p)) as [[[qe|] g']|] eqn:Ht; [| |done];
      simplify_eq; exact (take_element_sched_inv _ _ _ _ Ht Hinv).
  - destruct (p_workers p !! tid) as [[| |]|]; try done.
    case_decide; [|done]. simplify_eq. simpl. apply hand_over_sched_inv; [|done].
    eapply Htr. left.
  - destruct (p_workers p !! tid) as [[| |]|]; try done. simplify_eq. simpl.
    unfold release. by case_decide.
  - destruct (p_workers p !! tid) as [[| |]|]; try done.
    destruct (notfinished (p_shared p)); [done|]. by simplify_eq.
  - by simplify_eq.
Qed.

(** X11.  The numbers of the scheduler in a run of the pool, whatever the
    interleaving.  A handback stores a positive rate (the rate of a transfer
    is positive once one directory is counted, and [process_tile] counts the
    directory before it scans it).  So the credit
    [fast_nodes_befor_next_slow_node] is never negative (the [else] branch of
    the dispatch is the case of credit 0, as its comment says), the speeds
    are never negative, and a slow queue that holds an element has a positive
    speed: the division [fast speed / slow speed] never meets a zero
    divisor. *)
Theorem dispatch_credit_never_negative (d s : bool) (roots : list queue_element)
    (n : nat) (tr : list label) (p : pool) :
  (∀ tid r pa, LTransfer tid r pa ∈ tr → (0 < r)%Q) →
  pool_run d s tr (pool_init roots n) = Some p →
  0 ≤ fast_nodes_befor_next_slow_node (p_shared p) ∧
  (0 <= speed (fast_anchor (p_shared p)))%Q ∧
  (elems (slow_anchor (p_shared p)) ≠ [] →
     (0 < speed (slow_anchor (p_shared p)))%Q ∧
     Qeq_bool (speed (slow_anchor (p_shared p))) 0 = false) ∧
  (∀ t1 t2 ds, 0 < ds → (0 < scan_rate t1 t2 ds)%Q).
Proof.
  intros Htr Hrun.
  assert (Hinit : sched_inv (p_shared (pool_init roots n))).
  { unfold sched_inv, slow_speed_pos, pool_init. simpl. by split_and!. }
  destruct (pool_run_sched_inv d s tr _ _ Htr Hinit Hrun) as (Hc & Hf & Hs & Hpos).
  split_and!; [done|done| |apply scan_rate_pos].
  intros Hne. specialize (Hpos Hne). split; [done|].
  destruct (Qeq_bool _ 0) eqn:E; [|done]. apply Qeq_bool_iff in E.
  rewrite E in Hpos. by apply Qlt_irrefl in Hpos.
Qed.

Lemma dispatch_credit_never_negative_witness :
  let a := Queue_element "/a" 0 0 "/a" in
  let x := Queue_element "/a/x" 0 0 "/a" in
  let tr := [LTake 0; LTransfer 0 2 (Queue_anchor 0 [x]); LTake 1]%nat in
  ∃ p, pool_run true true tr (pool_init [a] 2) = Some p ∧
       0 ≤ fast_nodes_befor_next_slow_node (p_shared p).
Proof.
  intros a x tr.
  destruct (pool_run true true tr (pool_init [a] 2)) as [p|] eqn:E.
  - exists p. split; [done|].
    refine (proj1 (dispatch_credit_never_negative true true [a] 2 tr p _ E)).
    intros tid r pa Hin. unfold tr in Hin.
    repeat (apply elem_of_cons in Hin as [Hin|Hin]; [by simplify_eq|]).
    by apply elem_of_nil in Hin.
  - vm_compute in E. discriminate.
Defined.

(** *** [busy_count] *)

Lemma pool_step_busy d s l p p' :
  busy_inv p → pool_step d s l p = Some p' →
  busy_inv p' ∧ length (p_workers p') = length (p_workers p).
Proof.
  intros (Hlen & Hbusy) Hstep. unfold busy_inv.
  destruct l as [tid|tid r pa|tid|tid|]; simpl in Hstep.
  - destruct (p_workers p !! tid) as [[| |]|] eqn:Hw; try done.
    destruct (notfinished (p_shared p) && _); [|done].
    destruct (take_element d (p_shared p)) as [[[qe|] g']|] eqn:Ht; [| |done].
    + destruct (take_element_flags _ _ _ _ Ht) as [Hb Hn].
      pose proof (scanning_insert p tid Waiting Scanning Hw) as Hs.
      rewrite decide_False in Hs by done. rewrite decide_True in Hs by done.
      pose proof (scanning_waiting_lt p tid Hw).
      simplify_eq. simpl. rewrite length_insert. split; [|done]. split; [done|].
      unfold scanning in *. simpl in *.
      unfold u64. rewrite Z.mod_small by lia. lia.
    + destruct (take_element_flags _ _ _ _ Ht) as [Hb Hn].
      simplify_eq. simpl. unfold scanning in *. simpl. by rewrite Hb.
  - destruct (p_workers p !! tid) as [[| |]|] eqn:Hw; try done.
    case_decide; [|done]. simplify_eq. simpl.
    destruct (hand_over_flags d s r pa (p_shared p)) as [-> _]. done.
  - destruct (p_workers p !! tid) as [[| |]|] eqn:Hw; try done.
    pose proof (scanning_insert p tid Scanning Waiting Hw) as Hs.
    rewrite decide_True in Hs by done. rewrite decide_False in Hs by done.
    pose proof (scanning_pos p tid Hw) as Hpos.
    pose proof (filter_length_le (λ s, s = Scanning) (p_workers p)) as Hle.
    simplify_eq. simpl. rewrite length_insert. split; [|done]. split; [done|].
    unfold scanning in *. simpl in *. unfold release.
    assert (Hu : u64 (busy_count (p_shared p) - 1)
                 = Z.of_nat (length (filter (λ s, s = Scanning) (<[tid:=Waiting]> (p_workers p))))).
    { unfold u64. rewrite Z.mod_small by lia. lia. }
    by case_decide.
  - destruct (p_workers p !! tid) as [[| |]|] eqn:Hw; try done.
    destruct (notfinished (p_shared p)); [done|].
    pose proof (scanning_insert p tid Waiting Exited Hw) as Hs.
    rewrite !decide_False in Hs by done.
    simplify_eq. simpl. rewrite length_insert. split; [|done]. split; [done|].
    unfold scanning in *. simpl in *. lia.
  - by simplify_eq.
Qed.

Lemma pool_run_busy d s tr : ∀ p p',
  busy_inv p → pool_run d s tr p = Some p' →
  busy_inv p' ∧ length (p_workers p') = length (p_workers p).
Proof.
  induction tr as [|l tr IH]; intros p p' Hinv Hrun; simpl in Hrun; [by simplify_eq|].
  destruct (pool_step d s l p) as [p1|] eqn:Hstep; [|done].
  destruct (pool_step_busy d s l p p1 Hinv Hstep) as [Hinv1 Hlen1].
  destruct (IH p1 p' Hinv1 Hrun) as [Hinv' Hlen']. split; [done|congruence].
Qed.

(** X12.  In every state a pool of [n] workers reaches, under any
    interleaving and with or without the signal handler, [busy_count] is the
    number of workers that have taken an element and not yet released it: the
    [size_t] counter never wraps around, and it is at most [n]. *)
Theorem busy_count_is_number_of_scanning (d s : bool) (roots : list queue_element)
    (n : nat) (tr : list label) (p : pool) :
  Z.of_nat n < 2 ^ 64 →
  pool_run d s tr (pool_init roots n) = Some p →
  busy_count (p_shared p) = Z.of_nat (scanning p) ∧
  length (p_workers p) = n ∧
  0 ≤ busy_count (p_shared p) ≤ Z.of_nat n.
Proof.
  intros Hn Hrun.
  assert (Hinit : busy_inv (pool_init roots n)).
  { destruct (pool_init_inv roots n Hn) as (? & ? & _). by split. }
  destruct (pool_run_busy d s tr _ _ Hinit Hrun) as [[Hlen Hbusy] Hw].
  unfold pool_init in Hw. simpl in Hw. rewrite length_replicate in Hw.
  split_and!; [done|done|lia|].
  rewrite Hbusy. pose proof (filter_length_le (λ s, s = Scanning) (p_workers p)).
  unfold scanning. lia.
Qed.

Lemma busy_count_is_number_of_scanning_witness :
  let a := Queue_element "/a" 0 0 "/a" in
  let x := Queue_element "/a/x" 0 0 "/a" in
  let tr := [LTake 0; LTransfer 0 2 (Queue_anchor 0 [x]); LTake 1; LSignal; LRelease 0]%nat in
  ∃ p, pool_run true true tr (pool_init [a] 2) = Some p ∧
       busy_count (p_shared p) = 1 ∧ scanning p = 1%nat.
Proof.
  intros a x tr.
  destruct (pool_run true true tr (pool_init [a] 2)) as [p|] eqn:E.
  - exists p. split; [done|].
    destruct (busy_count_is_number_of_scanning true true [a] 2 tr p) as (Hb & _); [done|done|].
    vm_compute in E. injection E as <-. by vm_compute.
  - vm_compute in E. discriminate.
Defined.

(** *** Shutdown *)

(** X13.  The flag [notfinished] is never set again.  It is cleared by
    the release that finds no work left and by the signal handler, and no
    step of a worker or of the handler writes 1 to it: in every run of the
    pool from a state in which it is cleared, under any interleaving, it is
    cleared in every state that follows.  (What a worker that has already
    passed its test of the flag still does is not stated here.) *)
Theorem notfinished_stays_cleared (d s : bool) (tr : list label) (p p' : pool) :
  notfinished (p_shared p) = false →
  pool_run d s tr p = Some p' →
  notfinished (p_shared p') = false.
Proof.
  revert p. induction tr as [|l tr IH]; intros p Hnf Hrun; simpl in Hrun.
  - by simplify_eq.
  - destruct (pool_step d s l p) as [p1|] eqn:Hstep; [|done].
    apply (IH p1); [|done]. clear IH Hrun.
    destruct l as [tid|tid r pa|tid|tid|]; simpl in Hstep.
    + destruct (p_workers p !! tid) as [[| |]|]; try done. by rewrite Hnf in Hstep.
    + destruct (p_workers p !! tid) as [[| |]|]; try done.
      case_decide; [|done]. simplify_eq. simpl.
      by destruct (hand_over_flags d s r pa (p_shared p)) as [_ ->].
    + destruct (p_workers p !! tid) as [[| |]|]; try done. simplify_eq. simpl.
      unfold release. by case_decide.
    + destruct (p_workers p !! tid) as [[| |]|]; try done.
      rewrite Hnf in Hstep. by simplify_eq.
    + by simplify_eq.
Qed.

Lemma notfinished_stays_cleared_witness :
  let a := Queue_element "/a" 0 0 "/a" in
  let x := Queue_element "/a/x" 0 0 "/a" in
  let p := Pool (Shared (Queue_anchor 0 [a]) deq_init 0 1 false) [Scanning; Waiting] in
  let tr := [LTransfer 0 2 (Queue_anchor 0 [x]); LExit 1; LRelease 0; LExit 0]%nat in
  ∃ p', pool_run true true tr p = Some p' ∧ notfinished (p_shared p') = false ∧
        length (elems (fast_anchor (p_shared p'))) = 2%nat.
Proof.
  intros a x p tr.
  destruct (pool_run true true tr p) as [p'|] eqn:E.
  - exists p'. split; [done|]. split.
    + by apply (notfinished_stays_cleared true true tr p p').
    + vm_compute in E. by injection E as <-.
  - vm_compute in E. discriminate.
Defined.

(** *** No element is lost *)

Lemma decay_speeds_both g :
  elems (fast_anchor (decay_speeds g)) ++ elems (slow_anchor (decay_speeds g))
  = elems (fast_anchor g) ++ elems (slow_anchor g).
Proof. by destruct (decay_speeds_elems g) as [-> ->]. Qed.

Lemma splice_perm (s : bool) (global p : queue_anchor) :
  elems ((if s then deq_prepend else deq_append) global p).1 ≡ₚ elems global ++ elems p ∧
  elems ((if s then deq_prepend else deq_append) global p).2 = [].
Proof.
  destruct s; unfold deq_prepend, deq_append, element_counter; simpl; (split; [|done]);
    case_decide as Hp; simpl; try done; try apply Permutation_app_comm;
    (assert (elems p = []) as -> by (destruct (elems p); [done|simpl in Hp; lia]));
    by rewrite app_nil_r.
Qed.

(** X14.  Dispatch and handback neither lose nor duplicate a queue
    element.  The element a dispatch returns is taken from one of the two
    global queues and all others stay, in their order; a dispatch returns
    NULL only when the queue it may use is empty (both queues in dual-queue
    mode, the fast queue otherwise).  A handback puts every element of the
    private queue on one global queue and empties the private queue. *)
Theorem dispatch_and_handback_keep_elements (d s : bool) (g : shared) :
  (∀ qe g', take_element d g = Some (Some qe, g') →
     (elems (fast_anchor g) = qe :: elems (fast_anchor g') ∧
      elems (slow_anchor g) = elems (slow_anchor g')) ∨
     (d = true ∧ elems (slow_anchor g) = qe :: elems (slow_anchor g') ∧
      elems (fast_anchor g) = elems (fast_anchor g'))) ∧
  (∀ g', take_element d g = Some (None, g') →
     elems (fast_anchor g) = [] ∧ (d = true → elems (slow_anchor g) = []) ∧
     elems (slow_anchor g') = elems (slow_anchor g) ∧ elems (fast_anchor g') = []) ∧
  (∀ r p, elems (hand_over d s r p g).2 = [] ∧
     elems (fast_anchor (hand_over d s r p g).1)
       ++ elems (slow_anchor (hand_over d s r p g).1)
     ≡ₚ elems (fast_anchor g) ++ elems (slow_anchor g) ++ elems p).
Proof.
  split_and!.
  - intros qe g' Htake. unfold take_element in Htake. destruct d.
    + destruct (take_dual g) as [[qe0 g0]|] eqn:Hd; [|done]. simplify_eq.
      destruct (decay_speeds_elems g0) as [-> ->].
      unfold take_dual, deq_get in Hd.
      repeat (case_match || case_decide); simplify_eq; simpl; (by left) || (by right).
    + unfold deq_get in Htake. repeat case_match; simplify_eq; simpl. by left.
  - intros g' Htake. unfold take_element in Htake. destruct d.
    + destruct (take_dual g) as [[qe0 g0]|] eqn:Hd; [|done]. simplify_eq.
      destruct (decay_speeds_elems g0) as [-> ->].
      unfold take_dual, deq_get in Hd.
      repeat (case_match || case_decide); simplify_eq; simpl; done.
    + unfold deq_get in Htake. repeat case_match; simplify_eq; simpl. done.
  - intros r p. unfold hand_over.
    pose proof (splice_perm s (fast_anchor g) p) as [Hf Hf'].
    pose proof (splice_perm s (slow_anchor g) p) as [Hs Hs'].
    destruct d; [destruct (Qle_bool _ r)|].
    + destruct ((if s then deq_prepend else deq_append) (fast_anchor g) p) as [fa p'].
      simpl in *. split; [done|]. rewrite Hf. by rewrite <- !(assoc_L (++)), (comm (++) (elems p)).
    + destruct ((if s then deq_prepend else deq_append) (slow_anchor g) p) as [sa p'].
      simpl in *. split; [done|]. by rewrite Hs.
    + destruct ((if s then deq_prepend else deq_append) (fast_anchor g) p) as [fa p'].
      simpl in *. split; [done|]. rewrite Hf. by rewrite <- !(assoc_L (++)), (comm (++) (elems p)).
Qed.

(** ** safe-funcs.c: [mk_esc_seq] *)

Lemma mk_esc_loop_spec escchar rev_string : ∀ written,
  mk_esc_loop escchar rev_string written
  = (reverse rev_string ≫= esc_char escchar) ++ written.
Proof.
  induction rev_string as [|c rest IH]; intros written; simpl; [done|].
  rewrite IH, reverse_cons, bind_app. simpl. by rewrite app_nil_r, <- app_assoc.
Qed.

Lemma mk_esc_seq_bind s escchar : mk_esc_seq s escchar = s ≫= esc_char escchar.
Proof.
  unfold mk_esc_seq. by rewrite mk_esc_loop_spec, reverse_involutive, app_nil_r.
Qed.

Lemma octal3_digits c : is_char c → Forall (λ x, 48 ≤ x ≤ 55) (octal3 c).
Proof.
  intros [? ?]. unfold octal3.
  assert (0 ≤ c / 64 < 4) by (split; [apply Z.div_pos|apply Z.div_lt_upper_bound]; lia).
  pose proof (Z.mod_pos_bound (c / 8) 8). pose proof (Z.mod_pos_bound c 8).
  repeat constructor; lia.
Qed.

Lemma named_escape_letter c r : named_escape c = Some r → 97 ≤ r ≤ 118.
Proof. unfold named_escape. repeat case_decide; intros [= <-]; lia. Qed.

Lemma esc_char_length escchar c : (1 ≤ length (esc_char escchar c) ≤ 4)%nat.
Proof.
  unfold esc_char. repeat case_decide; simpl; try lia.
  destruct (isprint c || _); simpl; [lia|]. destruct (named_escape c); simpl; lia.
Qed.

Lemma esc_char_printable escchar c x :
  is_char c → isprint escchar = true → x ∈ esc_char escchar c →
  isprint x = true ∨ 160 ≤ x < 256.
Proof.
  intros Hc He. unfold esc_char.
  destruct (decide (c = 34 ∨ c = escchar)) as [Hq|Hq].
  - intros [->|[->|?%elem_of_nil]%elem_of_cons]%elem_of_cons; [by left| |done].
    left. by destruct Hq as [->| ->].
  - destruct (isprint c) eqn:Hp; simpl.
    { intros ->%list_elem_of_singleton. by left. }
    destruct (negb (Z.land c 128 =? 0) && negb (Z.land c 96 =? 0)) eqn:Hhigh.
    { intros ->%list_elem_of_singleton. right. split; [|apply Hc].
      assert (Hall : Forall (λ c, negb (Z.land c 128 =? 0) && negb (Z.land c 96 =? 0) = true
                                  → 160 ≤ c) (seqZ 1 255)).
      { apply (bool_decide_unpack _). vm_compute. exact I. }
      eapply Forall_forall in Hall; [by apply Hall|].
      apply elem_of_seqZ. unfold is_char in Hc. lia. }
    destruct (named_escape c) as [r|] eqn:Hn.
    + intros [->|[->|?%elem_of_nil]%elem_of_cons]%elem_of_cons; [by left| |done].
      left. apply named_escape_letter in Hn. unfold isprint. apply bool_decide_eq_true. lia.
    + intros [->|Hx]%elem_of_cons; [by left|]. left.
      pose proof (octal3_digits c Hc) as Hd. eapply Forall_forall in Hd; [|done].
      unfold isprint. apply bool_decide_eq_true. lia.
Qed.

(** X15.  [mk_esc_seq] writes, for the characters of the string in their
    order, the code of each: a quote or the escape character after an escape
    character; a printable character or one from 0xA0 on as it is; a named
    control character as the escape character and its letter; any other as
    the escape character and three octal digits.  The result has between
    [len] and [4 * len] characters, so it fits the buffer of [(len << 2) + 1]
    characters; with a printable escape character it holds no control
    character; a string of printable characters without quote and escape
    character is returned as it is. *)
Theorem mk_esc_seq_codes (s : list Z) (escchar : Z) :
  mk_esc_seq s escchar = s ≫= esc_char escchar ∧
  (length s ≤ length (mk_esc_seq s escchar) ≤ 4 * length s)%nat ∧
  (Forall is_char s → isprint escchar = true →
     Forall (λ x, isprint x = true ∨ 160 ≤ x < 256) (mk_esc_seq s escchar)) ∧
  (Forall (λ c, isprint c = true ∧ c ≠ 34 ∧ c ≠ escchar) s → mk_esc_seq s escchar = s).
Proof.
  rewrite mk_esc_seq_bind. split; [done|]. split; [|split].
  - induction s as [|c s IH]; [simpl; lia|]. rewrite bind_cons, length_app.
    pose proof (esc_char_length escchar c). simpl length. lia.
  - intros Hs He. apply Forall_forall. intros x (c & Hx & Hc)%list_elem_of_bind.
    eapply Forall_forall in Hs; [|done]. by eapply esc_char_printable.
  - induction 1 as [|c s (Hp & Hq & He) _ IH]; [done|]. rewrite bind_cons, IH.
    unfold esc_char. rewrite decide_False by tauto. by rewrite Hp.
Qed.

(** No code of a character is the start of the code of another one. *)
Lemma esc_char_prefix_free :
  Forall (λ c1, Forall (λ c2, esc_char 92 c1 `prefix_of` esc_char 92 c2 → c1 = c2)
                  (seqZ 1 255)) (seqZ 1 255).
Proof. apply (bool_decide_unpack _). vm_compute. exact I. Qed.

Lemma esc_char_inj c1 c2 r1 r2 :
  is_char c1 → is_char c2 →
  esc_char 92 c1 ++ r1 = esc_char 92 c2 ++ r2 → c1 = c2 ∧ r1 = r2.
Proof.
  intros H1 H2 Heq.
  assert (Hin : ∀ c, is_char c → c ∈ seqZ 1 255).
  { intros c Hc. apply elem_of_seqZ. unfold is_char in Hc. lia. }
  pose proof esc_char_prefix_free as Hpf.
  assert (Hp : ∀ a b, is_char a → is_char b →
            esc_char 92 a `prefix_of` esc_char 92 b → a = b).
  { intros a b Ha Hb.
    pose proof (proj1 (Forall_forall _ _) Hpf a (Hin a Ha)) as Hpa. simpl in Hpa.
    exact (proj1 (Forall_forall _ _) Hpa b (Hin b Hb)). }
  assert (c1 = c2) as ->.
  { destruct (prefix_weak_total (esc_char 92 c1) (esc_char 92 c2) (esc_char 92 c1 ++ r1)) as [?|?].
    - by apply prefix_app_r.
    - rewrite Heq. by apply prefix_app_r.
    - by apply Hp.
    - symmetry. by apply Hp. }
  split; [done|]. by apply app_inv_head in Heq.
Qed.

(** X16.  With the backslash as escape character the escaped string
    determines the string: two strings with the same result of
    [mk_esc_seq] are the same. *)
Theorem mk_esc_seq_backslash_injective (s1 s2 : list Z) :
  Forall is_char s1 → Forall is_char s2 →
  mk_esc_seq s1 92 = mk_esc_seq s2 92 → s1 = s2.
Proof.
  rewrite !mk_esc_seq_bind. revert s2.
  induction s1 as [|c1 s1 IH]; intros [|c2 s2] H1 H2 Heq.
  - done.
  - rewrite bind_cons in Heq. simpl in Heq.
    pose proof (esc_char_length 92 c2). destruct (esc_char 92 c2); simpl in *; [lia|done].
  - rewrite bind_cons in Heq. simpl in Heq.
    pose proof (esc_char_length 92 c1). destruct (esc_char 92 c1); simpl in *; [lia|done].
  - apply Forall_cons in H1 as [Hc1 H1], H2 as [Hc2 H2].
    rewrite !bind_cons in Heq.
    apply esc_char_inj in Heq as [-> Heq]; [|done..].
    f_equal. by apply IH.
Qed.

Lemma mk_esc_seq_backslash_injective_witness :
  let s1 := [97; 10; 34] in
  let s2 := [97; 5 + 5; 34] in
  mk_esc_seq s1 92 = [97; 92; 110; 92; 34] ∧ s1 = s2.
Proof.
  intros s1 s2. split; [by vm_compute|].
  apply (mk_esc_seq_backslash_injective s1 s2).
  - repeat constructor; unfold is_char; lia.
  - repeat constructor; unfold is_char; lia.
  - by vm_compute.
Defined.

(** ** chuid.c: the thread [statistic] *)

Lemma add_counters_files cs : ∀ loc,
  gfilecount (foldl add_counters loc cs)
  = (if decide (cs = []) then gfilecount loc else u64 (gfilecount loc + total_files cs)) ∧
  glinkcount (foldl add_counters loc cs) = glinkcount loc ∧
  olinkcount (foldl add_counters loc cs) = olinkcount loc ∧
  ofilecount (foldl add_counters loc cs) = ofilecount loc.
Proof.
  induction cs as [|c cs IH]; intros loc; [done|].
  simpl. destruct (IH (add_counters loc c)) as (-> & -> & -> & ->). simpl.
  split; [|done]. unfold u64. destruct (decide (cs = [])) as [->|?].
  - simpl. by rewrite Z.add_0_r.
  - rewrite Zplus_mod_idemp_l. f_equal. lia.
Qed.

Lemma statistic_round_spec d n interval cs g loc :
  statistic_ready loc → interval ≠ 0 →
  ∃ row loc',
    statistic_round d n interval cs g loc = Some (row, loc') ∧
    statistic_ready loc' ∧
    row_lscanrate row = 0 ∧
    row_files row = u64 (total_files cs) ∧
    row_fscanrate row = u64 (u64 (total_files cs) - ofilecount loc) / interval ∧
    ofilecount loc' = u64 (total_files cs).
Proof.
  intros (Hf & Hd & Hl & Ho & Hgl & Hol) Hi. unfold statistic_round.
  rewrite decide_False by done.
  destruct (add_counters_files cs loc) as (Hfiles & Hlink & Holink & Hofile).
  assert (Hg : gfilecount (foldl add_counters loc cs) = u64 (total_files cs)).
  { rewrite Hfiles, Hf. by destruct (decide (cs = [])) as [->|?]. }
  eexists _, _. split; [done|]. simpl.
  rewrite Hlink, Holink, Hgl, Hol, Hg, Hofile. by split_and!.
Qed.

(** X17.  The table of [statistic].  The column links/s is 0 in every
    line, whatever the link counters of the workers: the rate is computed
    from [glinkcount], which is never added to.  The column files holds the
    total of the file counters, and files/s the whole quotient of its growth
    since the line before by the interval.  With an interval of 0 the first
    line is a division by zero. *)
Theorem statistic_link_rate_always_zero (d : bool) (n interval : Z)
    (readings : list (list statistic_counters * shared)) :
  (interval = 0 → readings ≠ [] → statistic d n interval readings statistic_start = None) ∧
  (interval ≠ 0 →
   ∃ rows, statistic d n interval readings statistic_start = Some rows ∧
     length rows = length readings ∧
     ∀ k row, rows !! k = Some row →
       row_lscanrate row = 0 ∧
       row_files row = files_read readings k ∧
       row_fscanrate row
       = u64 (files_read readings k
              - match k with O => 0 | S j => files_read readings j end) / interval).
Proof.
  split.
  - intros -> Hne. destruct readings as [|[cs g] rest]; [done|]. done.
  - intros Hi.
    assert (Hgen : ∀ rs loc, statistic_ready loc →
      ∃ rows, statistic d n interval rs loc = Some rows ∧
        length rows = length rs ∧
        ∀ k row, rows !! k = Some row →
          row_lscanrate row = 0 ∧
          row_files row = files_read rs k ∧
          row_fscanrate row
          = u64 (files_read rs k
                 - match k with O => ofilecount loc | S j => files_read rs j end) / interval).
    { induction rs as [|[cs g] rs IH]; intros loc Hready.
      - exists []. by split_and!.
      - destruct (statistic_round_spec d n interval cs g loc Hready Hi)
          as (row & loc' & Hr & Hready' & Hl & Hf & Hrate & Ho).
        destruct (IH loc' Hready') as (rows & Hrows & Hlen & Hall).
        exists (row :: rows). simpl. rewrite Hr, Hrows. split; [done|].
        split; [by rewrite Hlen|]. intros [|k] row' Hk; simpl in Hk.
        + simplify_eq. unfold files_read. simpl. by rewrite Hf, Hrate.
        + destruct (Hall k row' Hk) as (H1 & H2 & H3). split; [done|].
          split; [done|]. rewrite H3. destruct k; [|done].
          unfold files_read at 3. simpl. by rewrite Ho. }
    apply (Hgen readings statistic_start). by repeat split.
Qed.

(** ** hash.c: what the arena holds *)

Lemma h_mins_all_snoc l i d : ∀ ht,
  h_mins_all ht (l ++ [(i, d)])
  = match h_mins_all ht l with
    | Some (ht', rs) =>
        match h_mins ht' i d with
        | Some (ht'', r) => Some (ht'', rs ++ [r])
        | None => None
        end
    | None => None
    end.
Proof.
  induction l as [|[i0 d0] l IH]; intros ht; simpl.
  - by destruct (h_mins ht i d) as [[? ?]|].
  - destruct (h_mins ht i0 d0) as [[ht1 r1]|]; [|done]. rewrite IH.
    destruct (h_mins_all ht1 l) as [[ht2 rs]|]; [|done].
    by destruct (h_mins ht2 i d) as [[? ?]|].
Qed.

Lemma h_calls_fit_le m s n n' : (n' ≤ n)%nat → h_calls_fit m s n → h_calls_fit m s n'.
Proof. intros Hle (? & ? & ? & ?). unfold h_calls_fit. split_and!; try done; nia. Qed.

(** X19.  The arena of the hardlink table after any sequence of [h_mins]
    calls (within the bound [h_calls_fit]): it holds each pair of the
    sequence once, in the order in which the pairs first came, across all
    growth; [first_free] is their number and never exceeds the arena size;
    the two sizes keep the ratio they were created with. *)
Theorem h_mins_keeps_first_occurrences (m s : Z) (l : list (Z * Z)) :
  h_calls_fit m s (length l + 1) →
  ∃ ht rs,
    h_mins_all (h_init m s) l = Some (ht, rs) ∧
    h_set ht = reverse (remove_dups (reverse l)) ∧
    NoDup (h_set ht) ∧
    first_free ht = Z.of_nat (length (h_set ht)) ∧
    first_free ht ≤ het_tab_size ht ∧
    s * h_mod ht = m * het_tab_size ht.
Proof.
  induction l as [|[i d] l IH] using rev_ind; intros Hfit.
  - exists (h_init m s), []. split; [done|]. rewrite h_init_set.
    pose proof Hfit as (Hm & Hs & _).
    pose proof (h_init_wf m s Hm Hs) as Hwf.
    split_and!; [done|apply NoDup_nil_2|done|apply (wf_free _ Hwf)|simpl; lia].
  - rewrite length_app in Hfit. simpl in Hfit.
    destruct IH as (ht & rs & Hall & Hset & Hnd & Hfree & Hle & Hratio).
    { eapply h_calls_fit_le; [|done]. lia. }
    pose proof Hfit as (Hm & Hs & _).
    destruct (h_mins_all_inv m s ltac:(lia) ltac:(lia) l 2 [] (h_init m s))
      as (ht0 & Hall0 & Hinv).
    { apply h_init_inv. eapply h_calls_fit_le; [|done]. lia. }
    rewrite Hall in Hall0. injection Hall0 as <- _.
    pose proof Hinv as (Hwf & _ & Hmem & _).
    assert (Hinv1 : h_inv m s 1 (reverse l ++ []) ht).
    { destruct Hinv as (? & ? & ? & ? & ? & ?). unfold h_inv. split_and!; try done; lia. }
    destruct (h_mins_inv m s 0 _ ht i d ltac:(lia) ltac:(lia) Hinv1)
      as (ht' & Hmins & Hinv' & Hgeo).
    pose proof Hinv' as (Hwf' & Hnd' & _ & Hratio' & _).
    destruct (h_mins_spec ht i d Hwf Hnd) as (ht1 & Hmins1 & _ & _ & Hset1 & _).
    { intros Hfull. apply (h_inv_no_wrap m s 0 (reverse l ++ []) ht); [lia|lia|exact Hinv1|done]. }
    assert (Hin : (i, d) ∈ h_set ht ↔ (i, d) ∈ reverse l ++ []) by apply Hmem.
    rewrite (decide_ext _ _ _ _ Hin) in Hmins1. rewrite Hmins in Hmins1.
    injection Hmins1 as <-.
    exists ht', (rs ++ [if decide ((i, d) ∈ reverse l ++ []) then 1 else 0]).
    split_and!.
    + by rewrite h_mins_all_snoc, Hall, Hmins.
    + rewrite Hset1, Hset, reverse_app. simpl.
      destruct (decide_rel elem_of (i, d) (reverse l)) as [Hd|Hd].
      * rewrite decide_True; [done|]. by rewrite elem_of_reverse, elem_of_remove_dups.
      * rewrite decide_False; [by rewrite reverse_cons|].
        intros Hin'. apply Hd. by rewrite elem_of_reverse, elem_of_remove_dups in Hin'.
    + done.
    + symmetry. by apply h_set_length.
    + apply (wf_free _ Hwf').
    + done.
Qed.

Lemma h_mins_keeps_first_occurrences_witness :
  ∃ ht rs,
    h_mins_all (h_init 2 1) [(7, 1); (9, 1); (7, 1); (3, 2)] = Some (ht, rs) ∧
    h_set ht = [(7, 1); (9, 1); (3, 2)] ∧ het_tab_size ht = 4.
Proof.
  destruct (h_mins_keeps_first_occurrences 2 1 [(7, 1); (9, 1); (7, 1); (3, 2)])
    as (ht & rs & Hall & Hset & _).
  { unfold h_calls_fit. simpl. lia. }
  exists ht, rs. split; [done|]. split.
  - rewrite Hset. by vm_compute.
  - vm_compute in Hall. injection Hall as <- _. by vm_compute.
Defined.
(** *** The traversal: which entries a run rewrites *)

Ltac mem_equiv :=
  rewrite ?elem_of_cons, ?elem_of_app, ?elem_of_cons, ?elem_of_app, ?elem_of_nil; tauto.

Section Traversal.
Context (cfg : config) (env : environment) (o0 : owners).
Hypothesis Huid : NoDup (begin_uidpair cfg).*1.
Hypothesis Hgid : NoDup (begin_gidpair cfg).*1.

#[local] Abbreviation roots := (begin_fs_list cfg).
#[local] Abbreviation excl := (begin_exclude_file cfg).
#[local] Abbreviation inv := (traversal_inv cfg env o0).
#[local] Abbreviation child dir d_name := (dir +:+ "/" +:+ d_name).

Lemma below_inv_S dir pos all p :
  fs_dirs env !! dir = Some all → below excl env dir pos p →
  below excl env dir (S pos) p ∨
  ∃ d_name, all !! pos = Some d_name ∧ included excl d_name ∧
    (p = child dir d_name ∨
     ∃ d, fs_lstat env !! child dir d_name = Some d ∧ d_mode d = S_IFDIR ∧
          below excl env (child dir d_name) 0 p).
Proof.
  intros Hall Hb.
  destruct Hb as [dir pos entries i d_name He Hi Hle Hinc
                 |dir pos entries i d_name d path He Hi Hle Hinc Hd Hm Hb];
    simplify_eq; (destruct (decide (i = pos)) as [->|Hne];
      [right; exists d_name; eauto 10|left]).
  - eapply below_entry; eauto. lia.
  - eapply below_deep; eauto. lia.
Qed.

Lemma below_none dir pos p : fs_dirs env !! dir = None → ¬ below excl env dir pos p.
Proof. intros Hn Hb. destruct Hb; simplify_eq. Qed.

Lemma below_end dir pos all p :
  fs_dirs env !! dir = Some all → (length all ≤ pos)%nat → ¬ below excl env dir pos p.
Proof.
  intros Hall Hlen Hb.
  destruct Hb as [? ? ? i ? ? Hi|? ? ? i ? ? ? ? Hi]; simplify_eq;
    apply lookup_lt_Some in Hi; lia.
Qed.

Lemma below_trans r pos q d p :
  below excl env r pos q → fs_lstat env !! q = Some d → d_mode d = S_IFDIR →
  below excl env q 0 p → below excl env r pos p.
Proof.
  induction 1 as [dir pos entries i d_name He Hi Hle Hinc
                 |dir pos entries i d_name d' path He Hi Hle Hinc Hd' Hm' Hb IH];
    intros Hd Hm Hp.
  - eapply below_deep; eauto.
  - eapply below_deep; eauto.
Qed.

Lemma in_scope_child dir all i d_name :
  scope_dir roots excl env dir → fs_dirs env !! dir = Some all →
  all !! i = Some d_name → included excl d_name →
  in_scope roots excl env (child dir d_name).
Proof.
  intros [[Hr Hs]|(d & (root & Hr & Hs & Hb) & Hd & Hm)] Hall Hi Hinc.
  - exists dir. split_and!; [done..|]. eapply below_entry; eauto. lia.
  - exists root. split_and!; [done..|]. eapply below_trans; eauto.
    eapply below_entry; eauto. lia.
Qed.

(** What is pending in [Q] is pending in [Q']. *)
Lemma pending_mono (D : Prop) (Q Q' : list (string * nat)) path :
  (∀ dir pos, (dir, pos) ∈ Q → below excl env dir pos path →
     D ∨ ∃ dir' pos', ((dir', pos') ∈ Q') ∧ below excl env dir' pos' path) →
  (D ∨ ∃ dir pos, ((dir, pos) ∈ Q) ∧ below excl env dir pos path) →
  D ∨ ∃ dir pos, ((dir, pos) ∈ Q') ∧ below excl env dir pos path.
Proof. intros Hstep [?|(dir & pos & Hin & Hb)]; [by left|]. by eapply Hstep. Qed.

Lemma inv_equiv w Q Q' : (∀ x, x ∈ Q ↔ x ∈ Q') → inv w Q → inv w Q'.
Proof.
  intros Heq [H1 H2 H3 H4 H5 H6 H7]. split; try done.
  - intros dir pos Hin. apply (H2 dir pos). by apply Heq.
  - intros Hrw path Hs. eapply pending_mono; [|exact (H5 Hrw path Hs)].
    intros dir pos Hin Hb. right. exists dir, pos. split; [by apply Heq|done].
  - intros Hdry path Hs. eapply pending_mono; [|exact (H7 Hdry path Hs)].
    intros dir pos Hin Hb. right. exists dir, pos. split; [by apply Heq|done].
Qed.

Lemma quiet_ext_refl es : quiet_ext es es.
Proof. exists []. by rewrite app_nil_r. Qed.

Lemma quiet_ext_trans es1 es2 es3 :
  quiet_ext es1 es2 → quiet_ext es2 es3 → quiet_ext es1 es3.
Proof.
  intros (a1 & -> & H1) (a2 & -> & H2). exists (a1 ++ a2).
  split; [by rewrite app_assoc|by apply Forall_app].
Qed.

Lemma quiet_ext_emit es w :
  Forall (λ e, ¬ is_stdout e) es → quiet_ext (w_events w) (w_events (emit es w)).
Proof. intros Hes. by exists es. Qed.

(** The invariant does not depend on the scheduler, the clock or the heap,
    nor on what the trace holds beside the lines on stdout. *)
Lemma inv_world w w' Q :
  w_owners w' = w_owners w → w_htab w' = w_htab w →
  quiet_ext (w_events w) (w_events w') → inv w Q → inv w' Q.
Proof.
  intros Ho Ht (add & He & Hadd) [H1 H2 H3 H4 H5 H6 H7].
  split; rewrite ?Ho, ?Ht; try done.
  - intros e Hin Hout. apply H6; [|done]. rewrite He in Hin.
    apply elem_of_app in Hin as [Hin|Hin]; [done|].
    eapply Forall_forall in Hadd; [|exact Hin]. done.
  - intros Hdry path Hs. destruct (H7 Hdry path Hs) as [Hp|?]; [left|by right].
    intros d Hd Hm Hh e Hin. rewrite He. apply elem_of_app. left. by eapply Hp.
Qed.

Lemma inv_finish w dir pos Q :
  (∀ p, ¬ below excl env dir pos p) → inv w ((dir, pos) :: Q) → inv w Q.
Proof.
  intros Hno [H1 H2 H3 H4 H5 H6 H7].
  assert (Hpend : ∀ dir' pos' path (D : Prop),
    (dir', pos') ∈ (dir, pos) :: Q → below excl env dir' pos' path →
    D ∨ ∃ dir0 pos0, ((dir0, pos0) ∈ Q) ∧ below excl env dir0 pos0 path).
  { intros dir' pos' path D Hin Hb.
    apply elem_of_cons in Hin as [Heq|Hin]; [inversion Heq; subst; by destruct (Hno path)|].
    right. eauto. }
  split; try done.
  - intros dir' pos' Hin. apply (H2 dir' pos'). by right.
  - intros Hrw path Hs. eapply pending_mono; [|exact (H5 Hrw path Hs)]. intros; by eapply Hpend.
  - intros Hdry path Hs. eapply pending_mono; [|exact (H7 Hdry path Hs)]. intros; by eapply Hpend.
Qed.

Lemma inv_skip w dir pos all d_name Q :
  fs_dirs env !! dir = Some all → all !! pos = Some d_name → ¬ included excl d_name →
  inv w ((dir, pos) :: Q) → inv w ((dir, S pos) :: Q).
Proof.
  intros Hall Hi Hex [H1 H2 H3 H4 H5 H6 H7].
  assert (Hpend : ∀ dir' pos' path (D : Prop),
    (dir', pos') ∈ (dir, pos) :: Q → below excl env dir' pos' path →
    D ∨ ∃ dir0 pos0, ((dir0, pos0) ∈ (dir, S pos) :: Q) ∧ below excl env dir0 pos0 path).
  { intros dir' pos' path D Hin Hb. right. apply elem_of_cons in Hin as [Heq|Hin].
    + inversion Heq; subst. destruct (below_inv_S _ _ _ _ Hall Hb) as [Hb'|(n & Hn & Hinc & _)].
      * exists dir, (S pos). split; [left|done].
      * simplify_eq. done.
    + exists dir', pos'. split; [by right|done]. }
  split; try done.
  - intros dir' pos' Hin. apply elem_of_cons in Hin as [Heq|Hin].
    + inversion Heq; subst. apply (H2 dir pos). left.
    + apply (H2 dir' pos'). by right.
  - intros Hrw path Hs. eapply pending_mono; [|exact (H5 Hrw path Hs)]. intros; by eapply Hpend.
  - intros Hdry path Hs. eapply pending_mono; [|exact (H7 Hdry path Hs)]. intros; by eapply Hpend.
Qed.

Lemma new_owner_idemp v :
  rewriting cfg → new_owner cfg (new_owner cfg v) = new_owner cfg v.
Proof.
  intros (_ & _ & _ & Hcu & Hcg). unfold new_owner. simpl. by rewrite !new_id_idemp.
Qed.

Lemma inv_visit w w' dir pos all d_name Q :
  fs_dirs env !! dir = Some all → all !! pos = Some d_name → included excl d_name →
  (w_owners w' = w_owners w ∨
   ∃ d call tag, fs_lstat env !! child dir d_name = Some d ∧ d_mode d ≠ S_IFOTHER ∧
     w_owners w' = (rewrite_dentry cfg env call tag (child dir d_name) d (w_owners w)).1) →
  (w_htab w' = w_htab w ∨
   ∃ d r, fs_lstat env !! child dir d_name = Some d ∧ d_mode d ≠ S_IFOTHER ∧
     h_mins (w_htab w) (d_ino d) (d_dev d) = Some (w_htab w', r)) →
  (rewriting cfg →
   ∀ d, fs_lstat env !! child dir d_name = Some d → d_mode d ≠ S_IFOTHER →
     w_owners w' = (rewrite_dentry cfg env Chown "FILE" (child dir d_name) d (w_owners w)).1
     ∨ w_owners w' = (rewrite_dentry cfg env Chown "DIRECTORY" (child dir d_name) d (w_owners w)).1
     ∨ w_owners w' = (rewrite_dentry cfg env Lchown "DIRECTORY" (child dir d_name) d (w_owners w)).1
     ∨ (d_ino d, d_dev d) ∈ h_set (w_htab w)) →
  (quiet_ext (w_events w) (w_events w') ∨
   ∃ d call, fs_lstat env !! child dir d_name = Some d ∧ d_mode d ≠ S_IFOTHER ∧
     w_events w'
     = w_events w
       ++ (rewrite_dentry cfg env call (entry_tag d) (child dir d_name) d (w_owners w)).2) →
  (dryrun cfg = true →
   ∀ d, fs_lstat env !! child dir d_name = Some d → d_mode d ≠ S_IFOTHER → ¬ hardlinked d →
     ∃ call, w_events w'
             = w_events w
               ++ (rewrite_dentry cfg env call (entry_tag d) (child dir d_name) d
                     (w_owners w)).2) →
  inv w ((dir, pos) :: Q) →
  inv w' ((dir, S pos) :: added env (child dir d_name) ++ Q).
Proof.
  intros Hall Hi Hinc Ho Ht Hdone Hev Hpr [H1 H2 H3 H4 H5 H6 H7].
  set (p := child dir d_name) in *.
  assert (Hsame : dryrun cfg = true → ∀ k, w_owners w k = o0 k).
  { intros Hdry k. destruct (decide (w_owners w k = o0 k)) as [?|Hne]; [done|].
    destruct (H1 k Hne) as (? & ? & _ & _ & _ & _ & Hf & _). congruence. }
  assert (Hmono : ∀ e, e ∈ w_events w → e ∈ w_events w').
  { intros e Hin. destruct Hev as [(add & -> & _)|(d & call & _ & _ & ->)];
      apply elem_of_app; by left. }
  assert (Hpend : ∀ dir' pos' path,
    (dir', pos') ∈ (dir, pos) :: Q → below excl env dir' pos' path →
    path = p ∨ ∃ dir0 pos0, ((dir0, pos0) ∈ (dir, S pos) :: added env p ++ Q) ∧
                              below excl env dir0 pos0 path).
  { intros dir' pos' path Hin Hb.
    apply elem_of_cons in Hin as [Heq|Hin].
    2:{ right. exists dir', pos'. split; [|done]. right. apply elem_of_app. by right. }
    inversion Heq; subst.
    destruct (below_inv_S _ _ _ _ Hall Hb) as [Hb'|(n & Hn & _ & [->|(d & Hd & Hm & Hb')])].
    + right. exists dir, (S pos). split; [left|done].
    + simplify_eq. by left.
    + simplify_eq. right. exists p, 0%nat. split; [|done]. right. apply elem_of_app. left.
      subst p. unfold added. rewrite Hd, decide_True by done. left. }
  assert (Hscope : in_scope roots excl env p).
  { eapply in_scope_child; eauto. apply (H2 dir pos). left. }
  assert (F1 : ∀ k, w_owners w' k = w_owners w k ∨
     ∃ d, fs_lstat env !! p = Some d ∧ (d_ino d, d_dev d) = k ∧ (p ∉ fs_denied env) ∧
          dryrun cfg = false ∧ d_mode d ≠ S_IFOTHER ∧
          w_owners w' k = new_owner cfg (w_owners w k)).
  { intros k. destruct Ho as [->|(d & call & tag & Hd & Hm & ->)]; [by left|].
    destruct (dryrun cfg) eqn:Hdry.
    - left. by rewrite (proj1 (rewrite_dentry_dry cfg env call tag p d (w_owners w) Hdry)).
    - rewrite (rewrite_dentry_owners cfg env call tag p d (w_owners w) Hdry Hd Huid Hgid).
      case_decide as Hk; [|by left]. destruct Hk as [-> Hden]. right. exists d.
      split_and!; done. }
  assert (F3 : rewriting cfg → ∀ k, w_owners w k = new_owner cfg (o0 k) →
                 w_owners w' k = new_owner cfg (o0 k)).
  { intros Hrw k Hk. destruct (F1 k) as [->|(d & _ & _ & _ & _ & _ & ->)]; [done|].
    rewrite Hk. by apply new_owner_idemp. }
  assert (F2 : rewriting cfg → ∀ k, w_owners w' k = new_owner cfg (w_owners w k) →
                 w_owners w' k = new_owner cfg (o0 k)).
  { intros Hrw k Hk. destruct (H3 Hrw k) as [Hk0|Hk0].
    - by rewrite Hk, Hk0.
    - rewrite Hk, Hk0. by apply new_owner_idemp. }
  assert (F4 : rewriting cfg → done_path cfg env o0 (w_owners w') p).
  { intros Hrw d Hd Hm Hclean.
    assert (Hden : p ∉ fs_denied env) by (by eapply Hclean).
    assert (Hrd : ∀ call tag,
      w_owners w' = (rewrite_dentry cfg env call tag p d (w_owners w)).1 →
      w_owners w' (d_ino d, d_dev d) = new_owner cfg (o0 (d_ino d, d_dev d))).
    { intros call tag Heq. apply F2; [done|]. rewrite Heq.
      rewrite (rewrite_dentry_owners cfg env call tag p d (w_owners w)
                 (proj1 Hrw) Hd Huid Hgid).
      by rewrite decide_True. }
    destruct (Hdone Hrw d Hd Hm) as [Heq|[Heq|[Heq|Hin]]]; eauto.
    apply F3; [done|]. by apply (proj2 (H4 Hrw)). }
  split.
  - intros k Hk. destruct (F1 k) as [Heq|(d & Hd & Hkd & Hden & Hdry & Hm & _)].
    + apply H1. by rewrite <- Heq.
    + exists p, d. split_and!; done.
  - intros dir' pos' Hin. apply elem_of_cons in Hin as [Heq|Hin].
    { inversion Heq; subst. apply (H2 dir pos). left. }
    apply elem_of_app in Hin as [Hin|Hin]; [|apply (H2 dir' pos'); by right].
    unfold added in Hin. destruct (fs_lstat env !! p) as [d|] eqn:Hd; [|by inversion Hin].
    case_decide as Hm; [|by inversion Hin].
    apply list_elem_of_singleton in Hin. simplify_eq. right. exists d. done.
  - intros Hrw k. destruct (H3 Hrw k) as [Hk|Hk].
    + destruct (F1 k) as [->|(d & _ & _ & _ & _ & _ & ->)]; [by left|]. right. by rewrite Hk.
    + right. by apply F3.
  - intros Hrw. destruct (H4 Hrw) as [Hok Htab].
    destruct Ht as [->|(d & r & Hd & Hm & Hmins)].
    { split; [done|]. intros k Hk Hc. apply F3; [done|]. by apply Htab. }
    destruct (h_mins_defined _ _ _ _ _ Hok Hmins) as [Hok' Hset]. split; [done|].
    intros k Hk Hc.
    destruct Hset as [(_ & _ & Hset)|(-> & Hnin & Hset)]; rewrite Hset in Hk.
    { apply F3; [done|]. by apply Htab. }
    apply elem_of_app in Hk as [Hk|Hk]; [apply F3; [done|]; by apply Htab|].
    apply list_elem_of_singleton in Hk. subst k.
    by apply (F4 Hrw d).
  - intros Hrw path Hs. destruct (H5 Hrw path Hs) as [Hd|(dir' & pos' & Hin & Hb)].
    { left. intros d Hd' Hm Hc. apply F3; [done|]. by apply Hd. }
    destruct (Hpend dir' pos' path Hin Hb) as [->|?]; [|by right].
    left. by apply F4.
  - intros e Hin Hout.
    destruct Hev as [(add & He & Hadd)|(d & call & Hd & Hm & He)]; rewrite He in Hin;
      apply elem_of_app in Hin as [Hin|Hin]; try (by apply H6).
    { eapply Forall_forall in Hadd; [|exact Hin]. done. }
    destruct (dryrun cfg) eqn:Hdry.
    + exists p, d. split_and!; try done.
      destruct (rewrite_dentry_dry cfg env call (entry_tag d) p d (w_owners w) Hdry)
        as (_ & Hl & _).
      rewrite Hl in Hin. by rewrite Hsame in Hin.
    + pose proof (rewrite_dentry_no_stdout cfg env call (entry_tag d) p d (w_owners w) Hdry)
        as Hno.
      eapply Forall_forall in Hno; [|exact Hin]. done.
  - intros Hdry path Hs. destruct (H7 Hdry path Hs) as [Hd|(dir' & pos' & Hin & Hb)].
    { left. intros d Hd' Hm Hh e He. apply Hmono. by eapply Hd. }
    destruct (Hpend dir' pos' path Hin Hb) as [->|?]; [|by right].
    left. intros d Hd Hm Hh e He. destruct (Hpr Hdry d Hd Hm Hh) as [call ->].
    apply elem_of_app. right.
    destruct (rewrite_dentry_dry cfg env call (entry_tag d) p d (w_owners w) Hdry)
      as (_ & -> & _).
    by rewrite Hsame.
Qed.

Lemma rewrite_entry_fields call tag dir path d ht w u g :
  w_owners w (d_ino d, d_dev d) = (u, g) →
  let w' := rewrite_entry cfg env call tag dir path
              (Stat (d_mode d) (d_nlink d) (d_ino d) (d_dev d) u g) ht w in
  w_owners w' = (rewrite_dentry cfg env call tag path d (w_owners w)).1 ∧
  w_events w' = w_events w ++ (rewrite_dentry cfg env call tag path d (w_owners w)).2 ∧
  w_htab w' = ht ∧ w_shared w' = w_shared w.
Proof.
  intros Ho. unfold rewrite_entry, rewrite_dentry. simpl. rewrite Ho.
  rewrite <- (id_rewrite_heap cfg env call tag dir path u g (w_memory w) (w_owners w)).
  by destruct (id_rewrite _ _ _ _ _ _ _ _ _ _) as [[? ?] ?].
Qed.

Lemma visit_child_inv we d_name pa w all pos G r :
  fs_dirs env !! name we = Some all → all !! pos = Some d_name → included excl d_name →
  inv w ((name we, pos) :: (pos_of <$> elems pa) ++ G) →
  visit_child cfg env we d_name pa w = Some r →
  name r.1.1 = name we ∧ w_shared r.2 = w_shared w ∧
  inv r.2 ((name we, S pos) :: (pos_of <$> elems r.1.2) ++ G).
Proof.
  intros Hall Hi Hinc Hinv Hv.
  pose proof (λ w' Ho Ht Hd He Hp,
                inv_visit w w' _ _ _ _ _ Hall Hi Hinc Ho Ht Hd He Hp Hinv) as Hstep.
  unfold visit_child, lstat in Hv.
  destruct (fs_lstat env !! child (name we) d_name) as [d|] eqn:Hd.
  2:{ simplify_eq. simpl. split; [done|]. split; [done|].
      unfold added in Hstep. rewrite Hd in Hstep. apply Hstep; try done; try (by left).
      left. apply quiet_ext_emit. repeat constructor. by intros []. }
  assert (Hadd : added env (child (name we) d_name)
                 = match d_mode d with
                   | S_IFDIR => [(child (name we) d_name, 0%nat)] | _ => []
                   end).
  { unfold added. rewrite Hd. by destruct (d_mode d). }
  rewrite Hadd in Hstep. clear Hadd.
  destruct (w_owners w (d_ino d, d_dev d)) as [u g] eqn:Ho. simpl in Hv.
  pose proof (λ call tag dir ht,
                rewrite_entry_fields call tag dir (child (name we) d_name) d ht w u g Ho)
    as Hrw. simpl in Hrw.
  destruct (d_mode d) eqn:Hm.
  - assert (Htag : entry_tag d = "FILE") by (unfold entry_tag; by rewrite Hm).
    destruct (decide (1 < d_nlink d)) as [Hn|Hn].
    + destruct (h_mins (w_htab w) (d_ino d) (d_dev d)) as [[ht known]|] eqn:Hmins; [|done].
      case_decide as Hk; simplify_eq; simpl.
      * destruct (Hrw Chown "FILE" false ht) as (Ho' & He' & Ht' & Hs').
        split; [done|]. split; [done|]. apply Hstep.
        -- right. exists d, Chown, "FILE". by rewrite Hm.
        -- right. exists d, known. rewrite Ht', Hm. done.
        -- intros _ d' Hd' _. simplify_eq. by left.
        -- right. exists d, Chown. rewrite Htag, Hm. done.
        -- intros _ d' Hd' _ Hh. simplify_eq. destruct Hh. by split.
      * split; [done|]. split; [done|]. apply Hstep; simpl.
        -- by left.
        -- right. exists d, known. by rewrite Hm.
        -- intros Hrew d' Hd' _. simplify_eq. right. right. right.
           destruct (h_mins_defined _ _ _ _ _ (proj1 (inv_table _ _ _ _ _ Hinv Hrew)) Hmins)
             as [_ [(_ & Hin & _)|(-> & _)]]; [done|]. destruct Hk. by right.
        -- left. apply quiet_ext_refl.
        -- intros _ d' Hd' _ Hh. simplify_eq. destruct Hh. by split.
    + rewrite decide_True in Hv by (by right). simplify_eq. simpl.
      destruct (Hrw Chown "FILE" false (w_htab w)) as (Ho' & He' & Ht' & Hs').
      split; [done|]. split; [done|]. apply Hstep.
      * right. exists d, Chown, "FILE". by rewrite Hm.
      * by left.
      * intros _ d' Hd' _. simplify_eq. by left.
      * right. exists d, Chown. rewrite Htag, Hm. done.
      * intros _ d' Hd' _ _. simplify_eq. exists Chown. by rewrite Htag.
  - assert (Htag : entry_tag d = "DIRECTORY") by (unfold entry_tag; by rewrite Hm).
    simplify_eq. simpl.
    destruct (Hrw Lchown "DIRECTORY" false (w_htab w)) as (Ho' & He' & Ht' & Hs').
    split; [done|]. split; [done|]. apply Hstep.
    + right. exists d, Lchown, "DIRECTORY". by rewrite Hm.
    + by left.
    + intros _ d' Hd' _. simplify_eq. by right; right; left.
    + right. exists d, Lchown. rewrite Htag, Hm. done.
    + intros _ d' Hd' _ _. simplify_eq. exists Lchown. by rewrite Htag.
  - assert (Htag : entry_tag d = "DIRECTORY") by (unfold entry_tag; by rewrite Hm).
    simplify_eq. simpl.
    destruct (Hrw Chown "DIRECTORY" true (w_htab w)) as (Ho' & He' & Ht' & Hs').
    split; [done|]. split; [done|].
    eapply inv_equiv; [|apply Hstep].
    + intros x. destruct (stack cfg); simpl; [done|]. rewrite fmap_app. simpl. mem_equiv.
    + right. exists d, Chown, "DIRECTORY". by rewrite Hm.
    + by left.
    + intros _ d' Hd' _. simplify_eq. by right; left.
    + right. exists d, Chown. rewrite Htag, Hm. done.
    + intros _ d' Hd' _ _. simplify_eq. exists Chown. by rewrite Htag.
  - simplify_eq. simpl. split; [done|]. split; [done|]. apply Hstep.
    + by left.
    + by left.
    + intros _ d' Hd' Hm'. simplify_eq.
    + left. apply quiet_ext_refl.
    + intros _ d' Hd' Hm'. simplify_eq.
Qed.

Lemma drop_cons_inv {A} (l : list A) n x rest :
  drop n l = x :: rest → l !! n = Some x ∧ drop (S n) l = rest.
Proof.
  intros H. split.
  - rewrite <- (Nat.add_0_r n), <- lookup_drop, H. done.
  - replace (S n) with (n + 1)%nat by lia. by rewrite <- drop_drop, H.
Qed.

Lemma drop_nil_length {A} (l : list A) n : drop n l = [] → (length l ≤ n)%nat.
Proof. intros H. apply (f_equal length) in H. rewrite length_drop in H. simpl in H. lia. Qed.

(** The [readdir] loop over one directory. *)
Lemma scan_dir_inv all entries : ∀ pos we pa w G r,
  fs_dirs env !! name we = Some all → drop pos all = entries →
  inv w ((name we, pos) :: (pos_of <$> elems pa) ++ G) →
  scan_dir cfg env entries pos we pa w = Some r →
  w_shared (sr_world r) = w_shared w ∧
  inv (sr_world r) ((pos_of <$> elems (sr_anchor r)) ++ G).
Proof.
  induction entries as [|d_name rest IH]; intros pos we pa w G r Hall Hdrop Hinv Hs;
    simpl in Hs.
  - simplify_eq. simpl. split; [done|]. eapply inv_finish; [|exact Hinv].
    intros p. eapply below_end; [done|]. by apply drop_nil_length.
  - destruct (drop_cons_inv _ _ _ _ Hdrop) as [Hi Hrest].
    case_decide as Hdot.
    { eapply IH; [done|done| |done]. eapply inv_skip; eauto.
      intros (? & ? & _). by destruct Hdot. }
    case_decide as Hex.
    { eapply IH; [done|done| |done]. eapply inv_skip; eauto.
      intros (_ & _ & ?). done. }
    assert (Hinc : included excl d_name).
    { split_and!; [intros ->; apply Hdot; by left|intros ->; apply Hdot; by right|done]. }
    destruct (visit_child cfg env we d_name pa w) as [[[we' pa'] w']|] eqn:Hv; [|done].
    destruct (visit_child_inv _ _ _ _ _ _ G _ Hall Hi Hinc Hinv Hv) as (Hname & Hsh & Hinv').
    simpl in Hname, Hsh, Hinv'.
    destruct (too_few_busy cfg (w_shared w')).
    + destruct rest as [|next rest]; simplify_eq; simpl.
      * split; [done|]. eapply inv_finish; [|exact Hinv'].
        intros p. eapply below_end; [done|]. by apply drop_nil_length.
      * split; [done|]. eapply inv_equiv; [|exact Hinv'].
        intros x. rewrite fmap_app. simpl. unfold pos_of at 2. simpl. rewrite Hname.
        mem_equiv.
    + rewrite <- Hname in Hall, Hinv'.
      destruct (IH (S pos) we' pa' w' G r Hall Hrest Hinv' Hs) as [Hsh' Hinv''].
      split; [by rewrite Hsh', Hsh|done].
Qed.

Lemma hand_over_perm d s r p g :
  elems (hand_over d s r p g).2 = [] ∧
  elems (fast_anchor (hand_over d s r p g).1) ++ elems (slow_anchor (hand_over d s r p g).1)
  ≡ₚ elems p ++ elems (fast_anchor g) ++ elems (slow_anchor g).
Proof.
  unfold hand_over.
  pose proof (splice_perm s (fast_anchor g) p) as [Hf Hf'].
  pose proof (splice_perm s (slow_anchor g) p) as [Hs Hs'].
  destruct d; [destruct (Qle_bool _ r)|].
  - destruct ((if s then deq_prepend else deq_append) (fast_anchor g) p) as [fa p'].
    simpl in *. split; [done|]. rewrite Hf.
    by rewrite (comm (++) (elems (fast_anchor g))), <- (assoc_L (++)).
  - destruct ((if s then deq_prepend else deq_append) (slow_anchor g) p) as [sa p'].
    simpl in *. split; [done|]. rewrite Hs.
    rewrite (assoc_L (++) (elems p)), (comm (++) (elems p)), <- (assoc_L (++)).
    by rewrite (comm (++) (elems p)).
  - destruct ((if s then deq_prepend else deq_append) (fast_anchor g) p) as [fa p'].
    simpl in *. split; [done|]. rewrite Hf.
    by rewrite (comm (++) (elems (fast_anchor g))), <- (assoc_L (++)).
Qed.

Lemma take_element_perm d g oqe g' :
  take_element d g = Some (oqe, g') →
  elems (fast_anchor g) ++ elems (slow_anchor g)
  ≡ₚ option_list oqe ++ elems (fast_anchor g') ++ elems (slow_anchor g').
Proof.
  intros Htake. unfold take_element in Htake. destruct d.
  - destruct (take_dual g) as [[qe0 g0]|] eqn:Hd; [|done]. simplify_eq.
    destruct (decay_speeds_elems g0) as [-> ->].
    unfold take_dual, deq_get in Hd.
    repeat (case_match || case_decide); simplify_eq; simpl;
      repeat match goal with H : elems _ = _ |- _ => rewrite H; clear H end;
      simpl; try done; by rewrite <- Permutation_middle.
  - unfold deq_get in Htake. repeat case_match; simplify_eq; simpl;
      repeat match goal with H : elems _ = _ |- _ => rewrite H; clear H end; done.
Qed.

(** The transfer of the private queue. *)
Lemma transfer_inv loc pa w loc' pa' w' :
  (dual_queue cfg = false → first_deq_element loc = None) →
  inv w ((pos_of <$> elems pa) ++ glob w) →
  transfer cfg env loc pa w = (loc', pa', w') →
  (dual_queue cfg = false → first_deq_element loc' = None) ∧
  notfinished (w_shared w') = notfinished (w_shared w) ∧
  inv w' ((pos_of <$> elems pa') ++ glob w').
Proof.
  intros Hloc Hinv Ht. unfold transfer in Ht.
  destruct (if dual_queue cfg then deq_get pa else (first_deq_element loc, pa))
    as [first p1] eqn:Hfirst.
  assert (Hpa : elems pa = option_list first ++ elems p1 ∧
                (dual_queue cfg = false → first = None)).
  { destruct (dual_queue cfg).
    - unfold deq_get in Hfirst. destruct (elems pa) eqn:He; simplify_eq; simpl; [|done].
      by rewrite He.
    - simplify_eq. rewrite Hloc by done. done. }
  destruct Hpa as [Hpa Hnone].
  change (w_shared (emit _ (tick w))) with (w_shared w) in Ht.
  pose proof (hand_over_perm (dual_queue cfg) (stack cfg)
                (scan_rate (t1 loc) (clock env (w_clock w)) (directories_scanned loc))
                p1 (w_shared w)) as [Hp2 Hperm].
  pose proof (hand_over_flags (dual_queue cfg) (stack cfg)
                (scan_rate (t1 loc) (clock env (w_clock w)) (directories_scanned loc))
                p1 (w_shared w)) as [_ Hnf].
  destruct (hand_over _ _ _ p1 (w_shared w)) as [g p2]. simplify_eq. simpl in *.
  split; [done|]. split; [done|].
  eapply inv_equiv; [|eapply (inv_world w); [| | |exact Hinv]; [done|done|]].
  2:{ simpl. eexists. rewrite <- app_assoc. split; [done|].
      apply Forall_app. split; [repeat constructor; by intros []|].
      apply Forall_replicate. by intros []. }
  intros x. unfold glob. simpl. rewrite Hperm, Hpa.
  destruct first as [f|]; simpl; rewrite ?Hp2; simpl; rewrite ?fmap_app; simpl; mem_equiv.
Qed.

Lemma counter_zero a : ¬ 0 < element_counter a → elems a = [].
Proof. unfold element_counter. destruct (elems a); simpl; [done|lia]. Qed.

Lemma free_w_element_inv loc w Q : inv w Q → inv (free_w_element loc w) Q.
Proof.
  intros Hinv. unfold free_w_element. destruct (l_backtodeq loc); [|done].
  eapply (inv_world w); [done|done|apply quiet_ext_refl|done].
Qed.

Lemma free_w_element_shared loc w : w_shared (free_w_element loc w) = w_shared w.
Proof. unfold free_w_element. by destruct (l_backtodeq loc). Qed.

(** The loop of [process_tile]. *)
Lemma tile_loop_inv fuel : ∀ loc pa w w' s,
  (dual_queue cfg = false → first_deq_element loc = None) →
  inv w ((pos_of <$> elems pa) ++ glob w) →
  tile_loop fuel cfg env loc pa w = (w', s) →
  notfinished (w_shared w') = notfinished (w_shared w) ∧
  ∃ Q, inv w' Q ∧ (s = Finished → Q = glob w').
Proof.
  assert (Hexit : ∀ loc pa w w' s, ¬ 0 < element_counter pa →
    inv w ((pos_of <$> elems pa) ++ glob w) → (free_w_element loc w, Finished) = (w', s) →
    notfinished (w_shared w') = notfinished (w_shared w) ∧
    ∃ Q, inv w' Q ∧ (s = Finished → Q = glob w')).
  { intros loc pa w w' s Hc Hinv Heq. simplify_eq.
    rewrite (counter_zero _ Hc) in Hinv. split; [by rewrite free_w_element_shared|].
    exists (glob w). split; [by apply free_w_element_inv|].
    intros _. unfold glob. by rewrite free_w_element_shared. }
  induction fuel as [|fuel IH]; intros loc pa w w' s Hloc Hinv Hrun; simpl in Hrun.
  - destruct (decide (0 < element_counter pa)) as [Hc|Hc]; [|by eapply Hexit].
    simplify_eq. split; [done|]. by eexists; split; [exact Hinv|].
  - destruct (decide (0 < element_counter pa)) as [Hc|Hc]; [|by eapply Hexit].
    destruct (deq_get pa) as [[we|] p1] eqn:Hget;
      [|simplify_eq; split; [done|]; by eexists; split; [exact Hinv|]].
    assert (Hpa : elems pa = we :: elems p1).
    { unfold deq_get in Hget. destruct (elems pa); by simplify_eq. }
    rewrite Hpa in Hinv. simpl in Hinv.
    set (loc1 := Tile_locals _ _ _ false) in Hrun.
    assert (Hloc1 : dual_queue cfg = false → first_deq_element loc1 = None) by done.
    destruct (fs_dirs env !! name we) as [entries|] eqn:Hdir.
    + destruct (scan_dir cfg env (drop (dirpos we) entries) (dirpos we) we p1 w)
        as [r|] eqn:Hscan; [|simplify_eq; split; [done|]; by eexists; split; [exact Hinv|]].
      destruct (scan_dir_inv _ _ _ _ _ _ _ _ Hdir eq_refl Hinv Hscan) as [Hsh Hinv1].
      assert (Hglob : glob (sr_world r) = glob w) by (unfold glob; by rewrite Hsh).
      rewrite <- Hglob in Hinv1.
      set (loc1' := Tile_locals _ _ _ (backtodeq r)) in Hrun.
      assert (Hloc1' : dual_queue cfg = false → first_deq_element loc1' = None) by done.
      destruct (too_many_idle_threads r && bool_decide (1 < element_counter (sr_anchor r))).
      * destruct (transfer cfg env loc1' (sr_anchor r) (sr_world r)) as [[loc2 p2] w2] eqn:Ht.
        destruct (transfer_inv _ _ _ _ _ _ Hloc1' Hinv1 Ht) as (Hloc2 & Hnf2 & Hinv2).
        destruct (IH _ _ _ _ _ Hloc2 Hinv2 Hrun) as [Hnf HQ].
        split; [|done]. by rewrite Hnf, Hnf2, Hsh.
      * destruct (IH _ _ _ _ _ Hloc1' Hinv1 Hrun) as [Hnf HQ].
        split; [|done]. by rewrite Hnf, Hsh.
    + eapply (IH loc1 p1 (emit _ w)); [done| |exact Hrun].
      eapply (inv_world w); [done|done| |].
      { apply quiet_ext_emit. repeat constructor. by intros []. }
      eapply inv_finish; [|exact Hinv].
      intros p. by apply below_none.
Qed.

Lemma process_tile_inv fuel qe w w' s :
  inv w (pos_of qe :: glob w) →
  process_tile fuel cfg env qe w = (w', s) →
  notfinished (w_shared w') = notfinished (w_shared w) ∧
  ∃ Q, inv w' Q ∧ (s = Finished → Q = glob w').
Proof.
  intros Hinv Hrun. unfold process_tile in Hrun.
  eapply (tile_loop_inv fuel _ _ (set_memory _ (tick w))); [| |exact Hrun]; [done|].
  simpl. eapply (inv_world w); [done|done|apply quiet_ext_refl|done].
Qed.

(** The loop of the worker: when it ends, no directory is pending. *)
Lemma handle_subtree_inv fuel : ∀ w w' s,
  inv w (glob w) → (notfinished (w_shared w) = false → glob w = []) →
  handle_subtree fuel cfg env w = (w', s) →
  ∃ Q, inv w' Q ∧ (s = Finished → Q = []).
Proof.
  induction fuel as [|fuel IH]; intros w w' s Hinv Hend Hrun; simpl in Hrun.
  - destruct (notfinished (w_shared w)); simplify_eq; [by eexists; split; [exact Hinv|]|].
    exists (glob w'). split; [done|]. intros _. by apply Hend.
  - destruct (notfinished (w_shared w)) eqn:Hnf.
    2:{ simplify_eq. exists (glob w'). split; [done|]. intros _. by apply Hend. }
    case_decide as Hempty; [simplify_eq; by eexists; split; [exact Hinv|]|].
    destruct (take_element (dual_queue cfg) (w_shared w)) as [[oqe g']|] eqn:Htake;
      [|simplify_eq; by eexists; split; [exact Hinv|]].
    pose proof (take_element_perm _ _ _ _ Htake) as Hperm.
    destruct (take_element_flags _ _ _ _ Htake) as [_ Hnf'].
    destruct oqe as [qe|].
    + destruct (process_tile fuel cfg env qe (set_shared (busy_incr g') w))
        as [w1 s1] eqn:Htile.
      destruct (process_tile_inv fuel qe (set_shared (busy_incr g') w) w1 s1) as [Hnf1 HQ];
        [|done|].
      { eapply inv_equiv;
          [|eapply (inv_world w); [| | |exact Hinv]; [done|done|apply quiet_ext_refl]].
        intros x. unfold glob. simpl. rewrite Hperm. simpl. done. }
      destruct HQ as (Q & Hinv1 & HQ).
      assert (Hs1 : s1 = Finished ∨ (s1 ≠ Finished ∧ (w1, s1) = (w', s))).
      { destruct s1; [by left|right; split; done..]. }
      destruct Hs1 as [->|[Hne Heq]].
      2:{ simplify_eq. exists Q. split; [done|]. intros ?. done. }
      rewrite (HQ eq_refl) in Hinv1.
      destruct (release (w_shared w1)) as [g1 broadcast] eqn:Hrel.
      eapply (IH (emit _ (set_shared g1 w1))); [| |exact Hrun].
      * eapply (inv_world w1); [done|done| |].
        { apply (quiet_ext_emit _ (set_shared g1 w1)).
          destruct broadcast; repeat constructor. by intros []. }
        replace (glob (emit (if broadcast then [EvCondBroadcast] else []) (set_shared g1 w1)))
          with (glob w1); [done|].
        unfold release in Hrel. unfold glob. simpl. by case_decide; simplify_eq.
      * unfold release in Hrel. simpl. case_decide as Hz; simplify_eq; simpl.
        -- intros _. destruct Hz as (_ & Hf & Hsl). simpl in Hf, Hsl. unfold glob. simpl.
           rewrite (counter_zero (fast_anchor (w_shared w1))) by lia.
           rewrite (counter_zero (slow_anchor (w_shared w1))) by lia. done.
        -- simpl in Hnf1. rewrite Hnf1. simpl. rewrite Hnf', Hnf. done.
    + eapply (IH (set_shared g' w)); [| |exact Hrun].
      * eapply inv_equiv;
          [|eapply (inv_world w); [| | |exact Hinv]; [done|done|apply quiet_ext_refl]].
        intros x. unfold glob. simpl. rewrite Hperm. simpl. done.
      * simpl. rewrite Hnf', Hnf. done.
Qed.

End Traversal.

Lemma config_of_lists args n :
  begin_fs_list (config_of args n) = parsefilelist (dir_lines args) ∧
  begin_exclude_file (config_of args n) = parseexfilelist (ex_lines args).
Proof. unfold config_of. by destruct (parseuidlist _ _). Qed.

(** The invariant when the workers start: the accepted roots are pending. *)
Lemma inv_start cfg env o w :
  w_owners w = o → w_htab w = h_init INIT_MODULE INIT_TAB_SIZE →
  Forall (λ e, ¬ is_stdout e) (w_events w) →
  traversal_inv cfg env o w
    ((λ r, (r, 0%nat)) <$> filter (λ r, is_Some (lstat env o r)) (begin_fs_list cfg)).
Proof.
  intros Ho Ht Hev. subst o.
  assert (Hpend : ∀ path (D : Prop),
    in_scope (begin_fs_list cfg) (begin_exclude_file cfg) env path →
    D ∨ ∃ dir pos,
          ((dir, pos) ∈ (λ r, (r, 0%nat))
             <$> filter (λ r, is_Some (lstat env (w_owners w) r)) (begin_fs_list cfg)) ∧
          below (begin_exclude_file cfg) env dir pos path).
  { intros path D (root & Hr & Hs & Hb). right. exists root, 0%nat. split; [|done].
    apply list_elem_of_fmap. exists root. split; [done|].
    apply list_elem_of_filter. split; [|done].
    by apply (proj2 (lstat_is_Some _ (w_owners w) _)). }
  split.
  - intros k Hk. done.
  - intros dir pos (r & Heq & Hin)%list_elem_of_fmap. simplify_eq.
    apply list_elem_of_filter in Hin as [Hs Hin]. left. split; [done|].
    by apply (proj1 (lstat_is_Some _ _ _)) in Hs.
  - intros _ k. by left.
  - intros _. rewrite Ht. split.
    + split; [apply h_init_wf; done|]. rewrite h_init_set. apply NoDup_nil_2.
    + intros k Hk. rewrite h_init_set in Hk. by apply elem_of_nil in Hk.
  - intros _ path Hs. by apply Hpend.
  - intros e Hin Hout. eapply Forall_forall in Hev; [|exact Hin]. done.
  - intros _ path Hs. by apply Hpend.
Qed.

Lemma seed_roots_no_thread env o roots fast tid :
  EvThreadCreate tid ∉ (seed_roots env o roots fast).2.
Proof.
  rewrite seed_roots_spec. simpl. intros (r & Heq & _)%list_elem_of_fmap. discriminate.
Qed.

Lemma seed_roots_no_stdout env o roots fast :
  Forall (λ e, ¬ is_stdout e) (seed_roots env o roots fast).2.
Proof.
  rewrite seed_roots_spec. simpl. apply Forall_fmap, Forall_forall. by intros r _ [].
Qed.

(** [main]: the invariant holds of the world a run ends in, and no
    directory is pending when a run with workers has come to its end. *)
Lemma chuid_main_traversal fuel args max_openfiles env o :
  ∃ numthr_ Q,
    traversal_inv (config_of args numthr_) env o
      (chuid_main fuel args max_openfiles env o).1 Q ∧
    ((chuid_main fuel args max_openfiles env o).2 = Finished →
     EvThreadCreate 0%nat ∈ w_events (chuid_main fuel args max_openfiles env o).1 →
     Q = []).
Proof.
  unfold chuid_main.
  assert (Hstop : ∀ cfg es, Forall (λ e, ¬ is_stdout e) es → EvThreadCreate 0%nat ∉ es →
    ∃ Q, traversal_inv cfg env o (stopped o es).1 Q ∧
         ((stopped o es).2 = Finished → EvThreadCreate 0%nat ∈ w_events (stopped o es).1 →
          Q = [])).
  { intros cfg es Hes Hno. eexists. split; [by apply inv_start|]. by intros _ Hin. }
  destruct (match arg_t args with Some n => option_t max_openfiles n | None => Some 20 end)
    as [numthr_|].
  2:{ exists 0. apply Hstop; [repeat constructor; by intros []|].
      intros Hin. repeat (apply elem_of_cons in Hin as [Hin|Hin]; [discriminate|]).
      by apply elem_of_nil in Hin. }
  exists numthr_. set (cfg := config_of args numthr_).
  destruct (begin_fs_list cfg) as [|r0 roots'] eqn:Eroots.
  { apply Hstop; [repeat constructor; by intros []|].
    intros Hin. repeat (apply elem_of_cons in Hin as [Hin|Hin]; [discriminate|]).
    by apply elem_of_nil in Hin. }
  rewrite <- Eroots in *.
  pose proof (seed_roots_no_thread env o (begin_fs_list cfg) deq_init 0) as Hno.
  pose proof (seed_roots_no_stdout env o (begin_fs_list cfg) deq_init) as Hquiet.
  pose proof (seed_roots_spec env o (begin_fs_list cfg) deq_init) as Hspec.
  destruct (seed_roots env o (begin_fs_list cfg) deq_init) as [fast es].
  injection Hspec as Hfast _. cbn [fst snd] in *.
  destruct (elems fast) as [|q0 qs] eqn:Eq.
  { apply Hstop.
    - apply Forall_app. split; [done|]. repeat constructor; by intros [].
    - intros Hin. apply elem_of_app in Hin as [Hin|Hin]; [done|].
      repeat (apply elem_of_cons in Hin as [Hin|Hin]; [discriminate|]).
      by apply elem_of_nil in Hin. }
  set (w0 := World _ _ _ _ _ _).
  assert (Hinv0 : traversal_inv cfg env o w0 (glob w0)).
  { replace (glob w0) with ((λ r, (r, 0%nat)) <$>
      filter (λ r, is_Some (lstat env o r)) (begin_fs_list cfg)).
    - apply inv_start; [done|done|]. apply Forall_app. split; [done|].
      apply Forall_fmap, Forall_forall. by intros t _ [].
    - unfold glob, w0. simpl. rewrite Hfast. simpl.
      rewrite app_nil_r, <- list_fmap_compose. done. }
  destruct (chuid_main_cfg_facts args numthr_) as [Hu Hg]. fold cfg in Hu, Hg.
  assert (Hrun : ∃ w1 s Q,
    (if decide (0 < numthr_) then handle_subtree fuel cfg env w0 else (w0, Finished))
    = (w1, s) ∧ traversal_inv cfg env o w1 Q ∧
    (s = Finished → EvThreadCreate 0%nat ∈ w_events w1 → Q = [])).
  { destruct (decide (0 < numthr_)) as [Hn|Hn].
    - destruct (handle_subtree fuel cfg env w0) as [w1 s] eqn:Hrun.
      destruct (handle_subtree_inv cfg env o Hu Hg fuel w0 w1 s Hinv0) as (Q & Hinv1 & HQ);
        [done|done|].
      exists w1, s, Q. split; [done|]. split; [done|]. by intros Hs _; auto.
    - exists w0, Finished, (glob w0). split; [done|]. split; [done|].
      intros _ Hin. unfold w0 in Hin. cbn [w_events] in Hin.
      replace (Z.to_nat numthr_) with 0%nat in Hin by lia. simpl in Hin.
      rewrite app_nil_r in Hin. done. }
  destruct Hrun as (w1 & s & Q & -> & Hinv1 & HQ). exists Q.
  unfold main_exit. cbn [fst snd].
  destruct (undefined (w_memory w1)); [by split|].
  destruct s; (split; [|try done]); try done.
  - eapply (inv_world cfg env o w1); [done|done| |done].
    apply quiet_ext_emit. repeat constructor; by intros [].
  - cbn [fst snd w_events emit]. intros _ Hin. apply HQ; [done|].
    apply elem_of_app in Hin as [Hin|Hin]; [done|].
    repeat (apply elem_of_cons in Hin as [Hin|Hin]; [discriminate|]).
    by apply elem_of_nil in Hin.
Qed.

(** X20.  A run that stays within defined behaviour changes the owner of
    an inode only through an entry in its scope (for the schedule in which
    the first worker does all the work, and a mapping file whose ids are
    values of [uid_t]).  Whatever the options, the clock and the way the run
    ends otherwise, an inode whose owner differs from the one before the run
    is named by a path below a root that [lstat] accepted, reached through
    included entries of directories only, the path is not refused by
    [chown], it is not a dry run and the entry is a regular file, a symbolic
    link or a directory. *)
Theorem run_changes_only_entries_in_scope (fuel : nat) (args : arguments)
    (max_openfiles : Z) (env : environment) (o : owners) (k : Z * Z) :
  let r := chuid_main fuel args max_openfiles env o in
  ids_in_range (id_lines args) → r.2 ≠ Undefined →
  w_owners r.1 k = o k ∨
  ∃ path d,
    in_scope (parsefilelist (dir_lines args)) (parseexfilelist (ex_lines args)) env path ∧
    fs_lstat env !! path = Some d ∧ (d_ino d, d_dev d) = k ∧
    (path ∉ fs_denied env) ∧ arg_n args = false ∧ d_mode d ≠ S_IFOTHER.
Proof.
  intros r _ _. unfold r.
  destruct (chuid_main_traversal fuel args max_openfiles env o) as (n & Q & Hinv & _).
  destruct (decide (w_owners (chuid_main fuel args max_openfiles env o).1 k = o k))
    as [Heq|Hne]; [by left|right].
  destruct (inv_sound _ _ _ _ _ Hinv k Hne) as (path & d & Hs & Hd & Hk & Hden & Hdry & Hm).
  destruct (config_of_lists args n) as [Hr He]. rewrite Hr, He in Hs.
  destruct (config_of_maps args n) as (_ & _ & Hn). rewrite Hn in Hdry.
  exists path, d. split_and!; done.
Qed.

Lemma run_changes_only_entries_in_scope_witness :
  let env := Environment
    (list_to_map [("/a", ["."; ".."; "f"; "skip"])])
    (list_to_map [("/a", Dentry S_IFDIR 2 10 1); ("/a/f", Dentry S_IFREG 1 11 1);
                  ("/a/skip", Dentry S_IFREG 1 13 1)])
    ∅ (λ n, Timeval (Z.of_nat n) 0) in
  let args := Arguments None false false false None
                [(Uid, 1000, 2000); (Gid, 1000, 3000)] ["/a"] ["skip"] in
  let o : owners := λ _, (1000, 1000) in
  let r := chuid_main 10 args 1024 env o in
  w_owners r.1 (11, 1) = (2000, 3000) ∧
  (w_owners r.1 (11, 1) = o (11, 1) ∨
   ∃ path d,
     in_scope (parsefilelist (dir_lines args)) (parseexfilelist (ex_lines args)) env path ∧
     fs_lstat env !! path = Some d ∧ (d_ino d, d_dev d) = (11, 1) ∧
     (path ∉ fs_denied env) ∧ arg_n args = false ∧ d_mode d ≠ S_IFOTHER).
Proof.
  intros env args o r. split; [vm_compute; reflexivity|].
  apply (run_changes_only_entries_in_scope 10 args 1024 env o (11, 1)).
  - repeat constructor; simpl; lia.
  - vm_compute. discriminate.
Defined.

(** X21.  A run that comes to its end has rewritten every entry in its
    scope (for the schedule in which the first worker does all the work, and
    a mapping file whose ids are values of [uid_t]).  A run that ends
    [Finished] has stayed within defined behaviour: no string was freed
    twice and no queue element was freed while it was queued.  When at least
    one worker was created, the run is not a dry run and no new id of a
    mapping list is an old id of it, then after such a run every regular file,
    symbolic link and directory below an accepted root, reached through
    included entries of directories, has the owner the mapping lists give to
    the owner it had before the run, provided no path naming its inode is
    refused by [chown].  This holds for every choice of queue mode, stack
    mode, busy threshold and clock. *)
Theorem finished_run_rewrites_every_entry (fuel : nat) (args : arguments)
    (max_openfiles : Z) (env : environment) (o : owners) (path : string) (d : dentry) :
  let r := chuid_main fuel args max_openfiles env o in
  ids_in_range (id_lines args) →
  arg_n args = false → no_chain (uid_map args) → no_chain (gid_map args) →
  r.2 = Finished → EvThreadCreate 0%nat ∈ w_events r.1 →
  in_scope (parsefilelist (dir_lines args)) (parseexfilelist (ex_lines args)) env path →
  fs_lstat env !! path = Some d → d_mode d ≠ S_IFOTHER → clean env (d_ino d, d_dev d) →
  w_owners r.1 (d_ino d, d_dev d)
  = (new_id (uid_map args) (o (d_ino d, d_dev d)).1,
     new_id (gid_map args) (o (d_ino d, d_dev d)).2).
Proof.
  intros r _ Hn Hcu Hcg Hfin Hthr Hs Hd Hm Hclean. unfold r in *.
  destruct (chuid_main_traversal fuel args max_openfiles env o) as (n & Q & Hinv & HQ).
  rewrite (HQ Hfin Hthr) in Hinv.
  destruct (config_of_lists args n) as [Hr He].
  destruct (config_of_maps args n) as (Hum & Hgm & Hdry).
  destruct (chuid_main_cfg_facts args n) as [Hu Hg].
  assert (Hrw : rewriting (config_of args n)).
  { unfold rewriting. rewrite Hdry, Hum, Hgm. rewrite Hum in Hu. rewrite Hgm in Hg. done. }
  rewrite <- Hr, <- He in Hs.
  destruct (inv_cover _ _ _ _ _ Hinv Hrw path Hs) as [Hdone|(dir & pos & Hin & _)].
  - rewrite (Hdone d Hd Hm Hclean). unfold new_owner. by rewrite Hum, Hgm.
  - by apply elem_of_nil in Hin.
Qed.

Lemma finished_run_rewrites_every_entry_witness :
  let env := Environment
    (list_to_map [("/a", ["."; ".."; "f"; "d"; "skip"]); ("/a/d", ["."; ".."; "g"])])
    (list_to_map [("/a", Dentry S_IFDIR 3 10 1); ("/a/f", Dentry S_IFREG 2 11 1);
                  ("/a/d", Dentry S_IFDIR 2 12 1); ("/a/d/g", Dentry S_IFREG 2 11 1);
                  ("/a/skip", Dentry S_IFREG 1 13 1)])
    ∅ (λ n, Timeval (Z.of_nat n) 0) in
  let args := Arguments None false false false None
                [(Uid, 1000, 2000); (Gid, 1000, 3000)] ["/a"] ["skip"] in
  let r := chuid_main 10 args 1024 env (λ _, (1000, 1000)) in
  r.2 = Finished ∧ w_owners r.1 (11, 1) = (2000, 3000) ∧ w_owners r.1 (13, 1) = (1000, 1000).
Proof.
  intros env args r. split; [by vm_compute|]. split; [|by vm_compute].
  pose proof (finished_run_rewrites_every_entry 10 args 1024 env (λ _, (1000, 1000))
                "/a/d/g" (Dentry S_IFREG 2 11 1)) as H.
  apply H; clear H.
  - repeat constructor; simpl; lia.
  - reflexivity.
  - intros old new Hin Hold. apply list_elem_of_singleton in Hin. injection Hin as -> ->.
    apply list_elem_of_singleton in Hold. discriminate.
  - intros old new Hin Hold. apply list_elem_of_singleton in Hin. injection Hin as -> ->.
    apply list_elem_of_singleton in Hold. discriminate.
  - by vm_compute.
  - vm_compute. repeat constructor.
  - exists "/a". split; [vm_compute; left|]. split; [by vm_compute; eexists|].
    assert (Hinc : ∀ n, n ≠ "." → n ≠ ".." → n ≠ "skip" →
                        included (parseexfilelist (ex_lines args)) n).
    { intros n H1 H2 H3. split_and!; [done..|]. vm_compute.
      intros Hin. apply list_elem_of_singleton in Hin. done. }
    eapply (below_deep _ env "/a" 0 _ 3 "d" (Dentry S_IFDIR 2 12 1));
      [reflexivity|reflexivity|lia|by apply Hinc|reflexivity|reflexivity|].
    eapply (below_entry _ env "/a/d" 0 _ 2 "g"); [reflexivity|reflexivity|lia|by apply Hinc].
  - reflexivity.
  - done.
  - intros p d' _ _. apply not_elem_of_empty.
Defined.
(** *** Dry run *)

(** The visit of an entry in full: a regular file, a symbolic link or a
    directory is rewritten, unless it is a hardlinked file whose class the
    table holds; nothing else touches the owners or the trace. *)
Lemma visit_child_rewrites cfg env we d_name pa w d r :
  fs_lstat env !! (name we +:+ "/" +:+ d_name) = Some d → h_ok (w_htab w) →
  visit_child cfg env we d_name pa w = Some r →
  let p := name we +:+ "/" +:+ d_name in
  if decide (d_mode d ≠ S_IFOTHER ∧ (hardlinked d → (d_ino d, d_dev d) ∉ h_set (w_htab w)))
  then w_owners r.2 = (rewrite_dentry cfg env (entry_call d) (entry_tag d) p d (w_owners w)).1 ∧
       w_events r.2
       = w_events w ++ (rewrite_dentry cfg env (entry_call d) (entry_tag d) p d (w_owners w)).2
  else w_owners r.2 = w_owners w ∧ w_events r.2 = w_events w.
Proof.
  intros Hd Hok Hv p.
  destruct (decide (hardlinked d)) as [Hh|Hh].
  - destruct (visit_child_hardlinked cfg env we d_name pa w d r Hd Hh Hok Hv)
      as (_ & _ & Hin & Hnin).
    assert (Hc : entry_call d = Chown ∧ entry_tag d = "FILE").
    { destruct Hh as [Hm _]. unfold entry_call, entry_tag. by rewrite Hm. }
    destruct Hc as [-> ->].
    case_decide as Hc.
    + apply Hnin. by apply Hc.
    + apply Hin. destruct (decide ((d_ino d, d_dev d) ∈ h_set (w_htab w))); [done|].
      destruct Hc. split; [|done]. destruct Hh as [-> _]. done.
  - unfold visit_child, lstat in Hv. fold p in Hv. fold p in Hd. rewrite Hd in Hv.
    destruct (w_owners w (d_ino d, d_dev d)) as [u g] eqn:Ho.
    cbn [st_mode st_nlink st_ino st_dev] in Hv.
    assert (Hrw : ∀ call tag dir ht,
      let w' := rewrite_entry cfg env call tag dir p
                  (Stat (d_mode d) (d_nlink d) (d_ino d) (d_dev d) u g) ht w in
      w_owners w' = (rewrite_dentry cfg env call tag p d (w_owners w)).1 ∧
      w_events w' = w_events w ++ (rewrite_dentry cfg env call tag p d (w_owners w)).2).
    { intros call tag dir ht. unfold rewrite_entry, rewrite_dentry. rewrite Ho.
      cbn [st_uid st_gid].
      rewrite <- (id_rewrite_heap cfg env call tag dir _ u g (w_memory w) (w_owners w)).
      by destruct (id_rewrite _ _ _ _ _ _ _ _ _ _) as [[? ?] ?]. }
    unfold entry_call, entry_tag. destruct (d_mode d) eqn:Hm.
    + rewrite decide_False in Hv by (intros ?; apply Hh; by split).
      rewrite decide_True in Hv by (by right). injection Hv as <-.
      rewrite decide_True by (by split). apply Hrw.
    + injection Hv as <-. rewrite decide_True by (by split). apply Hrw.
    + injection Hv as <-. rewrite decide_True by (by split). apply Hrw.
    + injection Hv as <-. rewrite decide_False by (by intros [? _]). done.
Qed.

(** C4.  In dry-run mode, for a mapping file whose ids are values of
    [uid_t] and a run of [chuid_main] that stays within defined behaviour:
    the run makes no [chown] and no [lchown] call and leaves every owner as
    it was; every dry-run line of the trace ([EvStdout]) is the line of an
    entry in the scope of the run, for its uid or its gid; and a run that
    comes to its end has printed the lines of every regular file with one
    link, every symbolic link and every directory in its scope.  The visit of one entry, in any world,
    leaves the owners alone and adds exactly the lines of the entry to the
    trace (nothing for a hardlinked file whose class is in the table, and
    nothing for other kinds of files).  The lines of an entry are one line
    for the uid when the uid list maps it, with the new uid of that mapping,
    and one line for the gid when the gid list maps it.  Any sequence of
    visits by any workers leaves the owners alone and adds no [chown] call. *)
Theorem dry_run_changes_nothing (fuel : nat) (args : arguments) (max_openfiles : Z)
    (env : environment) (o : owners) :
  arg_n args = true → ids_in_range (id_lines args) →
  let r := chuid_main fuel args max_openfiles env o in
  let lines (ow : owners) (path : string) (d : dentry) :=
    report_loop (entry_tag d) path Uid (ow (d_ino d, d_dev d)).1 (uid_map args)
    ++ report_loop (entry_tag d) path Gid (ow (d_ino d, d_dev d)).2 (gid_map args) in
  let scope :=
    in_scope (parsefilelist (dir_lines args)) (parseexfilelist (ex_lines args)) env in
  r.2 ≠ Undefined →
  (w_owners r.1 = o ∧ ∀ e, e ∈ w_events r.1 → ¬ is_chown e) ∧
  (∀ e, e ∈ w_events r.1 → is_stdout e →
     ∃ path d, scope path ∧ fs_lstat env !! path = Some d ∧ d_mode d ≠ S_IFOTHER ∧
               e ∈ lines o path d) ∧
  (r.2 = Finished → EvThreadCreate 0%nat ∈ w_events r.1 →
     ∀ path d, scope path → fs_lstat env !! path = Some d → d_mode d ≠ S_IFOTHER →
               ¬ hardlinked d → ∀ e, e ∈ lines o path d → e ∈ w_events r.1) ∧
  (∀ numthr_ we d_name pa w r' d,
     fs_lstat env !! (name we +:+ "/" +:+ d_name) = Some d → h_ok (w_htab w) →
     visit_child (config_of args numthr_) env we d_name pa w = Some r' →
     w_owners r'.2 = w_owners w ∧
     w_events r'.2
     = w_events w
       ++ if decide (d_mode d ≠ S_IFOTHER ∧
                     (hardlinked d → (d_ino d, d_dev d) ∉ h_set (w_htab w)))
          then lines (w_owners w) (name we +:+ "/" +:+ d_name) d else []) ∧
  (∀ tag path dim,
     let pairs := match dim with Uid => uid_map args | Gid => gid_map args end in
     (∀ old new, (old, new) ∈ pairs →
        report_loop tag path dim old pairs = [EvStdout path tag dim old new]) ∧
     (∀ id, id ∉ pairs.*1 → report_loop tag path dim id pairs = [])) ∧
  (∀ numthr_ visits w w',
     visit_all (config_of args numthr_) env visits w = Some w' →
     w_owners w' = w_owners w ∧ ∀ e, e ∈ w_events w' → is_chown e → e ∈ w_events w).
Proof.
  intros Hn _ r lines scope Hdef.
  assert (Hcfg : ∀ n, dryrun (config_of args n) = true ∧
                      begin_uidpair (config_of args n) = uid_map args ∧
                      begin_gidpair (config_of args n) = gid_map args).
  { intros n. destruct (config_of_maps args n) as (-> & -> & ->). done. }
  assert (Hlines : ∀ n ow path d,
            dry_lines (config_of args n) (entry_tag d) path (ow (d_ino d, d_dev d))
            = lines ow path d).
  { intros n ow path d. unfold dry_lines, lines.
    by destruct (Hcfg n) as (_ & -> & ->). }
  split; [|split; [|split; [|split; [|split]]]].
  - unfold r.
    destruct (chuid_main_split fuel args max_openfiles env)
      as (acts & w0 & s & es0 & es1 & Hok & Hes0 & Hes1 & _ & Heq).
    rewrite Heq. set (cfg := config_of args _).
    destruct (replay_dry cfg env acts (o, es0) (proj1 (Hcfg _)) Hok) as (Ho & es & He & Hes).
    assert (Hno : ∀ e, e ∈ (replay cfg env acts (o, es0)).2 ++ es1 → ¬ is_chown e).
    { intros e. rewrite He. cbn [snd]. intros [[Hin|Hin]%elem_of_app|Hin]%elem_of_app.
      - eapply Forall_forall in Hes0 as [? _]; done.
      - eapply Forall_forall in Hes; done.
      - eapply Forall_forall in Hes1 as [? _]; done. }
    cbn [fst] in Ho.
    destruct (undefined _); cbn [fst snd put_oem w_owners w_events]; (split; [done|]);
      [|done].
    intros e Hin. apply Hno. apply elem_of_app. by left.
  - intros e Hin Hout. unfold r in Hin.
    destruct (chuid_main_traversal fuel args max_openfiles env o) as (n & Q & Hinv & _).
    destruct (inv_lines _ _ _ _ _ Hinv e Hin Hout) as (path & d & Hs & Hd & Hm & _ & He).
    destruct (config_of_lists args n) as [Hr Hx]. rewrite Hr, Hx in Hs.
    rewrite (Hlines n o path d) in He. by exists path, d.
  - intros Hfin Hthr path d Hs Hd Hm Hh e He. unfold r in *.
    destruct (chuid_main_traversal fuel args max_openfiles env o) as (n & Q & Hinv & HQ).
    rewrite (HQ Hfin Hthr) in Hinv.
    destruct (config_of_lists args n) as [Hr Hx]. unfold scope in Hs. rewrite <- Hr, <- Hx in Hs.
    destruct (inv_printed _ _ _ _ _ Hinv (proj1 (Hcfg n)) path Hs) as [Hp|(? & ? & Hin & _)].
    + apply (Hp d Hd Hm Hh e). by rewrite (Hlines n o path d).
    + by apply elem_of_nil in Hin.
  - intros numthr_ we d_name pa w r' d Hd Hok Hv.
    pose proof (visit_child_rewrites _ env we d_name pa w d r' Hd Hok Hv) as Hrw.
    cbv zeta in Hrw.
    destruct (rewrite_dentry_dry (config_of args numthr_) env (entry_call d) (entry_tag d)
                (name we +:+ "/" +:+ d_name) d (w_owners w) (proj1 (Hcfg numthr_)))
      as (Ho & He & _).
    rewrite Ho, He, (Hlines numthr_ (w_owners w)) in Hrw.
    case_decide; [done|]. by rewrite app_nil_r.
  - intros tag path dim pairs. split.
    + intros old new Hin. apply report_loop_match; [|done].
      unfold pairs. destruct dim; apply maps_NoDup.
    + intros id Hid. by apply report_loop_no_match.
  - intros numthr_ visits w w' Hv.
    destruct (visit_all_split (config_of args numthr_) env visits w)
      as (acts & r0 & Hacts & Heq & _).
    specialize (Heq (w_owners w, w_events w) (w_memory w)). rewrite put_oem_self, Hv in Heq.
    destruct r0 as [w0|]; [|done]. injection Heq as ->.
    destruct (replay_dry (config_of args numthr_) env acts (w_owners w, w_events w)
                (proj1 (Hcfg numthr_)) Hacts) as (Ho & es & He & Hes).
    cbn [put_oem w_owners w_events]. split; [done|].
    intros e Hin Hc. rewrite He in Hin. cbn [snd] in Hin.
    apply elem_of_app in Hin as [Hin|Hin]; [done|].
    eapply Forall_forall in Hes; [|exact Hin]. done.
Qed.

Lemma dry_run_changes_nothing_witness :
  let env := Environment
    (list_to_map [("/a", ["."; ".."; "f"; "l"; "d"]); ("/a/d", ["."; ".."; "g"])])
    (list_to_map [("/a", Dentry S_IFDIR 3 10 1); ("/a/f", Dentry S_IFREG 1 11 1);
                  ("/a/l", Dentry S_IFLNK 1 12 1); ("/a/d", Dentry S_IFDIR 2 13 1);
                  ("/a/d/g", Dentry S_IFREG 1 14 1)])
    ∅ (λ n, Timeval (Z.of_nat n) 0) in
  let args := Arguments None false true false None
                [(Uid, 1000, 2000); (Gid, 1000, 3000)] ["/a"] [] in
  let o : owners := λ k, if decide (k = (14, 1)) then (1000, 5) else (7, 1000) in
  let r := chuid_main 10 args 1024 env o in
  w_owners r.1 = o ∧
  (EvStdout "/a/d/g" "FILE" Uid 1000 2000 ∈ w_events r.1) ∧
  (EvStdout "/a/l" "DIRECTORY" Gid 1000 3000 ∈ w_events r.1).
Proof.
  intros env args o r.
  assert (Hinc : ∀ n, n ≠ "." → n ≠ ".." → included (parseexfilelist (ex_lines args)) n).
  { intros n H1 H2. split_and!; [done..|]. vm_compute. by intros ?%elem_of_nil. }
  assert (Hroot : "/a" ∈ parsefilelist (dir_lines args) ∧ is_Some (fs_lstat env !! "/a")).
  { split; [vm_compute; left|by vm_compute; eexists]. }
  destruct (dry_run_changes_nothing 10 args 1024 env o) as ((Ho & _) & _ & Hall & _).
  - reflexivity.
  - repeat constructor; simpl; lia.
  - vm_compute. discriminate.
  - split; [exact Ho|].
    assert (Hfin : r.2 = Finished) by (vm_compute; reflexivity).
    assert (Hthr : EvThreadCreate 0%nat ∈ w_events r.1) by (vm_compute; repeat constructor).
    split.
    + apply (Hall Hfin Hthr "/a/d/g" (Dentry S_IFREG 1 14 1)).
      * exists "/a". destruct Hroot as [? ?]. split_and!; [done..|].
        eapply (below_deep _ env "/a" 0 _ 4 "d" (Dentry S_IFDIR 2 13 1));
          [reflexivity|reflexivity|lia|by apply Hinc|reflexivity|reflexivity|].
        eapply (below_entry _ env "/a/d" 0 _ 2 "g");
          [reflexivity|reflexivity|lia|by apply Hinc].
      * reflexivity.
      * done.
      * intros [_ Hl]. simpl in Hl. lia.
      * vm_compute. left.
    + apply (Hall Hfin Hthr "/a/l" (Dentry S_IFLNK 1 12 1)).
      * exists "/a". destruct Hroot as [? ?]. split_and!; [done..|].
        eapply (below_entry _ env "/a" 0 _ 3 "l"); [reflexivity|reflexivity|lia|by apply Hinc].
      * reflexivity.
      * done.
      * by intros [? _].
      * vm_compute. left.
Defined.

(** The lines of the dry run of the witness, in the order of the visits. *)
Example dry_run_lines :
  let env := Environment
    (list_to_map [("/a", ["."; ".."; "f"; "l"; "d"]); ("/a/d", ["."; ".."; "g"])])
    (list_to_map [("/a", Dentry S_IFDIR 3 10 1); ("/a/f", Dentry S_IFREG 1 11 1);
                  ("/a/l", Dentry S_IFLNK 1 12 1); ("/a/d", Dentry S_IFDIR 2 13 1);
                  ("/a/d/g", Dentry S_IFREG 1 14 1)])
    ∅ (λ n, Timeval (Z.of_nat n) 0) in
  let args := Arguments None false true false None
                [(Uid, 1000, 2000); (Gid, 1000, 3000)] ["/a"] [] in
  let o : owners := λ k, if decide (k = (14, 1)) then (1000, 5) else (7, 1000) in
  filter is_stdout (w_events (chuid_main 10 args 1024 env o).1)
  = [EvStdout "/a/f" "FILE" Gid 1000 3000; EvStdout "/a/l" "DIRECTORY" Gid 1000 3000;
     EvStdout "/a/d" "DIRECTORY" Gid 1000 3000; EvStdout "/a/d/g" "FILE" Uid 1000 2000].
Proof. vm_compute. reflexivity. Qed.

(** *** Runs that leave defined behaviour *)

(** A directory whose [chown] is refused, after an entry of the same
    [process_tile] call was rewritten: [oname] and [nname] are freed a second
    time, and the run is [Undefined]. *)
Example refused_directory_frees_twice :
  let env := Environment
    (list_to_map [("/a", ["."; ".."; "f"; "d"]); ("/a/d", ["."; ".."])])
    (list_to_map [("/a", Dentry S_IFDIR 3 10 1); ("/a/f", Dentry S_IFREG 1 11 1);
                  ("/a/d", Dentry S_IFDIR 2 12 1)])
    {["/a/d"]} (λ n, Timeval (Z.of_nat n) 0) in
  let args := Arguments (Some 1) false false false None [(Uid, 1000, 2000)] ["/a"] [] in
  (chuid_main 10 args 1024 env (λ _, (1000, 1000))).2 = Undefined.
Proof. vm_compute. reflexivity. Qed.

(** Single-queue mode, too few busy threads after the first entry of a
    directory that has more: the element goes back on the private queue,
    the transfer moves it to the fast queue, and [free (w_element)] frees it
    there. *)
Example single_queue_handback_frees_queued_element :
  let env := Environment
    (list_to_map [("/a", ["."; ".."; "d"; "f"]); ("/a/d", ["."; ".."])])
    (list_to_map [("/a", Dentry S_IFDIR 3 10 1); ("/a/f", Dentry S_IFREG 1 11 1);
                  ("/a/d", Dentry S_IFDIR 2 12 1)])
    ∅ (λ n, Timeval (Z.of_nat n) 0) in
  let dual := Arguments None false false false None [(Uid, 1000, 2000)] ["/a"] [] in
  let single := Arguments None false false true None [(Uid, 1000, 2000)] ["/a"] [] in
  (chuid_main 10 dual 1024 env (λ _, (1000, 1000))).2 = Finished ∧
  (chuid_main 10 single 1024 env (λ _, (1000, 1000))).2 = Undefined.
Proof. vm_compute. done. Qed.
